(** * aria: harmonic timeline, cadence detection and tick-exact MIDI cuts

    A shallow embedding of the analysis code of the repository
    ([adisi_main.py] and [adisi_utils/get_chords_per_16th.py]) together
    with the properties its specification states about it.

    Conventions of the embedding.
    - Python [int] is [Z]; Python [%] with a positive modulus is [Z.modulo].
    - Python [float] values that the code computes from MIDI ticks
      ([ticks_per_beat / 4.0], [last_tick / ticks_per_16th], ...) are
      modelled as exact rationals [Q].  The two agree as long as the
      tick counts stay below 2^50, far above anything a MIDI file holds.
      The float arithmetic of [_extract_chords], where rounding shows,
      is an interface ([Chords.Arithmetic]) instead.
    - A Python [set] of ints is a [gset Z]; a Python [dict] whose
      iteration order is observable is an association list in insertion
      order.
    - [list.sort(key=...)] is stable; it is modelled by a stable
      insertion sort, which returns the same list.
    - A Python [str] that is formatted into the report or parsed back
      from it is a list of characters; the model is that of ASCII
      text. *)

From Stdlib Require Import ZArith QArith Qround Lia Ascii String.
From Stdlib Require DecimalN.
From stdpp Require Import base numbers option list sorting gmap sets strings.

Local Open Scope string_scope.
Local Open Scope list_scope.
Local Open Scope Z_scope.

(** ** Python built-ins used by the code *)

Module Py.

(** [round(x)] on a float: round half to even. *)
Definition round (q : Q) : Z :=
  let f := Qfloor q in
  match Qcompare (q - inject_Z f) (1 # 2) with
  | Lt => f
  | Gt => f + 1
  | Eq => if Z.even f then f else f + 1
  end.

(** [int(x)] on a float: truncation towards zero. *)
Definition int (q : Q) : Z :=
  if Qle_bool 0 q then Qfloor q else Qceiling q.

(** [range(n)]: empty when [n <= 0]. *)
Definition range (n : Z) : list Z := seqZ 0 n.

Section Sorting.
Context {A : Type} (leb : A → A → bool).

(** Insertion in front of the first element that is not smaller: an
    element never overtakes one with an equal key, so [sorted] below
    is stable, as Python's sort is. *)
Fixpoint insert (x : A) (l : list A) : list A :=
  match l with
  | [] => [x]
  | y :: l' => if leb x y then x :: y :: l' else y :: insert x l'
  end.

Fixpoint sorted (l : list A) : list A :=
  match l with
  | [] => []
  | x :: l' => insert x (sorted l')
  end.

(** The order the comparison decides. *)
Definition le (x y : A) : Prop := leb x y = true.
End Sorting.

(** [max(l) if l else 0] *)
Definition max_or_zero (l : list Z) : Z :=
  match l with
  | [] => 0
  | x :: l' => foldl Z.max x l'
  end.

(** [min(s)] of a non-empty set of ints ([None] stands for ValueError). *)
Definition min (s : gset Z) : option Z :=
  match elements s with
  | [] => None
  | x :: l => Some (foldl Z.min x l)
  end.

End Py.

(** ** mido messages and files *)

Module Mido.

(** A message of a track.  [time] is the delta time in ticks since the
    previous message of the same track.  [Other] covers meta messages
    ([set_tempo], [end_of_track], ...) and the channel messages that are
    not notes; the code only looks at their [type] and [time]. *)
Inductive Message : Type :=
  | NoteOn (channel note velocity time : Z)
  | NoteOff (channel note velocity time : Z)
  | Other (type : string) (time : Z).

Definition type (msg : Message) : string :=
  match msg with
  | NoteOn _ _ _ _ => "note_on"
  | NoteOff _ _ _ _ => "note_off"
  | Other ty _ => ty
  end.

Definition time (msg : Message) : Z :=
  match msg with
  | NoteOn _ _ _ t | NoteOff _ _ _ t | Other _ t => t
  end.

Definition MidiTrack : Type := list Message.

Record MidiFile : Type := mkMidiFile {
  ticks_per_beat : Z;
  tracks : list MidiTrack
}.

(** Absolute tick of every message of a track (running sum of the deltas). *)
Fixpoint abs_times (start : Z) (track : MidiTrack) : list Z :=
  match track with
  | [] => []
  | msg :: rest => (start + time msg) :: abs_times (start + time msg) rest
  end.

(** Total elapsed time of a track: the sum of its delta times. *)
Definition elapsed (track : MidiTrack) : Z :=
  foldr (λ msg acc, time msg + acc) 0 track.

Definition well_formed_track (track : MidiTrack) : Prop :=
  Forall (λ msg, 0 ≤ time msg) track.

End Mido.

(** ** EventStream Builder and Timeline Sampler
    [_get_sounding_notes_per_16th] of [adisi_main.py] *)

Module Sampler.
Import Mido.

Inductive kind : Type := on | off.

#[global] Instance kind_eq_dec : EqDecision kind.
Proof. solve_decision. Defined.

(** The tuples [('on', abs_time, msg.note)] and [('off', abs_time, msg.note)]. *)
Record event : Type := mkEvent { typ : kind; tick : Z; note : Z }.

(** The [if] / [elif] of the collection loop: what one message appends
    to [events], if anything. *)
Definition classify (msg : Message) (abs_time : Z) : option event :=
  match msg with
  | NoteOn _ n v _ =>
      if 0 <? v then Some (mkEvent on abs_time n)
      else if v =? 0 then Some (mkEvent off abs_time n)
      else None
  | NoteOff _ n _ _ => Some (mkEvent off abs_time n)
  | Other _ _ => None
  end.

(** The inner loop over one track, [abs_time] starting at 0. *)
Fixpoint collect_track (abs_time : Z) (track : MidiTrack) : list event :=
  match track with
  | [] => []
  | msg :: rest =>
      let abs_time := abs_time + time msg in
      match classify msg abs_time with
      | Some e => e :: collect_track abs_time rest
      | None => collect_track abs_time rest
      end
  end.

Definition collect (mid : MidiFile) : list event :=
  concat (map (collect_track 0) (tracks mid)).

(** The sort key [(x[1], 0 if x[0] == 'off' else 1)], compared as
    Python compares tuples. *)
Definition rank (k : kind) : Z := if decide (k = off) then 0 else 1.

Definition key_leb (e1 e2 : event) : bool :=
  (tick e1 <? tick e2) || ((tick e1 =? tick e2) && (rank (typ e1) <=? rank (typ e2))).

(** [events] after [events.sort(...)]: the merged, ordered event stream. *)
Definition build_events (mid : MidiFile) : list event :=
  Py.sorted key_leb (collect mid).

(** One step of the running active set: [active.add] / [active.discard]. *)
Definition apply_event (active : gset Z) (e : event) : gset Z :=
  match typ e with
  | on => active ∪ {[ note e ]}
  | off => active ∖ {[ note e ]}
  end.

(** The inner sweep of one subdivision, from [active = set()]; it
    [break]s at the first event after [target_tick]. *)
Fixpoint sweep (events : list event) (target_tick : Z) (active : gset Z) : gset Z :=
  match events with
  | [] => active
  | e :: rest =>
      if target_tick <? tick e then active
      else sweep rest target_tick (apply_event active e)
  end.

Definition ticks_per_16th (mid : MidiFile) : Q := (inject_Z (ticks_per_beat mid) / 4)%Q.

Definition last_tick (events : list event) : Z := Py.max_or_zero (map tick events).

(** [sorted(active)] *)
Definition sorted_notes (active : gset Z) : list Z := Py.sorted Z.leb (elements active).

(** [active] at the end of the body of the outer loop, for subdivision
    [tick_16th]. *)
Definition active_at (mid : MidiFile) (tick_16th : Z) : gset Z :=
  let target_tick := Py.int (inject_Z tick_16th * ticks_per_16th mid)%Q in
  sweep (build_events mid) target_tick ∅.

(** [_get_sounding_notes_per_16th].  [None] stands for the
    ZeroDivisionError that [last_tick / ticks_per_16th] raises when the
    file declares zero ticks per beat. *)
Definition _get_sounding_notes_per_16th (mid : MidiFile) : option (list (list Z) * Z) :=
  let events := build_events mid in
  if ticks_per_beat mid =? 0 then None
  else
    let total_16ths := Py.round (inject_Z (last_tick events) / ticks_per_16th mid)%Q in
    let result := (λ tick_16th, sorted_notes (active_at mid tick_16th)) <$> Py.range total_16ths in
    Some (result, total_16ths).

End Sampler.

(** ** Chord Classifier
    [adisi_utils/get_chords_per_16th.py] *)

Module Chords.

Definition NOTES : list string :=
  ["C"; "C#"; "D"; "D#"; "E"; "F"; "F#"; "G"; "G#"; "A"; "A#"; "B"].

(** [NOTES[pc]]; every index the code uses is a residue modulo 12. *)
Definition NOTES_at (pc : Z) : string := default "" (NOTES !! Z.to_nat pc).

(** The keys of the dict built by [_get_intervals]. *)
Inductive interval : Type := m2 | M2 | m3 | M3 | p4 | d5 | p5 | a5 | d7 | m7 | M7.

Definition semitones (k : interval) : Z :=
  match k with
  | m2 => 1 | M2 => 2 | m3 => 3 | M3 => 4 | p4 => 5 | d5 => 6
  | p5 => 7 | a5 => 8 | d7 => 9 | m7 => 10 | M7 => 11
  end.

Definition _get_intervals (root_pc : Z) : interval → Z :=
  λ k, (root_pc + semitones k) mod 12.

(** [x in pc] *)
Definition mem (x : Z) (pc : gset Z) : bool := bool_decide (x ∈ pc).

(** Truth value of an [Optional[str]]: [None] and the empty string are false. *)
Definition truthy (o : option string) : bool :=
  match o with
  | Some s => negb (String.eqb s "")
  | None => false
  end.

Definition _check_sus_chord (root_pc : Z) (pc : gset Z) (iv : interval → Z) : option string :=
  if mem (iv M2) pc && mem (iv p5) pc then
    Some (NOTES_at root_pc +:+ "sus2" +:+ (if mem (iv m7) pc then "7" else ""))
  else if mem (iv p4) pc && mem (iv p5) pc then
    Some (NOTES_at root_pc +:+ "sus4" +:+ (if mem (iv m7) pc then "7" else ""))
  else None.

Definition _get_tensions (root_pc : Z) (pc : gset Z) (iv : interval → Z) (has_3rd : bool)
    : list string :=
  (if mem (iv m2) pc then ["b9"] else []) ++
  (if mem (iv d5) pc && has_3rd && mem (iv p5) pc then ["#11"] else []) ++
  (if mem (iv a5) pc && (mem (iv m7) pc || mem (iv M7) pc) then ["b13"] else []).

(** [base + "".join(tensions) if tensions else base] *)
Definition with_tensions (base : string) (tensions : list string) : string :=
  match tensions with
  | [] => base
  | _ => base +:+ String.concat "" tensions
  end.

Definition _check_major_chord (root_pc : Z) (pc : gset Z) (iv : interval → Z)
    (tensions : list string) : option string :=
  if mem (iv M3) pc && mem (iv p5) pc then
    let base := NOTES_at root_pc +:+
                (if mem (iv M7) pc then "maj7" else if mem (iv m7) pc then "7" else "") in
    Some (with_tensions base tensions)
  else None.

Definition _check_minor_chord (root_pc : Z) (pc : gset Z) (iv : interval → Z)
    (tensions : list string) : option string :=
  if mem (iv m3) pc && mem (iv p5) pc then
    let base := NOTES_at root_pc +:+ "m" +:+ (if mem (iv m7) pc then "7" else "") in
    Some (with_tensions base tensions)
  else None.

Definition _check_dim_chord (root_pc : Z) (pc : gset Z) (iv : interval → Z)
    (tensions : list string) : option string :=
  if mem (iv m3) pc && mem (iv d5) pc then
    if mem (iv d7) pc then Some (NOTES_at root_pc +:+ "dim7")
    else if mem (iv m7) pc then Some (NOTES_at root_pc +:+ "m7b5")
    else Some (NOTES_at root_pc +:+ "dim")
  else None.

Definition _check_aug_chord (root_pc : Z) (pc : gset Z) (iv : interval → Z)
    (tensions : list string) : option string :=
  if mem (iv M3) pc && mem (iv a5) pc then Some (NOTES_at root_pc +:+ "aug")
  else None.

(** [for check in [...]: if chord := check(...): return chord] *)
Fixpoint first_check (checks : list (Z → gset Z → (interval → Z) → list string → option string))
    (root_pc : Z) (pc : gset Z) (iv : interval → Z) (tensions : list string) : option string :=
  match checks with
  | [] => None
  | check :: rest =>
      let chord := check root_pc pc iv tensions in
      if truthy chord then chord else first_check rest root_pc pc iv tensions
  end.

Definition _find_chord_type (root_pc : Z) (pc : gset Z) : option string :=
  let iv := _get_intervals root_pc in
  let has_3rd := mem (iv m3) pc || mem (iv M3) pc in
  let sus := _check_sus_chord root_pc pc iv in
  if negb has_3rd && truthy sus then sus
  else
    let tensions := _get_tensions root_pc pc iv has_3rd in
    first_check [_check_major_chord; _check_minor_chord; _check_dim_chord; _check_aug_chord]
      root_pc pc iv tensions.

(** [for r in sorted(pc): if chord := _find_chord_type(r, pc): return ...];
    [None] when the loop falls through. *)
Fixpoint first_root (roots : list Z) (pc : gset Z) (bass_pc : Z) : option string :=
  match roots with
  | [] => None
  | r :: rest =>
      let chord := _find_chord_type r pc in
      if truthy chord then
        match chord with
        | Some c => Some (if bool_decide (bass_pc ≠ r) then c +:+ "/" +:+ NOTES_at bass_pc else c)
        | None => None
        end
      else first_root rest pc bass_pc
  end.

Definition pitch_classes (notes : gset Z) : gset Z := set_map (λ n, n mod 12) notes.

Definition _notes_to_chord (notes : gset Z) : option string :=
  if bool_decide (notes = ∅) || (4 <? size notes)%nat then None
  else
    let pc := pitch_classes notes in
    match Py.min notes with
    | None => None (* ValueError; unreachable, [notes] is not empty here *)
    | Some lowest =>
        let bass_pc := lowest mod 12 in
        match first_root (Py.sorted Z.leb (elements pc)) pc bass_pc with
        | Some label => Some label
        | None => Some (NOTES_at bass_pc)
        end
    end.

(** [c or 'rest'], as both report writers print a label. *)
Definition or_rest (c : option string) : string :=
  if truthy c then default "rest" c else "rest".

(** *** Sampling a MidiDict every sixteenth note ([_extract_chords]) *)

(** [msg["data"]] of a note message of [ariautils.midi.MidiDict]. *)
Record note_msg : Type := mkNote { pitch : Z; start : Z; end_ : Z }.

Record MidiDict : Type := mkMidiDict {
  note_msgs : list note_msg;
  tempo_msgs : list Z (* the ["data"] of each tempo message *)
}.

(** The arithmetic of [_extract_chords].  The code computes its step,
    its sampling instants and the number of steps in Python floats,
    whose rounding makes them differ from the exact quotients (a tempo
    message of 900000 gives a step of 224.99999999999997 ms).  The
    arithmetic is therefore an interface: what is proved about
    [_extract_chords] holds for every implementation of it, IEEE
    doubles included. *)
Class Arithmetic (num : Type) : Type := {
  (** a float literal, given by its decimal value *)
  literal : Q → num;
  (** an [int] used as an operand *)
  of_int : Z → num;
  (** [a / b]; [None] stands for ZeroDivisionError *)
  num_div : num → num → option num;
  (** [a * b] *)
  num_mul : num → num → num;
  (** [a <= b] and [a < b] *)
  num_le : num → num → bool;
  num_lt : num → num → bool;
  (** [int(a)]; [None] stands for the error raised on an infinity or a NaN *)
  num_int : num → option Z
}.

Definition Qleb (a b : Q) : bool := Qle_bool a b.
Definition Qltb (a b : Q) : bool := negb (Qle_bool b a).

(** Exact rational arithmetic, one implementation of the interface;
    the worked examples are computed with it. *)
#[global] Instance rational_arithmetic : Arithmetic Q := {
  literal q := q;
  of_int := inject_Z;
  num_div a b := if Qeq_bool b 0 then None else Some (a / b)%Q;
  num_mul := Qmult;
  num_le := Qleb;
  num_lt := Qltb;
  num_int a := Some (Py.int a)
}.

Section Extract.
Context {num : Type} {arithmetic : Arithmetic num}.
(** [md.tick_to_ms] belongs to the ariautils library; the code only
    relies on it being a function of the tick. *)
Variable tick_to_ms : Z → num.

Definition in_piano_range (msg : note_msg) : bool :=
  (21 <=? pitch msg) && (pitch msg <=? 108).

(** [tick_to_ms(start) <= t < tick_to_ms(end)] *)
Definition sounding (t : num) (msg : note_msg) : bool :=
  num_le (tick_to_ms (start msg)) t && num_lt t (tick_to_ms (end_ msg)).

(** The set comprehension of the loop body. *)
Definition notes_at (msgs : list note_msg) (t : num) : gset Z :=
  list_to_set (pitch <$> filter (λ msg, sounding t msg && in_piano_range msg) msgs).

(** The tempo the sampling uses: the argument, else
    [60000000.0 / data] of the first tempo message, else 120.0.
    [None] stands for the ZeroDivisionError of a tempo message whose
    data is 0. *)
Definition effective_tempo (md : MidiDict) (tempo : option num) : option num :=
  match tempo with
  | Some t => Some t
  | None =>
      match tempo_msgs md with
      | d :: _ => num_div (literal 60000000) (of_int d)
      | [] => Some (literal 120)
      end
  end.

(** [step_ms = (60000.0 / tempo) * 0.25] *)
Definition step_of (tempo : num) : option num :=
  match num_div (literal 60000) tempo with
  | Some quarter_ms => Some (num_mul quarter_ms (literal (1 # 4)))
  | None => None
  end.

(** [max(...)] over a non-empty generator: a later item replaces the
    current maximum when it is greater. *)
Definition max_of (x : num) (l : list num) : num :=
  foldl (λ acc y, if num_lt acc y then y else acc) x l.

(** [None] stands for an exception of the arithmetic (a zero tempo, a
    zero step, a quotient that [int] rejects). *)
Definition _extract_chords (md : MidiDict) (tempo : option num)
    : option (list (option string)) :=
  match note_msgs md with
  | [] => Some []
  | first :: others =>
      match effective_tempo md tempo with
      | None => None
      | Some tempo =>
          match step_of tempo with
          | None => None
          | Some step_ms =>
              let max_ms :=
                max_of (tick_to_ms (end_ first)) ((λ msg, tick_to_ms (end_ msg)) <$> others) in
              match num_div max_ms step_ms with
              | None => None
              | Some steps =>
                  match num_int steps with
                  | None => None
                  | Some n =>
                      Some ((λ i, _notes_to_chord
                                    (notes_at (note_msgs md) (num_mul (of_int i) step_ms)))
                            <$> Py.range (n + 1))
                  end
              end
          end
      end
  end.
End Extract.

End Chords.
(** ** Cadence Detector
    [get_chord_events], [is_perfect_cadence] and [find_cadences] of
    [adisi_main.py] *)

Module Cadence.

(** One entry of the timeline: [{'tick': ..., 'function': ...}]. *)
Record sample : Type := mkSample { tick : Z; function : string }.

(** One chord event: [{'function': ..., 'start_tick': ..., 'duration': ...}]. *)
Record chord_event : Type := mkChordEvent {
  ev_function : string;
  start_tick : Z;
  duration : Z
}.

(** Loop state of [get_chord_events]: [(events, current_func, start_tick)]. *)
Definition compress_state : Type := list chord_event * string * Z.

(** Body of the [for] loop. *)
Definition compress_step (st : compress_state) (tick_data : sample) : compress_state :=
  let '(events, current_func, start) := st in
  let func := function tick_data in
  let tick := tick tick_data in
  if negb (String.eqb func current_func) then
    (events ++ [mkChordEvent current_func start (tick - start)], func, tick)
  else st.

Definition get_chord_events (timeline : list sample) : list chord_event :=
  match timeline with
  | [] => []
  | first :: _ =>
      let '(events, current_func, start) :=
        foldl compress_step ([], function first, tick first) timeline in
      let final_tick := tick (List.last timeline first) in
      events ++ [mkChordEvent current_func start (final_tick - start + 1)]
  end.

(** [s.startswith(c)] for a one-character [c]. *)
Definition startswith (s : string) (c : ascii) : bool :=
  match s with
  | String c' _ => Ascii.eqb c' c
  | EmptyString => false
  end.

(** [s[1] not in chars].  The index is only evaluated when [s] has a
    first character and [len(s) != 1], so it never fails. *)
Definition second_not_in (s : string) (chars : list ascii) : bool :=
  match String.get 1 s with
  | Some c => negb (existsb (Ascii.eqb c) chars)
  | None => false
  end.

Definition is_dominant (prev_func : string) : bool :=
  startswith prev_func "V" &&
  ((String.length prev_func =? 1)%nat || second_not_in prev_func ["I"; "i"]%char).

Definition is_tonic (curr_func : string) : bool :=
  (startswith curr_func "I" || startswith curr_func "i") &&
  ((String.length curr_func =? 1)%nat || second_not_in curr_func ["I"; "i"; "V"; "v"]%char).

Definition is_perfect_cadence (prev curr : chord_event) : bool :=
  let prev_func := ev_function prev in
  let curr_func := ev_function curr in
  if negb (is_dominant prev_func && is_tonic curr_func) then false
  else if negb (start_tick curr mod 4 =? 0) then false
  else if duration prev <? 2 then false
  else true.

Inductive strength : Type := Strong | Regular.

(** What the body of the loop of [find_cadences] does with one pair:
    append to [strong_cadences], to [regular_cadences], or to neither. *)
Definition classify_pair (prev_event curr_event : chord_event) : option strength :=
  if is_perfect_cadence prev_event curr_event then
    if 8 <=? duration curr_event then Some Strong
    else if 2 <=? duration curr_event then Some Regular
    else None
  else None.

Definition cadence_step (acc : list Z * list Z) (pair : chord_event * chord_event)
    : list Z * list Z :=
  let '(strong_cadences, regular_cadences) := acc in
  let '(prev_event, curr_event) := pair in
  match classify_pair prev_event curr_event with
  | Some Strong => (strong_cadences ++ [start_tick curr_event], regular_cadences)
  | Some Regular => (strong_cadences, regular_cadences ++ [start_tick curr_event])
  | None => acc
  end.

(** The scan over [zip(chord_events, chord_events[1:])]. *)
Definition scan_cadences (chord_events : list chord_event) : list Z * list Z :=
  foldl cadence_step ([], []) (zip chord_events (tail chord_events)).

(** [find_cadences] from the parsed timeline on; the text parsing of
    [parse_harmonic_output] is embedded in [Text] below. *)
Definition find_cadences (timeline : list sample) : list Z * list Z :=
  scan_cadences (get_chord_events timeline).

(** Expansion of a run-length encoded timeline back to one label per
    subdivision: each event stands for [duration] copies of its label. *)
Definition expand_events (events : list chord_event) : list string :=
  concat ((λ e, replicate (Z.to_nat (duration e)) (ev_function e)) <$> events).

(** A timeline sampled at consecutive subdivision ticks. *)
Fixpoint consecutive_from (t : Z) (timeline : list sample) : Prop :=
  match timeline with
  | [] => True
  | s :: rest => tick s = t ∧ consecutive_from (t + 1) rest
  end.

Definition consecutive (timeline : list sample) : Prop :=
  match timeline with
  | [] => True
  | s :: _ => consecutive_from (tick s) timeline
  end.

End Cadence.

(** ** Window Extractor
    [cut_midi_at_16th] of [adisi_main.py] *)

Module Cutter.
Import Mido.

(** [active_notes]: a dict from [(channel, note)] to velocity, kept in
    insertion order, which is the order [.items()] yields. *)
Definition active_dict : Type := list ((Z * Z) * Z).

(** [d[key] = v]: an existing key keeps its position. *)
Fixpoint dict_set (key : Z * Z) (v : Z) (d : active_dict) : active_dict :=
  match d with
  | [] => [(key, v)]
  | (k, v') :: rest =>
      if bool_decide (k = key) then (k, v) :: rest else (k, v') :: dict_set key v rest
  end.

(** [if key in d: del d[key]] *)
Definition dict_del (key : Z * Z) (d : active_dict) : active_dict :=
  filter (λ kv, kv.1 ≠ key) d.

(** [msg.type == 'note_on' and msg.velocity > 0] *)
Definition is_on (msg : Message) : bool :=
  match msg with
  | NoteOn _ _ v _ => 0 <? v
  | _ => false
  end.

(** [(msg.type == 'note_on' and msg.velocity == 0) or msg.type == 'note_off'] *)
Definition is_off (msg : Message) : bool :=
  match msg with
  | NoteOn _ _ v _ => v =? 0
  | NoteOff _ _ _ _ => true
  | Other _ _ => false
  end.

Definition msg_key (msg : Message) : Z * Z :=
  match msg with
  | NoteOn c n _ _ | NoteOff c n _ _ => (c, n)
  | Other _ _ => (0, 0)
  end.

Definition msg_velocity (msg : Message) : Z :=
  match msg with
  | NoteOn _ _ v _ | NoteOff _ _ v _ => v
  | Other _ _ => 0
  end.

(** Tracker update of case 1 (message before the cut). *)
Definition track_active (msg : Message) (active_notes : active_dict) : active_dict :=
  if is_on msg then dict_set (msg_key msg) (msg_velocity msg) active_notes
  else if is_off msg then dict_del (msg_key msg) active_notes
  else active_notes.

(** Tracker update of case 2 (message kept on the cut). *)
Definition close_active (msg : Message) (active_notes : active_dict) : active_dict :=
  if is_off msg then dict_del (msg_key msg) active_notes else active_notes.

(** The note-offs of case 3, one per entry of [active_notes]. *)
Fixpoint force_close (remaining_delta : Z) (first : bool) (active_notes : active_dict)
    : MidiTrack :=
  match active_notes with
  | [] => []
  | ((channel, note), velocity) :: rest =>
      let delta := if first then remaining_delta else 0 in
      NoteOff channel note 0 delta :: force_close remaining_delta false rest
  end.

(** Loop state: [(new_track, current_time, active_notes)]. *)
Record cut_state : Type := mkCutState {
  new_track : MidiTrack;
  current_time : Z;
  active_notes : active_dict
}.

Definition cut_init : cut_state := mkCutState [] 0 [].

(** The loop over the messages of one track; case 3 [break]s. *)
Fixpoint cut_loop (cut_threshold_ticks : Z) (track : MidiTrack) (st : cut_state) : cut_state :=
  match track with
  | [] => st
  | msg :: rest =>
      let current_time := current_time st + time msg in
      if current_time <? cut_threshold_ticks then
        cut_loop cut_threshold_ticks rest
          (mkCutState (new_track st ++ [msg]) current_time (track_active msg (active_notes st)))
      else if current_time =? cut_threshold_ticks then
        if is_on msg then
          cut_loop cut_threshold_ticks rest
            (mkCutState (new_track st) current_time (active_notes st))
        else
          cut_loop cut_threshold_ticks rest
            (mkCutState (new_track st ++ [msg]) current_time (close_active msg (active_notes st)))
      else
        let remaining_delta := cut_threshold_ticks - (current_time - time msg) in
        mkCutState (new_track st ++ force_close remaining_delta true (active_notes st))
                   current_time (active_notes st)
  end.

Definition end_of_track : Message := Other "end_of_track" 0.

(** One iteration of the loop over [mid.tracks]: the track appended to [new_mid]. *)
Definition cut_track (cut_threshold_ticks : Z) (track : MidiTrack) : MidiTrack :=
  new_track (cut_loop cut_threshold_ticks track cut_init) ++ [end_of_track].

Definition cut_threshold (mid : MidiFile) (cut_16th_index : Z) : Z :=
  Py.int (inject_Z cut_16th_index * (inject_Z (ticks_per_beat mid) / 4))%Q.

(** [cut_midi_at_16th]: the file saved to [output_path]. *)
Definition cut_midi_at_16th (mid : MidiFile) (cut_16th_index : Z) : MidiFile :=
  mkMidiFile (ticks_per_beat mid) (cut_track (cut_threshold mid cut_16th_index) <$> tracks mid).

(** Messages of a track paired with their absolute ticks. *)
Definition timed (track : MidiTrack) : list (Z * Message) :=
  zip (abs_times 0 track) track.

(** Whether the loop reaches case 3: some message lies after the cut. *)
Fixpoint crosses (cut_threshold_ticks : Z) (track : MidiTrack) (current_time : Z) : bool :=
  match track with
  | [] => false
  | msg :: rest =>
      (cut_threshold_ticks <? current_time + time msg) ||
      crosses cut_threshold_ticks rest (current_time + time msg)
  end.

(** Delta time carried by the note-ons that case 2 leaves out of the
    new track. *)
Fixpoint dropped_time (cut_threshold_ticks : Z) (track : MidiTrack) (current_time : Z) : Z :=
  match track with
  | [] => 0
  | msg :: rest =>
      let current_time := current_time + time msg in
      if current_time <? cut_threshold_ticks then
        dropped_time cut_threshold_ticks rest current_time
      else if current_time =? cut_threshold_ticks then
        (if is_on msg then time msg else 0) + dropped_time cut_threshold_ticks rest current_time
      else 0
  end.

End Cutter.

(** ** Harmonic analysis report
    [save_harmonic_analysis] of [adisi_main.py] *)

Module Report.
Import Mido.

Inductive file_kind : Type := MIDI | MusicXML | unknown.

(** [key.mode] of the key found by music21. *)
Inductive mode : Type := major | minor.

(** What one [f.write] puts in the report. *)
Inductive line : Type :=
  | File_line
  | Type_line
  | Key_line
  | Rule_line
  | Columns_line
  | Row (tick : Z) (chord_name func : string).

(** Effects on [output_filename], in the order they happen. *)
Inductive fs_op : Type :=
  | fs_open
  | fs_write (l : line)
  | fs_remove.

#[global] Instance line_eq_dec : EqDecision line.
Proof. solve_decision. Defined.
#[global] Instance fs_op_eq_dec : EqDecision fs_op.
Proof. solve_decision. Defined.

(** What the function reads from [input_path]. *)
Record analysis_input : Type := mkInput {
  file_type : file_kind;
  key_mode : mode;
  (** the file as mido reads it (MIDI path) *)
  mid : MidiFile;
  (** the chord elements of the chordified score, as pitch lists (other path) *)
  chords_stream : list (list Z);
  (** [int(round(score.duration.quarterLength * 4))] *)
  score_16ths : Z;
  (** the chord element still sounding at a tick, if any:
      [getElementAtOrBefore] followed by the [chord_end] test *)
  element_at : Z → option (list Z)
}.

Section Analysis.
(** music21: [chord.Chord(pitches).pitchedCommonName] and
    [roman.romanNumeralFromChord(c, key).figure]. *)
Variable pitchedCommonName : list Z → string.
Variable figure : list Z → string.

(** [(chord_name, func)] of the MIDI path at one tick; [None] stands
    for the IndexError of [sounding_notes[tick]]. *)
Definition midi_chord (sounding_notes : list (list Z)) (tick : Z) : option (string * string) :=
  match sounding_notes !! Z.to_nat tick with
  | None => None
  | Some midi_notes =>
      match midi_notes with
      | [] => Some ("Rest", "-")
      | _ => Some (pitchedCommonName midi_notes, figure midi_notes)
      end
  end.

(** [(chord_name, func)] of the other path at one tick. *)
Definition xml_chord (inp : analysis_input) (tick : Z) : option (string * string) :=
  match element_at inp tick with
  | Some element => Some (pitchedCommonName element, figure element)
  | None => Some ("Rest", "-")
  end.

(** The loop over [range(total_16ths)] inside [with open(...)].  The
    first component is the value returned: [None] for a bare
    [return], for falling off the end, and for an exception caught by
    the handler. *)
Fixpoint write_rows (chord_at : Z → option (string * string)) (ticks : list Z)
    (trace : list fs_op) : option bool * list fs_op :=
  match ticks with
  | [] => (None, trace)
  | tick :: rest =>
      match chord_at tick with
      | None => (None, trace)
      | Some (chord_name, func) =>
          if String.eqb chord_name "Rest" then (None, trace ++ [fs_remove])
          else write_rows chord_at rest (trace ++ [fs_write (Row tick chord_name func)])
      end
  end.

Definition header : list fs_op :=
  [fs_open; fs_write File_line; fs_write Type_line; fs_write Key_line;
   fs_write Rule_line; fs_write Columns_line; fs_write Rule_line].

Definition too_thin (notes : list Z) : bool := (length notes <? 3)%nat.

(** [save_harmonic_analysis]: the value returned and the effects on
    the output file.  Exceptions raised by music21 itself are not
    modelled; the ZeroDivisionError of the sampler is. *)
Definition save_harmonic_analysis (inp : analysis_input) : option bool * list fs_op :=
  match key_mode inp with
  | minor => (Some false, [])
  | major =>
      match file_type inp with
      | MIDI =>
          match Sampler._get_sounding_notes_per_16th (mid inp) with
          | None => (None, [])
          | Some (sounding_notes, total_16ths) =>
              if existsb too_thin sounding_notes then (Some false, [])
              else write_rows (midi_chord sounding_notes) (Py.range total_16ths) header
          end
      | _ =>
          if existsb too_thin (chords_stream inp) then (Some false, [])
          else write_rows (xml_chord inp) (Py.range (score_16ths inp)) header
      end
  end.

(** The file passed validation: the report was opened for writing. *)
Definition accepted (inp : analysis_input) : Prop :=
  fs_open ∈ (save_harmonic_analysis inp).2.
End Analysis.

End Report.

(** ** Reference semantics of the sampler *)

Module Replay.
Import Mido Sampler.

(** Applying every event of a list, in order, to the empty set. *)
Definition replay (events : list event) : gset Z := foldl apply_event ∅ events.

(** [target_tick] of subdivision [tick_16th]. *)
Definition target_tick (mid : MidiFile) (tick_16th : Z) : Z :=
  Py.int (inject_Z tick_16th * ticks_per_16th mid)%Q.

(** The events at or before a tick. *)
Definition up_to (t : Z) (events : list event) : list event :=
  filter (λ e, tick e ≤ t) events.

(** The most recent event of pitch [n], if there is one. *)
Definition last_of (n : Z) (events : list event) : option event :=
  last (filter (λ e, note e = n) events).

(** A message that is neither a note-on nor a note-off. *)
Definition is_other (msg : Message) : Prop :=
  match msg with
  | Other _ _ => True
  | _ => False
  end.

End Replay.

(** ** Shape of the compressed timeline *)

Module Runs.
Import Cadence.

#[global] Instance strength_eq_dec : EqDecision strength.
Proof. solve_decision. Defined.

(** No two neighbours of a list of labels are equal. *)
Fixpoint no_repeat (l : list string) : Prop :=
  match l with
  | [] => True
  | x :: rest =>
      match rest with
      | [] => True
      | y :: _ => x ≠ y
      end ∧ no_repeat rest
  end.

(** [events] are back-to-back runs, each at least one subdivision long,
    covering the ticks from [t] up to, not including, [t']. *)
Fixpoint tiles (t : Z) (events : list chord_event) (t' : Z) : Prop :=
  match events with
  | [] => t = t'
  | e :: rest => start_tick e = t ∧ 1 ≤ duration e ∧ tiles (t + duration e) rest t'
  end.

(** The pairs the scan of [find_cadences] looks at. *)
Definition pairs (chord_events : list chord_event) : list (chord_event * chord_event) :=
  zip chord_events (tail chord_events).

(** Start ticks of the second runs of the pairs classified [s], in order. *)
Definition ticks_of (s : strength) (prs : list (chord_event * chord_event)) : list Z :=
  (λ p, start_tick p.2) <$> filter (λ p, classify_pair p.1 p.2 = Some s) prs.

End Runs.

(** ** The note tracker of the cut, run on its own *)

Module Tracker.
Import Mido Cutter.

(** The tracker of case 1 applied to every message of a track, from an
    empty dict: the notes a player of the track would still hold at its
    end. *)
Definition held_notes (track : MidiTrack) : active_dict :=
  foldl (λ active msg, track_active msg active) [] track.

(** Messages paired with their absolute ticks, the clock starting at [start]. *)
Definition timed_from (start : Z) (track : MidiTrack) : list (Z * Message) :=
  zip (abs_times start track) track.

(** What the loop copies when it never reaches case 3: everything but
    the note-ons that fall on the cut. *)
Definition copied (cut_threshold_ticks : Z) (p : Z * Message) : Prop :=
  p.1 < cut_threshold_ticks ∨ is_on p.2 = false.

End Tracker.

(** ** What a finished report holds *)

Module ReportShape.
Import Report.

(** A data row whose chord name is not "Rest". *)
Definition named_row (op : fs_op) : Prop :=
  match op with
  | fs_write (Row _ chord_name _) => chord_name ≠ "Rest"
  | _ => False
  end.

(** The rows of a complete MIDI report: one per subdivision, numbered
    from 0, naming the chord of the notes sounding there. *)
Definition midi_rows (pitchedCommonName figure : list Z → string)
    (first_tick : Z) (sounding_notes : list (list Z)) : list fs_op :=
  imap (λ i midi_notes,
          fs_write (Row (first_tick + Z.of_nat i) (pitchedCommonName midi_notes)
                        (figure midi_notes)))
       sounding_notes.

End ReportShape.

(** ** Triads and transposition, to state what the classifier recognises *)

Module Triads.
Import Chords.

Inductive triad : Type := Major | Minor | Diminished.

(** Semitones from the root to the third and to the fifth. *)
Definition third (q : triad) : Z :=
  match q with Major => 4 | Minor | Diminished => 3 end.

Definition fifth (q : triad) : Z :=
  match q with Major | Minor => 7 | Diminished => 6 end.

(** What the classifier appends to the root name for a plain triad. *)
Definition suffix (q : triad) : string :=
  match q with Major => "" | Minor => "m" | Diminished => "dim" end.

(** The three pitch classes of the triad of quality [q] on root [r]. *)
Definition triad_classes (q : triad) (r : Z) : gset Z :=
  {[ r; (r + third q) mod 12; (r + fifth q) mod 12 ]}.

(** Every note moved by [k] octaves. *)
Definition transpose_octaves (k : Z) (notes : gset Z) : gset Z :=
  set_map (λ n, n + 12 * k) notes.

End Triads.

(** ** The two report writers of [get_chords_per_16th.py] *)

Module ChordReports.
Import Chords.

(** [range(start, stop, step)] for a positive [step]. *)
Definition range_step (start stop step : Z) : list Z :=
  (λ k, start + k * step) <$> seqZ 0 ((stop - start + step - 1) / step).

(** [l[i:j]] for indices that are not negative. *)
Definition slice {A : Type} (l : list A) (i j : Z) : list A :=
  take (Z.to_nat (j - i)) (drop (Z.to_nat i) l).

(** [bars] of [get_chords_per_16th_by_bar], the value it returns. *)
Definition bars_of {A : Type} (chords : list A) : list (list A) :=
  (λ i, slice chords i (i + 16)) <$> range_step 0 (Z.of_nat (length chords)) 16.

(** What one [f.write] of either writer puts in the output file. *)
Inductive out_line : Type :=
  | Numbered (index : Z) (label : string)     (* "{i+1}: {c or 'rest'}" *)
  | Bar_heading (bar : Z)                     (* "Bar {i+1}:" *)
  | In_bar (index : Z) (label : string).      (* "  16th {j+1}: {c or 'rest'}" *)

(** [enumerate(l)] *)
Definition enumerate {A : Type} (l : list A) : list (Z * A) :=
  imap (λ i x, (Z.of_nat i, x)) l.

Section Writers.
Context {num : Type} {arithmetic : Arithmetic num}.
Variable tick_to_ms : Z → num.

(** [get_chords_per_16th]: the lines written and the list returned;
    [None] when [_extract_chords] raises. *)
Definition get_chords_per_16th (md : MidiDict) (tempo : option num)
    : option (list out_line * list (option string)) :=
  match _extract_chords tick_to_ms md tempo with
  | None => None
  | Some chords =>
      Some ((λ p, Numbered (p.1 + 1) (or_rest p.2)) <$> enumerate chords, chords)
  end.

(** [get_chords_per_16th_by_bar] *)
Definition get_chords_per_16th_by_bar (md : MidiDict) (tempo : option num)
    : option (list out_line * list (list (option string))) :=
  match _extract_chords tick_to_ms md tempo with
  | None => None
  | Some chords =>
      let bars := bars_of chords in
      Some (concat ((λ p, Bar_heading (p.1 + 1) ::
                          ((λ q, In_bar (q.1 + 1) (or_rest q.2)) <$> enumerate p.2))
                    <$> enumerate bars),
            bars)
  end.
End Writers.

End ChordReports.

(** ** Seventh chords and slash notation *)

Module Sevenths.
Import Chords.

(** The four pitch classes of the dominant seventh chord on root [r]. *)
Definition dominant_seventh (r : Z) : gset Z :=
  {[ r; (r + 4) mod 12; (r + 7) mod 12; (r + 10) mod 12 ]}.

(** A chord name with the bass appended when it is not the root. *)
Definition slash (base : string) (root bass_pc : Z) : string :=
  if bool_decide (bass_pc ≠ root) then base +:+ "/" +:+ NOTES_at bass_pc else base.

(** The first character of a string, if it has one. *)
Definition first_char (s : string) : option ascii :=
  match s with
  | String c _ => Some c
  | EmptyString => None
  end.

End Sevenths.

(** ** Reading the output of the two writers *)

Module Printed.
Import ChordReports.

(** The labels of the numbered lines, in the order they were written. *)
Definition printed_labels (lines : list out_line) : list string :=
  omap (λ l, match l with
             | Numbered _ label | In_bar _ label => Some label
             | Bar_heading _ => None
             end) lines.

(** The bar numbers of the headings, in the order they were written. *)
Definition headings (lines : list out_line) : list Z :=
  omap (λ l, match l with
             | Bar_heading bar => Some bar
             | _ => None
             end) lines.

(** The numbers the flat writer puts before its labels, in order. *)
Definition numbers (lines : list out_line) : list Z :=
  omap (λ l, match l with
             | Numbered index _ => Some index
             | _ => None
             end) lines.

(** Where the by-bar writer puts its labels: for every [In_bar] line,
    the number of the heading it stands under and its own number;
    [bar] is the heading in force where [lines] start. *)
Fixpoint located (bar : Z) (lines : list out_line) : list (Z * Z) :=
  match lines with
  | [] => []
  | Bar_heading b :: rest => located b rest
  | In_bar index _ :: rest => (bar, index) :: located bar rest
  | Numbered _ _ :: rest => located bar rest
  end.

End Printed.

(** ** The text of a report and [parse_harmonic_output]

    Python strings are modelled as lists of characters; the model is
    that of ASCII text. *)

Module Text.
Import Report.

Definition text : Type := list ascii.

Definition newline : ascii := "010"%char.
Definition vbar : ascii := "|"%char.
Definition space : ascii := " "%char.

(** [c.isspace()]: tab, line feed, vertical tab, form feed, carriage
    return, the four separators 28 to 31, and the blank. *)
Definition isspace (c : ascii) : bool :=
  let n := nat_of_ascii c in
  ((9 <=? n) && (n <=? 13) || (28 <=? n) && (n <=? 32))%nat.

Definition is_digit (c : ascii) : bool :=
  let n := nat_of_ascii c in ((48 <=? n) && (n <=? 57))%nat.

(** [s.lstrip()], [s.rstrip()] and [s.strip()] *)
Fixpoint lstrip (s : text) : text :=
  match s with
  | [] => []
  | c :: s' => if isspace c then lstrip s' else s
  end.

Definition rstrip (s : text) : text := reverse (lstrip (reverse s)).

Definition strip (s : text) : text := rstrip (lstrip s).

(** [s.split(sep)] for a one-character separator: never an empty list. *)
Fixpoint split (sep : ascii) (s : text) : list text :=
  match s with
  | [] => [[]]
  | c :: s' =>
      if Ascii.eqb c sep then [] :: split sep s'
      else
        match split sep s' with
        | part :: parts => (c :: part) :: parts
        | [] => [[c]]
        end
  end.

(** [s.isdigit()] *)
Definition isdigit (s : text) : bool :=
  match s with
  | [] => false
  | _ => forallb is_digit s
  end.

(** [int(s)] for a string of decimal digits. *)
Definition int (s : text) : Z :=
  foldl (λ acc c, 10 * acc + (Z.of_nat (nat_of_ascii c) - 48)) 0 s.

Fixpoint digits (d : Decimal.uint) : text :=
  match d with
  | Decimal.Nil => []
  | Decimal.D0 d => "0"%char :: digits d
  | Decimal.D1 d => "1"%char :: digits d
  | Decimal.D2 d => "2"%char :: digits d
  | Decimal.D3 d => "3"%char :: digits d
  | Decimal.D4 d => "4"%char :: digits d
  | Decimal.D5 d => "5"%char :: digits d
  | Decimal.D6 d => "6"%char :: digits d
  | Decimal.D7 d => "7"%char :: digits d
  | Decimal.D8 d => "8"%char :: digits d
  | Decimal.D9 d => "9"%char :: digits d
  end.

(** [str(n)], as a format field prints an int. *)
Definition str (n : Z) : text :=
  if n <? 0 then "-"%char :: digits (N.to_uint (Z.to_N (- n)))
  else digits (N.to_uint (Z.to_N n)).

(** The format specification [:<w]: pad with blanks on the right. *)
Definition ljust (w : nat) (s : text) : text := s ++ replicate (w - length s) space.

Definition of_string (s : string) : text := list_ascii_of_string s.

(** [f"{tick:<6} | {chord_name:<30} | {func}\n"] *)
Definition render_row (tick : Z) (chord_name func : text) : text :=
  ljust 6 (str tick) ++ of_string " | " ++ ljust 30 chord_name ++ of_string " | " ++
  func ++ [newline].

(** What each [f.write] puts in the file.  [input_path], [file_type]
    and [key] are the three strings interpolated in the header. *)
Definition render_line (input_path file_type key : text) (l : line) : text :=
  match l with
  | File_line => of_string "File: " ++ input_path ++ [newline]
  | Type_line => of_string "Type: " ++ file_type ++ [newline]
  | Key_line => of_string "Key: " ++ key ++ [newline]
  | Rule_line => replicate 60 "-"%char ++ [newline]
  | Columns_line =>
      ljust 6 (of_string "Tick") ++ of_string " | " ++ ljust 30 (of_string "Chord Name") ++
      of_string " | " ++ of_string "Function" ++ [newline]
  | Row tick chord_name func => render_row tick (of_string chord_name) (of_string func)
  end.

(** The content of the report after the effects of [trace]. *)
Definition report_text (input_path file_type key : text) (trace : list fs_op) : text :=
  concat ((λ op, match op with
                 | fs_write l => render_line input_path file_type key l
                 | _ => []
                 end) <$> trace).

(** The body of the loop of [parse_harmonic_output]: what one line
    adds to the timeline. *)
Definition parse_line (line : text) : option Cadence.sample :=
  let parts := split vbar line in
  if (3 <=? length parts)%nat then
    let tick_str := strip (nth 0 parts []) in
    if isdigit tick_str then
      Some (Cadence.mkSample (int tick_str) (string_of_list_ascii (strip (nth 2 parts []))))
    else None
  else None.

Definition parse_harmonic_output (file_content : text) : list Cadence.sample :=
  omap parse_line (split newline (strip file_content)).

(** [find_cadences] as the source has it, from the text of a report. *)
Definition find_cadences (text_data : text) : list Z * list Z :=
  Cadence.find_cadences (parse_harmonic_output text_data).

End Text.

(** Rows that [parse_harmonic_output] can read back: a tick that is
    not negative, and names without a bar or a line feed. *)
Module Readable.
Import Report Text.

Definition plain (s : text) : Prop := (vbar ∉ s) ∧ (newline ∉ s).

Definition plain_row (op : fs_op) : Prop :=
  match op with
  | fs_write (Row tick chord_name func) =>
      0 ≤ tick ∧ plain (of_string chord_name) ∧ plain (of_string func)
  | _ => False
  end.

(** The line of a data row without its line feed; [g] is what follows
    the second bar. *)
Definition row_body (tick : Z) (chord_name g : text) : text :=
  (ljust 6 (str tick) ++ [space]) ++ vbar :: (space :: ljust 30 chord_name ++ [space]) ++
  vbar :: g.

(** A written line without its line feed. *)
Definition line_body (input_path file_type key : text) (l : line) : text :=
  match l with
  | File_line => of_string "File: " ++ input_path
  | Type_line => of_string "Type: " ++ file_type
  | Key_line => of_string "Key: " ++ key
  | Rule_line => replicate 60 "-"%char
  | Columns_line =>
      ljust 6 (of_string "Tick") ++ of_string " | " ++ ljust 30 (of_string "Chord Name") ++
      of_string " | " ++ of_string "Function"
  | Row tick chord_name func => row_body tick (of_string chord_name) (space :: of_string func)
  end.

(** The lines written by a trace, in order. *)
Definition written (trace : list fs_op) : list line :=
  omap (λ op, match op with fs_write l => Some l | _ => None end) trace.

(** The timeline entry a data row stands for. *)
Definition row_sample (op : fs_op) : option Cadence.sample :=
  match op with
  | fs_write (Row tick _ func) =>
      Some (Cadence.mkSample tick (string_of_list_ascii (strip (of_string func))))
  | _ => None
  end.

End Readable.

(** ** Concrete inputs used by the examples below *)

Module Inputs.
Import Mido.

(** One track, three overlapping notes, four ticks per beat. *)
Definition demo : MidiFile :=
  mkMidiFile 4 [ [NoteOn 0 60 64 0; NoteOn 0 64 64 0; NoteOff 0 60 0 2;
                  NoteOn 0 67 64 0; NoteOff 0 64 0 2; NoteOff 0 67 0 0] ].

(** One note, on at tick 0 and off at tick 20. *)
Definition held_note : MidiTrack := [NoteOn 0 60 64 0; NoteOff 0 60 64 20].

(** A note held across tick 10 while another one starts there. *)
Definition tied_over : MidiTrack :=
  [NoteOn 0 60 64 0; NoteOn 0 62 64 10; NoteOff 0 62 64 10; NoteOff 0 60 64 0].

(** A C major triad held for one beat, four ticks per beat. *)
Definition triad_file : MidiFile :=
  mkMidiFile 4 [ [NoteOn 0 60 64 0; NoteOn 0 64 64 0; NoteOn 0 67 64 0;
                  NoteOff 0 60 64 4; NoteOff 0 64 64 0; NoteOff 0 67 64 0] ].

Definition triad_input : Report.analysis_input :=
  Report.mkInput Report.MIDI Report.major triad_file [] 0 (λ _, None).

(** [demo] never has more than two notes sounding. *)
Definition thin_input : Report.analysis_input :=
  Report.mkInput Report.MIDI Report.major demo [] 0 (λ _, None).

(** Stand-ins for the two music21 functions. *)
Definition name_of (notes : list Z) : string := "C-major triad".
Definition figure_of (notes : list Z) : string := "I".

(** Two MidiDicts that differ by one note below the piano range. *)
Definition with_low_note : Chords.MidiDict :=
  Chords.mkMidiDict [Chords.mkNote 60 0 500; Chords.mkNote 10 0 500; Chords.mkNote 64 0 500;
                     Chords.mkNote 67 0 500] [].

Definition without_low_note : Chords.MidiDict :=
  Chords.mkMidiDict [Chords.mkNote 60 0 500; Chords.mkNote 64 0 500; Chords.mkNote 67 0 500] [].

(** The scenario of the specification: four subdivisions of V, then
    eight of I. *)
Definition scenario : list Cadence.sample :=
  (λ t, Cadence.mkSample t (if t <? 4 then "V" else "I")) <$> seqZ 0 12.

(** A file that holds meta messages only. *)
Definition meta_only : MidiFile :=
  mkMidiFile 480 [ [Other "set_tempo" 0; Other "end_of_track" 0] ].

(** A score that is not MIDI, silent from its second sixteenth on. *)
Definition silent_score : Report.analysis_input :=
  Report.mkInput Report.MusicXML Report.major demo [[60; 64; 67]] 2
    (λ t, if t =? 0 then Some [60; 64; 67] else None).

(** A C major triad in second inversion. *)
Definition six_four : gset Z := list_to_set [55; 60; 64].

(** Twenty labels, to be split in bars. *)
Definition twenty : list Z := seqZ 0 20.

(** An A dominant seventh chord in root position. *)
Definition seventh_on_a : gset Z := list_to_set [57; 61; 64; 67].

(** A file of two tracks, four ticks per beat. *)
Definition two_tracks : MidiFile := mkMidiFile 4 [tied_over; held_note].

(** The header fields and two data rows of a report. *)
Definition report_path : Text.text := Text.of_string "chorale_0001.mid".
Definition report_kind : Text.text := Text.of_string "MIDI".
Definition report_key : Text.text := Text.of_string "C major".

Definition two_rows : list Report.fs_op :=
  [Report.fs_write (Report.Row 0 "G-dominant seventh chord" "V7");
   Report.fs_write (Report.Row 1 "C-major triad" "I")].

(** A timeline with three dominant-tonic pairs: V for 2 then I for 8
    (Strong at 4), V7 for 2 then I6 for 7 (Regular at 16), V for 1
    then I (nothing at 24). *)
Definition three_cadences : list Cadence.sample :=
  imap (λ i f, Cadence.mkSample (Z.of_nat i) f)
    (["ii"; "ii"; "V"; "V"] ++ replicate 8 "I" ++ ["IV"; "IV"; "V7"; "V7"] ++
     replicate 7 "I6" ++ ["V"] ++ replicate 4 "I").

(** A note closed exactly on tick 10, followed by a later message. *)
Definition closed_on_cut : MidiTrack :=
  [NoteOn 0 60 64 0; NoteOff 0 60 64 10; Other "set_tempo" 5].

End Inputs.

(** * Properties *)

(** ** Facts about the Python built-ins *)

Module PyFacts.

Section Sorting.
Context {A : Type} (leb : A → A → bool).

Lemma insert_perm (x : A) (l : list A) : Py.insert leb x l ≡ₚ x :: l.
Proof.
  induction l as [|y l IH]; simpl; [done|].
  destruct (leb x y); [done|].
  rewrite IH. apply Permutation_swap.
Qed.

Lemma sorted_perm (l : list A) : Py.sorted leb l ≡ₚ l.
Proof.
  induction l as [|x l IH]; simpl; [done|].
  by rewrite insert_perm, IH.
Qed.

Lemma sorted_length (l : list A) : length (Py.sorted leb l) = length l.
Proof. by rewrite sorted_perm. Qed.

Lemma elem_of_sorted (x : A) (l : list A) : x ∈ Py.sorted leb l ↔ x ∈ l.
Proof. by rewrite sorted_perm. Qed.

Hypothesis leb_total : ∀ x y, leb x y = false → leb y x = true.
Hypothesis leb_trans : ∀ x y z, leb x y = true → leb y z = true → leb x z = true.

Lemma insert_sorted (x : A) (l : list A) :
  StronglySorted (Py.le leb) l → StronglySorted (Py.le leb) (Py.insert leb x l).
Proof.
  induction 1 as [|y l Hl IH Hy]; simpl.
  - repeat constructor.
  - destruct (leb x y) eqn:Hxy.
    + constructor; [by constructor|].
      constructor; [done|].
      eapply Forall_impl; [exact Hy|]. intros z Hz. by eapply leb_trans.
    + constructor; [done|].
      rewrite insert_perm. constructor; [|done]. by apply leb_total.
Qed.

Lemma sorted_sorted (l : list A) : StronglySorted (Py.le leb) (Py.sorted leb l).
Proof.
  induction l as [|x l IH]; simpl; [constructor|]. by apply insert_sorted.
Qed.
End Sorting.

(** In a sorted list the order of positions is the order of keys. *)
Lemma StronglySorted_lookup {A : Type} (R : A → A → Prop) (l : list A) (i j : nat) (x y : A) :
  StronglySorted R l → (i < j)%nat → l !! i = Some x → l !! j = Some y → R x y.
Proof.
  intros Hl. revert i j. induction Hl as [|z l Hl IH Hz]; intros i j Hij Hi Hj.
  - by rewrite lookup_nil in Hi.
  - destruct j as [|j]; [lia|]. destruct i as [|i]; simpl in *.
    + simplify_eq. rewrite Forall_forall in Hz. apply Hz.
      by eapply list_elem_of_lookup_2.
    + eapply (IH i j); [lia|done..].
Qed.

Lemma range_length (n : Z) : length (Py.range n) = Z.to_nat n.
Proof. unfold Py.range. by rewrite length_seqZ. Qed.

Lemma foldl_max_ge (l : list Z) (x : Z) : x ≤ foldl Z.max x l.
Proof.
  revert x. induction l as [|y l IH]; intros x; simpl; [lia|].
  etrans; [|apply IH]. lia.
Qed.

Lemma max_or_zero_nonneg (l : list Z) : Forall (λ x, 0 ≤ x) l → 0 ≤ Py.max_or_zero l.
Proof.
  destruct 1 as [|x l Hx _]; simpl; [lia|].
  etrans; [exact Hx|apply foldl_max_ge].
Qed.

Lemma round_nonneg (q : Q) : (0 <= q)%Q → 0 ≤ Py.round q.
Proof.
  intros Hq. unfold Py.round.
  assert (0 ≤ Qfloor q) as Hf.
  { change 0 with (Qfloor 0). by apply Qfloor_resp_le. }
  destruct (_ ?= _)%Q; [destruct (Z.even _)|..]; lia.
Qed.

End PyFacts.

(** ** EventStream Builder and Timeline Sampler *)

Module SamplerFacts.
Import Mido Sampler.

Lemma key_leb_total (e1 e2 : event) : key_leb e1 e2 = false → key_leb e2 e1 = true.
Proof.
  unfold key_leb. intros H.
  apply orb_false_iff in H as [H1 H2]. apply Z.ltb_ge in H1.
  destruct (decide (tick e1 = tick e2)) as [Heq|Hne].
  - rewrite Heq in *. rewrite Z.eqb_refl in *. simpl in H2.
    apply Z.leb_gt in H2. rewrite Z.ltb_irrefl. simpl. apply Z.leb_le. lia.
  - apply orb_true_iff. left. apply Z.ltb_lt. lia.
Qed.

Lemma key_leb_spec (e1 e2 : event) :
  key_leb e1 e2 = true ↔
  tick e1 < tick e2 ∨ (tick e1 = tick e2 ∧ rank (typ e1) ≤ rank (typ e2)).
Proof.
  unfold key_leb.
  rewrite orb_true_iff, andb_true_iff, Z.ltb_lt, Z.eqb_eq, Z.leb_le. done.
Qed.

Lemma key_leb_trans (e1 e2 e3 : event) :
  key_leb e1 e2 = true → key_leb e2 e3 = true → key_leb e1 e3 = true.
Proof. rewrite !key_leb_spec. lia. Qed.

Lemma build_events_sorted (mid : MidiFile) :
  StronglySorted (Py.le key_leb) (build_events mid).
Proof.
  apply PyFacts.sorted_sorted; [apply key_leb_total|apply key_leb_trans].
Qed.

(** Every tick collected from a well-formed track is at or after the
    time the track started from. *)
Lemma collect_track_ticks (start : Z) (track : MidiTrack) :
  well_formed_track track →
  Forall (λ e, start ≤ tick e) (collect_track start track).
Proof.
  intros Hwf. revert start. induction Hwf as [|msg track Hmsg _ IH]; intros start; simpl.
  - constructor.
  - specialize (IH (start + time msg)).
    assert (Forall (λ e, start ≤ tick e) (collect_track (start + time msg) track)) as IH'.
    { eapply Forall_impl; [exact IH|]. simpl. intros; lia. }
    destruct (classify msg (start + time msg)) as [e|] eqn:He; [|done].
    constructor; [|done].
    destruct msg; simpl in He; repeat case_match; simplify_eq; simpl in *; lia.
Qed.

Lemma build_events_ticks (mid : MidiFile) :
  Forall well_formed_track (tracks mid) →
  Forall (λ e, 0 ≤ tick e) (build_events mid).
Proof.
  intros Hwf. unfold build_events. rewrite PyFacts.sorted_perm. unfold collect.
  apply Forall_concat, Forall_fmap.
  eapply Forall_impl; [exact Hwf|]. intros track Htrack. simpl.
  by apply collect_track_ticks.
Qed.

Lemma last_tick_nonneg (mid : MidiFile) :
  Forall well_formed_track (tracks mid) → 0 ≤ last_tick (build_events mid).
Proof.
  intros Hwf. apply PyFacts.max_or_zero_nonneg, Forall_fmap.
  by apply build_events_ticks.
Qed.

Lemma sorted_notes_length (active : gset Z) : length (sorted_notes active) = size active.
Proof. unfold sorted_notes. by rewrite PyFacts.sorted_length. Qed.

Lemma sampler_inv (mid : MidiFile) (result : list (list Z)) (total_16ths : Z) :
  _get_sounding_notes_per_16th mid = Some (result, total_16ths) →
  ticks_per_beat mid ≠ 0 ∧
  total_16ths = Py.round (inject_Z (last_tick (build_events mid)) / ticks_per_16th mid)%Q ∧
  result = (λ tick_16th, sorted_notes (active_at mid tick_16th)) <$> Py.range total_16ths.
Proof.
  unfold _get_sounding_notes_per_16th.
  destruct (ticks_per_beat mid =? 0) eqn:Htpb; [done|].
  apply Z.eqb_neq in Htpb. intros [= <- <-]. done.
Qed.

Lemma sampler_length (mid : MidiFile) (result : list (list Z)) (total_16ths : Z) :
  _get_sounding_notes_per_16th mid = Some (result, total_16ths) →
  length result = Z.to_nat total_16ths.
Proof.
  intros Hrun. apply sampler_inv in Hrun as (_ & _ & ->).
  by rewrite length_fmap, PyFacts.range_length.
Qed.

(** [C5] In the merged, ordered event stream an Off never comes after
    an On of the same absolute tick, and a [note_on] message with
    velocity 0 is collected as an Off event, never as an On event. *)
Theorem off_before_on_at_equal_tick (mid : MidiFile) :
  (∀ (i j : nat) (e1 e2 : event),
     build_events mid !! i = Some e1 → build_events mid !! j = Some e2 →
     (i < j)%nat → tick e1 = tick e2 → ¬ (typ e1 = on ∧ typ e2 = off)) ∧
  (∀ (channel note time abs_time : Z),
     classify (NoteOn channel note 0 time) abs_time = Some (mkEvent off abs_time note)) ∧
  (∀ (msg : Message) (abs_time : Z) (e : event),
     classify msg abs_time = Some e → typ e = on →
     ∃ channel note velocity time, msg = NoteOn channel note velocity time ∧ 0 < velocity).
Proof.
  split; [|split].
  - intros i j e1 e2 Hi Hj Hij Htick [Hon Hoff].
    pose proof (PyFacts.StronglySorted_lookup _ _ _ _ _ _
                  (build_events_sorted mid) Hij Hi Hj) as Hle.
    apply key_leb_spec in Hle. rewrite Hon, Hoff in Hle. unfold rank in Hle.
    simpl in Hle. lia.
  - done.
  - intros msg abs_time e He Hon. destruct msg as [c n v t|c n v t|ty t]; simpl in He.
    + destruct (0 <? v) eqn:Hv.
      * apply Z.ltb_lt in Hv. eauto 10.
      * destruct (v =? 0); by simplify_eq.
    + by simplify_eq.
    + done.
Qed.

(** [C7] A duplicate On for a sounding pitch leaves the running active
    set unchanged, an Off for a pitch that is not active does nothing,
    and the sampler returns [round(last_tick / ticks_per_16th)]
    subdivisions. *)
Theorem sampler_active_set_and_count :
  (∀ (active : gset Z) (t n : Z),
     n ∈ active → apply_event active (mkEvent on t n) = active) ∧
  (∀ (active : gset Z) (t n : Z),
     n ∉ active → apply_event active (mkEvent off t n) = active) ∧
  (∀ (mid : MidiFile) (result : list (list Z)) (total_16ths : Z),
     _get_sounding_notes_per_16th mid = Some (result, total_16ths) →
     total_16ths = Py.round (inject_Z (last_tick (build_events mid)) / ticks_per_16th mid)%Q ∧
     length result = Z.to_nat total_16ths ∧
     (0 < ticks_per_beat mid → Forall well_formed_track (tracks mid) →
      Z.of_nat (length result) =
        Py.round (inject_Z (last_tick (build_events mid)) / ticks_per_16th mid)%Q)).
Proof.
  split; [|split].
  - intros active t n Hn. unfold apply_event. simpl.
    rewrite (comm_L (∪)). by apply subseteq_union_1_L, singleton_subseteq_l.
  - intros active t n Hn. unfold apply_event. simpl.
    by apply difference_disjoint_L, disjoint_singleton_r.
  - intros mid result total_16ths Hrun.
    pose proof (sampler_length _ _ _ Hrun) as Hlen.
    apply sampler_inv in Hrun as (Htpb & Htotal & _).
    split; [done|]. split; [done|].
    intros Hpos Hwf. rewrite Hlen, <- Htotal.
    apply Z2Nat.id. rewrite Htotal. apply PyFacts.round_nonneg.
    pose proof (last_tick_nonneg mid Hwf) as Hlast.
    unfold ticks_per_16th.
    apply Qle_shift_div_l.
    + unfold Qdiv, Qlt, inject_Z. simpl. lia.
    + rewrite Qmult_0_l. unfold Qle, inject_Z. simpl. lia.
Qed.

End SamplerFacts.

Module SamplerWitnesses.
Import Mido Sampler.

Lemma off_before_on_witness :
  ¬ (typ (mkEvent off 2 60) = on ∧ typ (mkEvent on 2 67) = off).
Proof.
  apply (proj1 (SamplerFacts.off_before_on_at_equal_tick Inputs.demo) 2%nat 3%nat);
    [reflexivity|reflexivity|lia|reflexivity].
Defined.

Lemma sampler_count_witness :
  apply_event {[60; 64]} (mkEvent on 0 60) = {[60; 64]} ∧
  apply_event {[60; 64]} (mkEvent off 0 67) = {[60; 64]} ∧
  Z.of_nat (length [[60; 64]; [60; 64]; [64; 67]; [64; 67]]) =
    Py.round (inject_Z (last_tick (build_events Inputs.demo)) / ticks_per_16th Inputs.demo)%Q.
Proof.
  destruct SamplerFacts.sampler_active_set_and_count as (Hadd & Hdiscard & Hcount).
  split; [|split].
  - apply Hadd. rewrite elem_of_union, !elem_of_singleton. lia.
  - apply Hdiscard. rewrite elem_of_union, !elem_of_singleton. lia.
  - destruct (Hcount Inputs.demo [[60; 64]; [60; 64]; [64; 67]; [64; 67]] 4) as (_ & _ & H).
    + vm_compute. reflexivity.
    + apply H; [simpl; lia|]. repeat constructor; simpl; lia.
Defined.

End SamplerWitnesses.

(** ** Chord Classifier *)

Module ChordFacts.
Import Chords.

Lemma size_list_to_set_le (l : list Z) : (size (list_to_set l : gset Z) ≤ length l)%nat.
Proof.
  induction l as [|x l IH].
  - reflexivity.
  - rewrite list_to_set_cons, size_union_alt, size_singleton. simpl.
    assert (size (list_to_set l ∖ {[x]} : gset Z) ≤ size (list_to_set l : gset Z))%nat
      by (by apply subseteq_size, subseteq_difference_l).
    lia.
Qed.

(** Reducing modulo 12 can only merge pitches. *)
Lemma pitch_classes_size (notes : gset Z) : (size (pitch_classes notes) ≤ size notes)%nat.
Proof.
  unfold pitch_classes, set_map. etrans; [apply size_list_to_set_le|].
  by rewrite length_fmap.
Qed.

Lemma or_rest_None : or_rest None = "rest".
Proof. reflexivity. Qed.

(** [C1] (as amended) A note set with more than four distinct pitch
    classes has more than four pitches, so the classifier returns no
    label at all, which the report writers print as "rest"; the empty
    set is treated the same way. *)
Theorem too_many_pitch_classes_is_rest (notes : gset Z) :
  (4 < size (pitch_classes notes))%nat ∨ notes = ∅ →
  _notes_to_chord notes = None ∧ or_rest (_notes_to_chord notes) = "rest".
Proof.
  intros H.
  assert (_notes_to_chord notes = None) as ->; [|done].
  unfold _notes_to_chord. destruct H as [H| ->].
  - pose proof (pitch_classes_size notes).
    assert ((4 <? size notes)%nat = true) as -> by (apply Nat.ltb_lt; lia).
    by rewrite orb_true_r.
  - by rewrite bool_decide_eq_true_2.
Qed.

(** The claim as the specification words it fails on five pitches of
    five different classes: the classifier answers [None], not the name
    of the bass pitch class. *)
Lemma five_pitch_classes_counterexample :
  let notes : gset Z := list_to_set [60; 62; 64; 65; 67] in
  ¬ ((4 < size (pitch_classes notes))%nat →
     ∃ lowest, Py.min notes = Some lowest ∧
               _notes_to_chord notes = Some (NOTES_at (lowest mod 12))).
Proof.
  intros notes H.
  destruct H as (lowest & _ & Hlabel); [vm_compute; lia|].
  vm_compute in Hlabel. discriminate.
Qed.

Lemma too_many_pitch_classes_witness :
  let notes : gset Z := list_to_set [60; 62; 64; 65; 67] in
  _notes_to_chord notes = None ∧ or_rest (_notes_to_chord notes) = "rest".
Proof.
  intros notes. apply (too_many_pitch_classes_is_rest notes).
  left. vm_compute. lia.
Defined.

(** The classifier examples of the specification. *)
Example major_triad : _notes_to_chord (list_to_set [60; 64; 67]) = Some "C".
Proof. vm_compute. reflexivity. Qed.

Example minor_triad : _notes_to_chord (list_to_set [60; 63; 67]) = Some "Cm".
Proof. vm_compute. reflexivity. Qed.

Example diminished_triad : _notes_to_chord (list_to_set [60; 63; 66]) = Some "Cdim".
Proof. vm_compute. reflexivity. Qed.

Example augmented_triad : _notes_to_chord (list_to_set [60; 64; 68]) = Some "Caug".
Proof. vm_compute. reflexivity. Qed.

Example sus2_chord : _notes_to_chord (list_to_set [60; 62; 67]) = Some "Csus2".
Proof. vm_compute. reflexivity. Qed.

Example slash_chord : _notes_to_chord (list_to_set [55; 60; 64]) = Some "C/G".
Proof. vm_compute. reflexivity. Qed.

Example unclassifiable_is_bass_name : _notes_to_chord (list_to_set [61; 72]) = Some "C#".
Proof. vm_compute. reflexivity. Qed.

Section ExtractFacts.
Context {num : Type} {arithmetic : Arithmetic num}.
Variable tick_to_ms : Z → num.

(** Notes outside the piano range are invisible to the sampling. *)
Lemma notes_at_filter (msgs : list note_msg) (t : num) :
  notes_at tick_to_ms msgs t = notes_at tick_to_ms (filter in_piano_range msgs) t.
Proof.
  unfold notes_at. f_equal. f_equal.
  induction msgs as [|msg msgs IH]; [done|].
  rewrite !filter_cons.
  destruct (in_piano_range msg) eqn:Hr, (sounding tick_to_ms t msg) eqn:Hs; simpl;
    rewrite ?filter_cons, ?Hr, ?Hs; simpl; by rewrite IH.
Qed.

Lemma notes_at_range (msgs : list note_msg) (t : num) (n : Z) :
  n ∈ notes_at tick_to_ms msgs t → 21 ≤ n ≤ 108.
Proof.
  unfold notes_at. rewrite elem_of_list_to_set, list_elem_of_fmap.
  intros (msg & -> & Hmsg). apply list_elem_of_filter in Hmsg as [Hmsg _].
  apply andb_prop_elim in Hmsg as [_ Hr]. unfold in_piano_range in Hr.
  apply andb_prop_elim in Hr as [H1 H2].
  apply Is_true_true in H1, H2. lia.
Qed.

(** What a successful run returns: one label per step, each computed
    from the notes sounding at that step. *)
Lemma extract_chords_inv (md : MidiDict) (tempo : option num) (chords : list (option string))
    (i : nat) (label : option string) :
  _extract_chords tick_to_ms md tempo = Some chords →
  chords !! i = Some label →
  ∃ tempo' step_ms, effective_tempo md tempo = Some tempo' ∧
    step_of tempo' = Some step_ms ∧
    label = _notes_to_chord
              (notes_at tick_to_ms (note_msgs md) (num_mul (of_int (Z.of_nat i)) step_ms)).
Proof.
  unfold _extract_chords. intros Hrun Hi.
  destruct (note_msgs md) as [|first others] eqn:Hmsgs.
  { simplify_eq. }
  destruct (effective_tempo md tempo) as [tempo'|]; [|done].
  destruct (step_of tempo') as [step_ms|] eqn:Hstep; [|done].
  destruct (num_div _ step_ms) as [steps|]; [|done].
  destruct (num_int steps) as [n|]; [|done]. simplify_eq.
  exists tempo', step_ms. split; [done|]. split; [done|].
  rewrite list_lookup_fmap in Hi. unfold Py.range in Hi.
  destruct (seqZ 0 _ !! i) as [k|] eqn:Hk; [|done].
  apply lookup_seqZ in Hk as [-> _]. simpl in Hi. by simplify_eq.
Qed.

(** [C10] Only notes with a pitch from 21 to 108 enter the note set
    sampled at a subdivision, and a note outside that range never
    changes the label of a subdivision: two inputs that differ only
    in such notes get the same label wherever both have one. *)
Theorem out_of_range_notes_do_not_affect_labels
    (md1 md2 : MidiDict) (tempo : option num) (chords1 chords2 : list (option string))
    (i : nat) (label1 label2 : option string) :
  filter in_piano_range (note_msgs md1) = filter in_piano_range (note_msgs md2) →
  tempo_msgs md1 = tempo_msgs md2 →
  _extract_chords tick_to_ms md1 tempo = Some chords1 →
  _extract_chords tick_to_ms md2 tempo = Some chords2 →
  chords1 !! i = Some label1 →
  chords2 !! i = Some label2 →
  label1 = label2 ∧
  ∃ t, label1 = _notes_to_chord (notes_at tick_to_ms (note_msgs md1) t) ∧
       notes_at tick_to_ms (note_msgs md1) t =
         notes_at tick_to_ms (filter in_piano_range (note_msgs md1)) t ∧
       ∀ n, n ∈ notes_at tick_to_ms (note_msgs md1) t → 21 ≤ n ≤ 108.
Proof.
  intros Hnotes Htempo Hrun1 Hrun2 Hi1 Hi2.
  destruct (extract_chords_inv _ _ _ _ _ Hrun1 Hi1) as (t1 & s1 & Ht1 & Hs1 & ->).
  destruct (extract_chords_inv _ _ _ _ _ Hrun2 Hi2) as (t2 & s2 & Ht2 & Hs2 & ->).
  assert (t1 = t2) as <-.
  { unfold effective_tempo in Ht1, Ht2. rewrite Htempo in Ht1. congruence. }
  assert (s1 = s2) as <- by congruence.
  split.
  - rewrite (notes_at_filter (note_msgs md1)), (notes_at_filter (note_msgs md2)).
    by rewrite Hnotes.
  - eexists. split; [done|]. split; [apply notes_at_filter|]. apply notes_at_range.
Qed.
End ExtractFacts.

End ChordFacts.

Module ChordWitnesses.
Import Chords.

Lemma out_of_range_witness :
  Some "C" = Some "C" ∧
  ∃ t, Some "C" = _notes_to_chord (notes_at inject_Z (note_msgs Inputs.with_low_note) t) ∧
       notes_at inject_Z (note_msgs Inputs.with_low_note) t =
         notes_at inject_Z (filter in_piano_range (note_msgs Inputs.with_low_note)) t ∧
       ∀ n, n ∈ notes_at inject_Z (note_msgs Inputs.with_low_note) t → 21 ≤ n ≤ 108.
Proof.
  eapply (ChordFacts.out_of_range_notes_do_not_affect_labels inject_Z
            Inputs.with_low_note Inputs.without_low_note (Some 120%Q) _ _ 0%nat).
  - reflexivity.
  - reflexivity.
  - vm_compute. reflexivity.
  - vm_compute. reflexivity.
  - reflexivity.
  - reflexivity.
Defined.

End ChordWitnesses.

(** ** Cadence Detector *)

Module CadenceFacts.
Import Cadence.

Lemma expand_events_app (l1 l2 : list chord_event) :
  expand_events (l1 ++ l2) = expand_events l1 ++ expand_events l2.
Proof. unfold expand_events. by rewrite fmap_app, concat_app. Qed.

Lemma expand_events_singleton (e : chord_event) :
  expand_events [e] = replicate (Z.to_nat (duration e)) (ev_function e).
Proof. unfold expand_events. simpl. by rewrite app_nil_r. Qed.

Lemma replicate_succ_end (n : Z) (x : string) :
  0 ≤ n → replicate (Z.to_nat (n + 1)) x = replicate (Z.to_nat n) x ++ [x].
Proof.
  intros Hn. rewrite Z2Nat.inj_add by lia. by rewrite replicate_add.
Qed.

(** Loop invariant of [get_chord_events]: the events closed so far,
    followed by the run still open, expand to the samples read so far. *)
Lemma compress_loop_expand (rest : list sample) (events : list chord_event)
    (current_func : string) (start t : Z) :
  consecutive_from t rest → start ≤ t →
  ∀ events' current_func' start',
    foldl compress_step (events, current_func, start) rest = (events', current_func', start') →
    expand_events events' ++
      replicate (Z.to_nat (t + Z.of_nat (length rest) - start')) current_func' =
    expand_events events ++ replicate (Z.to_nat (t - start)) current_func ++
      (function <$> rest).
Proof.
  revert events current_func start t.
  induction rest as [|s rest IH]; intros events current_func start t Hcons Hstart
    events' current_func' start' Hfold.
  - simpl in *. simplify_eq. rewrite app_nil_r. do 3 f_equal. lia.
  - destruct Hcons as [Htick Hcons]. simpl in Hfold.
    rewrite Htick in Hfold.
    replace (t + Z.of_nat (length (s :: rest))) with (t + 1 + Z.of_nat (length rest))
      by (simpl; lia).
    destruct (String.eqb (function s) current_func) eqn:Heq; simpl in Hfold.
    + apply String.eqb_eq in Heq.
      rewrite (IH events current_func start (t + 1) Hcons ltac:(lia) _ _ _ Hfold).
      replace (t + 1 - start) with ((t - start) + 1) by lia.
      rewrite replicate_succ_end by lia. rewrite fmap_cons, Heq.
      by rewrite <- !app_assoc.
    + rewrite (IH _ (function s) t (t + 1) Hcons ltac:(lia) _ _ _ Hfold).
      rewrite expand_events_app, expand_events_singleton. simpl.
      replace (t + 1 - t) with 1 by lia. simpl.
      by rewrite <- !app_assoc.
Qed.

Lemma consecutive_last (t : Z) (timeline : list sample) (d : sample) :
  consecutive_from t timeline → timeline ≠ [] →
  tick (List.last timeline d) = t + Z.of_nat (length timeline) - 1.
Proof.
  revert t. induction timeline as [|s rest IH]; intros t Hcons Hne; [done|].
  destruct Hcons as [Htick Hcons]. destruct rest as [|s' rest].
  - simpl. lia.
  - change (List.last (s :: s' :: rest) d) with (List.last (s' :: rest) d).
    rewrite (IH (t + 1)) by done. simpl length. lia.
Qed.

(** [C6] Compressing a timeline sampled at consecutive ticks and
    expanding every event into [duration] copies of its label gives
    back the labels of the timeline; the last event of a non-empty
    timeline lasts [last_tick - start_tick + 1]. *)
Theorem compress_expand_roundtrip (timeline : list sample) :
  consecutive timeline →
  expand_events (get_chord_events timeline) = function <$> timeline ∧
  (∀ first, head timeline = Some first →
     ∃ events final,
       get_chord_events timeline = events ++ [final] ∧
       duration final = tick (List.last timeline first) - start_tick final + 1).
Proof.
  intros Hcons. destruct timeline as [|first rest]; [by split|].
  unfold consecutive in Hcons. unfold get_chord_events.
  destruct (foldl compress_step ([], function first, tick first) (first :: rest))
    as [[events current_func] start] eqn:Hfold.
  split.
  - pose proof (compress_loop_expand (first :: rest) [] (function first) (tick first)
                  (tick first) Hcons ltac:(lia) _ _ _ Hfold) as Hinv.
    pose proof (consecutive_last _ _ first Hcons ltac:(done)) as Hlast.
    rewrite expand_events_app, expand_events_singleton.
    unfold duration, ev_function. rewrite Hlast.
    replace (tick first + Z.of_nat (length (first :: rest)) - 1 - start + 1)
      with (tick first + Z.of_nat (length (first :: rest)) - start) by lia.
    rewrite Hinv. rewrite Z.sub_diag. done.
  - intros first' [= <-]. eexists _, _. split; [done|]. done.
Qed.

(** Once the harmonic and the rhythmic test pass, only the two
    durations decide. *)
Lemma classify_pair_gated (prev curr : chord_event) :
  is_dominant (ev_function prev) = true →
  is_tonic (ev_function curr) = true →
  start_tick curr mod 4 = 0 →
  classify_pair prev curr =
    if duration prev <? 2 then None
    else if 8 <=? duration curr then Some Strong
    else if 2 <=? duration curr then Some Regular
    else None.
Proof.
  intros Hdom Hton Hbeat. unfold classify_pair, is_perfect_cadence.
  rewrite Hdom, Hton, Hbeat. simpl. by destruct (duration prev <? 2).
Qed.

Lemma scan_cadences_pair (prev curr : chord_event) :
  scan_cadences [prev; curr] =
    match classify_pair prev curr with
    | Some Strong => ([start_tick curr], [])
    | Some Regular => ([], [start_tick curr])
    | None => ([], [])
    end.
Proof. unfold scan_cadences. simpl. by destruct (classify_pair prev curr) as [[]|]. Qed.

(** The rule on a list of two runs. *)
Lemma two_run_rule (prev curr : chord_event) :
  is_dominant (ev_function prev) = true →
  is_tonic (ev_function curr) = true →
  start_tick curr mod 4 = 0 →
  (duration prev = 2 → duration curr = 8 →
     classify_pair prev curr = Some Strong ∧
     scan_cadences [prev; curr] = ([start_tick curr], [])) ∧
  (duration prev = 2 → 2 ≤ duration curr < 8 →
     classify_pair prev curr = Some Regular ∧
     scan_cadences [prev; curr] = ([], [start_tick curr])) ∧
  (duration prev = 1 →
     classify_pair prev curr = None ∧ scan_cadences [prev; curr] = ([], [])).
Proof.
  intros Hdom Hton Hbeat.
  rewrite scan_cadences_pair, (classify_pair_gated _ _ Hdom Hton Hbeat).
  split; [|split].
  - intros -> ->. done.
  - intros -> [H2 H8].
    assert ((8 <=? duration curr) = false) as -> by (apply Z.leb_gt; lia).
    assert ((2 <=? duration curr) = true) as -> by (apply Z.leb_le; lia).
    done.
  - intros ->. done.
Qed.

(** The same rule with the boundaries as inequalities. *)
Lemma cadence_rule_general (prev curr : chord_event) :
  is_dominant (ev_function prev) = true →
  is_tonic (ev_function curr) = true →
  start_tick curr mod 4 = 0 →
  (2 ≤ duration prev → 8 ≤ duration curr → classify_pair prev curr = Some Strong) ∧
  (2 ≤ duration prev → 2 ≤ duration curr < 8 → classify_pair prev curr = Some Regular) ∧
  (duration prev < 2 ∨ duration curr < 2 → classify_pair prev curr = None).
Proof.
  intros Hdom Hton Hbeat. rewrite (classify_pair_gated _ _ Hdom Hton Hbeat).
  split; [|split]; intros; repeat case_match;
    rewrite ?Z.ltb_lt, ?Z.ltb_ge, ?Z.leb_le, ?Z.leb_gt in *; try done; lia.
Qed.

(** The scenario of the specification: one Strong cadence at tick 4. *)
Example scenario_strong_cadence : find_cadences Inputs.scenario = ([4], []).
Proof. vm_compute. reflexivity. Qed.

Example scenario_events :
  get_chord_events Inputs.scenario = [mkChordEvent "V" 0 4; mkChordEvent "I" 4 8].
Proof. vm_compute. reflexivity. Qed.

End CadenceFacts.

Module CadenceWitnesses.
Import Cadence.

Lemma compress_expand_witness :
  expand_events (get_chord_events Inputs.scenario) = function <$> Inputs.scenario ∧
  (∀ first, head Inputs.scenario = Some first →
     ∃ events final,
       get_chord_events Inputs.scenario = events ++ [final] ∧
       duration final = tick (List.last Inputs.scenario first) - start_tick final + 1).
Proof.
  apply (CadenceFacts.compress_expand_roundtrip Inputs.scenario).
  vm_compute. repeat split.
Defined.

End CadenceWitnesses.

(** ** Window Extractor *)

Module CutterFacts.
Import Mido Cutter.

Lemma elapsed_app (l1 l2 : MidiTrack) : elapsed (l1 ++ l2) = elapsed l1 + elapsed l2.
Proof. unfold elapsed. induction l1 as [|msg l1 IH]; simpl; lia. Qed.

Lemma elapsed_nonneg (track : MidiTrack) : well_formed_track track → 0 ≤ elapsed track.
Proof. induction 1; simpl; [done|]. unfold elapsed in *. simpl. lia. Qed.

Lemma abs_times_bound (start cut : Z) (track : MidiTrack) :
  well_formed_track track → start + elapsed track ≤ cut →
  Forall (λ t, t ≤ cut) (abs_times start track).
Proof.
  intros Hwf. revert start. induction Hwf as [|msg track Hmsg Hwf IH]; intros start Hle.
  - constructor.
  - pose proof (elapsed_nonneg _ Hwf). unfold elapsed in *. simpl in *.
    constructor; [lia|]. apply IH. lia.
Qed.

(** As long as no message lies after the cut the loop does not break:
    it can be run in two pieces. *)
Lemma cut_loop_app (cut : Z) (l1 l2 : MidiTrack) (st : cut_state) :
  Forall (λ t, t ≤ cut) (abs_times (current_time st) l1) →
  cut_loop cut (l1 ++ l2) st = cut_loop cut l2 (cut_loop cut l1 st) ∧
  current_time (cut_loop cut l1 st) = current_time st + elapsed l1.
Proof.
  revert st. induction l1 as [|msg l1 IH]; intros st Hle.
  - simpl. unfold elapsed. simpl. split; [done|lia].
  - apply Forall_cons in Hle as [Hmsg Hle]. simpl.
    replace (elapsed (msg :: l1)) with (time msg + elapsed l1) by done.
    destruct (current_time st + time msg <? cut) eqn:Hlt.
    { destruct (IH (mkCutState (new_track st ++ [msg]) (current_time st + time msg)
                      (track_active msg (active_notes st))) Hle) as [-> ->].
      simpl. split; [done|lia]. }
    destruct (current_time st + time msg =? cut) eqn:Heq.
    { destruct (is_on msg).
      - destruct (IH (mkCutState (new_track st) (current_time st + time msg)
                        (active_notes st)) Hle) as [-> ->].
        simpl. split; [done|lia].
      - destruct (IH (mkCutState (new_track st ++ [msg]) (current_time st + time msg)
                        (close_active msg (active_notes st))) Hle) as [-> ->].
        simpl. split; [done|lia]. }
    apply Z.ltb_ge in Hlt. apply Z.eqb_neq in Heq. lia.
Qed.

(** The new track only grows. *)
Lemma cut_loop_prefix (cut : Z) (track : MidiTrack) (st : cut_state) :
  new_track st `prefix_of` new_track (cut_loop cut track st).
Proof.
  revert st. induction track as [|msg track IH]; intros st; simpl; [done|].
  destruct (_ <? _); [etrans; [|apply IH]; by apply prefix_app_r|].
  destruct (_ =? _); [|by apply prefix_app_r].
  destruct (is_on msg); (etrans; [|apply IH]); simpl; [done|by apply prefix_app_r].
Qed.

Lemma on_is_not_off (msg : Message) : is_on msg = true → is_off msg = false.
Proof.
  destruct msg as [c n v t|c n v t|name t]; simpl; try done.
  intros Hv. apply Z.ltb_lt in Hv. apply Z.eqb_neq. lia.
Qed.

(** What [if key in d: del d[key]] leaves in the dict. *)
Lemma dict_del_spec (key0 : Z * Z) (d : active_dict) (key : Z * Z) (velocity : Z) :
  (key, velocity) ∈ dict_del key0 d ↔ key ≠ key0 ∧ (key, velocity) ∈ d.
Proof. unfold dict_del. by rewrite list_elem_of_filter. Qed.

(** [C4] A message whose absolute tick is the cut tick is always
    reached by the loop and handled by its second case: a note-on is
    left out and changes nothing, anything else is copied, and an Off
    also leaves the tracker: after it the tracker holds no entry for
    its (channel, note) and every other entry it held before.  For a
    note on at tick 0 and off at tick 20, a cut at tick 10 ends the
    track with a synthesized Off at tick 10 and a cut at tick 20 keeps
    every message; a note closed exactly on the cut gets no
    synthesized Off when the loop later stops. *)
Theorem boundary_events_handled (cut : Z) (pre post : MidiTrack) (msg : Message) :
  well_formed_track (pre ++ [msg]) →
  elapsed (pre ++ [msg]) = cut →
  let st := cut_loop cut pre cut_init in
  let st' := cut_loop cut (pre ++ [msg]) cut_init in
  cut_loop cut (pre ++ msg :: post) cut_init =
    cut_loop cut post
      (if is_on msg then mkCutState (new_track st) cut (active_notes st)
       else mkCutState (new_track st ++ [msg]) cut
              (if is_off msg then dict_del (msg_key msg) (active_notes st)
               else active_notes st)) ∧
  (new_track st ++ (if is_on msg then [] else [msg]))
    `prefix_of` cut_track cut (pre ++ msg :: post) ∧
  cut_loop cut (pre ++ msg :: post) cut_init = cut_loop cut post st' ∧
  new_track st' = new_track st ++ (if is_on msg then [] else [msg]) ∧
  (is_off msg = true →
     (∀ velocity, (msg_key msg, velocity) ∉ active_notes st') ∧
     (∀ key velocity, key ≠ msg_key msg →
        (key, velocity) ∈ active_notes st' ↔ (key, velocity) ∈ active_notes st)) ∧
  (is_off msg = false → active_notes st' = active_notes st) ∧
  timed (cut_track 10 Inputs.held_note) =
    [(0, NoteOn 0 60 64 0); (10, NoteOff 0 60 0 10); (10, end_of_track)] ∧
  cut_track 20 Inputs.held_note = Inputs.held_note ++ [end_of_track] ∧
  cut_track 10 Inputs.closed_on_cut =
    [NoteOn 0 60 64 0; NoteOff 0 60 64 10; end_of_track].
Proof.
  intros Hwf Hcut st st'.
  apply Forall_app in Hwf as [Hpre Hmsg]. apply Forall_inv in Hmsg.
  rewrite elapsed_app in Hcut. unfold elapsed at 2 in Hcut. simpl in Hcut.
  assert (∀ post', cut_loop cut (pre ++ msg :: post') cut_init =
          cut_loop cut post'
            (if is_on msg then mkCutState (new_track st) cut (active_notes st)
             else mkCutState (new_track st ++ [msg]) cut
                    (if is_off msg then dict_del (msg_key msg) (active_notes st)
                     else active_notes st))) as Hloop.
  { intros post'.
    destruct (cut_loop_app cut pre (msg :: post') cut_init) as [Happ Htime].
    { apply abs_times_bound; [done|]. simpl. lia. }
    fold st in Happ, Htime. simpl in Htime.
    rewrite Happ. simpl.
    assert (current_time st + time msg = cut) as -> by lia.
    rewrite Z.ltb_irrefl, Z.eqb_refl. by destruct (is_on msg). }
  assert (st' = if is_on msg then mkCutState (new_track st) cut (active_notes st)
                else mkCutState (new_track st ++ [msg]) cut
                       (if is_off msg then dict_del (msg_key msg) (active_notes st)
                        else active_notes st)) as Hst'.
  { unfold st'. by rewrite (Hloop []). }
  split; [exact (Hloop post)|]. split.
  { unfold cut_track. rewrite (Hloop post). apply prefix_app_r.
    etrans; [|apply cut_loop_prefix]. by destruct (is_on msg); simpl; rewrite ?app_nil_r. }
  split; [by rewrite Hst'; apply Hloop|].
  split; [rewrite Hst'; by destruct (is_on msg); simpl; rewrite ?app_nil_r|].
  split.
  { intros Hoff. rewrite Hst'.
    destruct (is_on msg) eqn:Hon; [apply on_is_not_off in Hon; congruence|].
    rewrite Hoff. simpl. split.
    - intros velocity Hin. apply dict_del_spec in Hin as [Hne _]. done.
    - intros key velocity Hne. rewrite dict_del_spec. tauto. }
  split.
  { intros Hoff. rewrite Hst', Hoff. by destruct (is_on msg). }
  repeat split.
Qed.

Lemma force_close_elapsed (remaining_delta : Z) (active : active_dict) :
  active ≠ [] → elapsed (force_close remaining_delta true active) = remaining_delta.
Proof.
  destruct active as [|[[channel note] velocity] rest]; [done|]. intros _.
  unfold elapsed. simpl.
  assert (∀ l, foldr (λ msg acc, time msg + acc) 0 (force_close remaining_delta false l) = 0)
    as ->; [|lia].
  induction l as [|[[c n] v] l IH]; simpl; [done|]. by rewrite IH.
Qed.

(** Where the cut track ends: at the cut, minus the delta times of the
    note-ons left out on the way. *)
Lemma cut_loop_elapsed (cut : Z) (track : MidiTrack) (st : cut_state) :
  crosses cut track (current_time st) = true →
  active_notes (cut_loop cut track st) ≠ [] →
  elapsed (new_track (cut_loop cut track st)) =
    elapsed (new_track st) + (cut - current_time st)
    - dropped_time cut track (current_time st).
Proof.
  revert st. induction track as [|msg track IH]; intros st Hcross Hactive; [done|].
  simpl in *.
  destruct (current_time st + time msg <? cut) eqn:Hlt.
  { apply Z.ltb_lt in Hlt.
    assert ((cut <? current_time st + time msg) = false) as Hn by (apply Z.ltb_ge; lia).
    rewrite Hn in Hcross. simpl in Hcross.
    rewrite (IH (mkCutState _ (current_time st + time msg) _) Hcross Hactive). simpl. rewrite elapsed_app.
    unfold elapsed at 2. simpl. lia. }
  destruct (current_time st + time msg =? cut) eqn:Heq.
  { apply Z.eqb_eq in Heq.
    assert ((cut <? current_time st + time msg) = false) as Hn by (apply Z.ltb_ge; lia).
    rewrite Hn in Hcross. simpl in Hcross.
    destruct (is_on msg).
    - rewrite (IH (mkCutState _ (current_time st + time msg) _) Hcross Hactive). simpl. lia.
    - rewrite (IH (mkCutState _ (current_time st + time msg) _) Hcross Hactive). simpl. rewrite elapsed_app.
      unfold elapsed at 2. simpl. lia. }
  simpl in *. rewrite elapsed_app, force_close_elapsed by done. lia.
Qed.

(** When notes are still active at the first message after the cut,
    the cut track lasts exactly [cut_tick] provided no note-on with a
    non-zero delta time was left out on the cut. *)
Lemma cut_track_lands_on_cut (cut : Z) (track : MidiTrack) :
  crosses cut track 0 = true →
  active_notes (cut_loop cut track cut_init) ≠ [] →
  elapsed (cut_track cut track) = cut - dropped_time cut track 0.
Proof.
  intros Hcross Hactive. unfold cut_track. rewrite elapsed_app.
  rewrite (cut_loop_elapsed cut track cut_init Hcross Hactive).
  unfold elapsed. simpl. lia.
Qed.

(** [C2] On the track [Inputs.tied_over], cut at tick 10, a note is
    still active when the first message after the cut is reached; the
    Off written for it has velocity 0 and the residual delta time the
    loop computes, 0, so the new track lasts 0 ticks and not 10: the
    delta time of the note-on left out at the cut is lost. *)
Theorem forced_close_misses_cut_tick :
  cut_threshold (mkMidiFile 4 [Inputs.tied_over]) 10 = 10 ∧
  cut_midi_at_16th (mkMidiFile 4 [Inputs.tied_over]) 10 =
    mkMidiFile 4 [[NoteOn 0 60 64 0; NoteOff 0 60 0 0; end_of_track]] ∧
  cut_track 10 Inputs.tied_over = [NoteOn 0 60 64 0; NoteOff 0 60 0 0; end_of_track] ∧
  active_notes (cut_loop 10 Inputs.tied_over cut_init) = [((0, 60), 64)] ∧
  crosses 10 Inputs.tied_over 0 = true ∧
  elapsed (cut_track 10 Inputs.tied_over) = 0 ∧
  elapsed (cut_track 10 Inputs.tied_over) ≠ 10.
Proof. repeat split. done. Qed.

(** Without a note-on on the cut the same computation lands on it. *)
Example held_note_lands_on_cut : elapsed (cut_track 10 Inputs.held_note) = 10.
Proof.
  rewrite cut_track_lands_on_cut; [reflexivity|reflexivity|discriminate].
Qed.

End CutterFacts.

Module CutterWitnesses.
Import Mido Cutter.

Lemma boundary_events_witness :
  (let st := cut_loop 10 [NoteOn 0 60 64 0] cut_init in
   cut_loop 10 Inputs.tied_over cut_init =
     cut_loop 10 [NoteOff 0 62 64 10; NoteOff 0 60 64 0]
       (mkCutState (new_track st) 10 (active_notes st))) ∧
  (∀ velocity, ((0, 60), velocity) ∉ active_notes (cut_loop 20 Inputs.held_note cut_init)).
Proof.
  split.
  - intros st.
    exact (proj1 (CutterFacts.boundary_events_handled 10 [NoteOn 0 60 64 0]
                    [NoteOff 0 62 64 10; NoteOff 0 60 64 0] (NoteOn 0 62 64 10)
                    ltac:(repeat constructor; simpl; lia) ltac:(reflexivity))).
  - exact (proj1 (proj1 (proj2 (proj2 (proj2 (proj2
             (CutterFacts.boundary_events_handled 20 [NoteOn 0 60 64 0] []
                (NoteOff 0 60 64 20)
                ltac:(repeat constructor; simpl; lia) ltac:(reflexivity))))))
             eq_refl)).
Defined.

End CutterWitnesses.

(** ** Harmonic analysis report *)

Module ReportFacts.
Import Mido Report.

Lemma too_thin_exists (sounding_notes : list (list Z)) :
  existsb too_thin sounding_notes = true ↔
  ∃ notes, notes ∈ sounding_notes ∧ (length notes < 3)%nat.
Proof.
  rewrite existsb_exists. unfold too_thin. split.
  - intros (notes & Hin & Hlen). exists notes.
    rewrite list_elem_of_In. split; [done|]. by apply Nat.ltb_lt.
  - intros (notes & Hin & Hlen). exists notes.
    rewrite <- list_elem_of_In. split; [done|]. by apply Nat.ltb_lt.
Qed.

Lemma not_too_thin (sounding_notes : list (list Z)) :
  existsb too_thin sounding_notes = false →
  Forall (λ notes, (3 ≤ length notes)%nat) sounding_notes.
Proof.
  intros Hex. apply Forall_forall. intros notes Hin.
  destruct (decide (3 ≤ length notes)%nat) as [|Hlt]; [done|].
  assert (existsb too_thin sounding_notes = true) as Hcontra; [|congruence].
  apply too_thin_exists. exists notes. split; [done|lia].
Qed.

Section AnalysisFacts.
Variable pitchedCommonName : list Z → string.
Variable figure : list Z → string.

(** The report is only ever removed from inside the loop, and only at
  a tick whose chord name is "Rest". *)
Lemma write_rows_no_remove (chord_at : Z → option (string * string)) (ticks : list Z)
  (trace : list fs_op) :
(∀ tick name func, tick ∈ ticks → chord_at tick = Some (name, func) → name ≠ "Rest") →
fs_remove ∉ trace →
fs_remove ∉ (write_rows chord_at ticks trace).2.
Proof.
revert trace. induction ticks as [|tick ticks IH]; intros trace Hname Htrace; [done|].
simpl. destruct (chord_at tick) as [[name func]|] eqn:Hchord; [|done].
assert (name ≠ "Rest") as Hne by (eapply Hname; [left|done]).
apply String.eqb_neq in Hne. rewrite Hne.
apply IH.
- intros tick' name' func' Hin. apply Hname. by right.
- rewrite elem_of_app, list_elem_of_singleton. intros [?|?]; [done|discriminate].
Qed.

Lemma header_no_remove : fs_remove ∉ header.
Proof. unfold header. rewrite !elem_of_cons. intros H. by destruct_or!; [..|set_solver]. Qed.

(** [C8] On the MIDI path, a subdivision with fewer than 3 sounding
  pitches makes the function return [False] before the report is
  opened; hence in an accepted file every subdivision has an active
  note set of at least 3 members. *)
Theorem polyphony_gate (inp : analysis_input) (sounding_notes : list (list Z))
  (total_16ths : Z) :
file_type inp = MIDI →
Sampler._get_sounding_notes_per_16th (mid inp) = Some (sounding_notes, total_16ths) →
((∃ notes, notes ∈ sounding_notes ∧ (length notes < 3)%nat) →
   save_harmonic_analysis pitchedCommonName figure inp = (Some false, [])) ∧
(accepted pitchedCommonName figure inp →
   ∀ (i : nat) (notes : list Z),
     sounding_notes !! i = Some notes →
     (3 ≤ length notes)%nat ∧
     (3 ≤ size (Sampler.active_at (mid inp) (Z.of_nat i)))%nat).
Proof.
intros Htype Hrun. unfold accepted, save_harmonic_analysis.
rewrite Htype, Hrun. split.
- intros Hthin. apply too_thin_exists in Hthin. rewrite Hthin.
  by destruct (key_mode inp).
- intros Hopen i notes Hi.
  destruct (key_mode inp); [|by apply not_elem_of_nil in Hopen].
  destruct (existsb too_thin sounding_notes) eqn:Hex;
    [by apply not_elem_of_nil in Hopen|].
  apply not_too_thin in Hex.
  assert (3 ≤ length notes)%nat as Hlen.
  { rewrite Forall_forall in Hex. apply Hex. by eapply list_elem_of_lookup_2. }
  split; [done|].
  apply SamplerFacts.sampler_inv in Hrun as (_ & _ & ->).
  rewrite list_lookup_fmap in Hi. unfold Py.range in Hi.
  destruct (seqZ 0 total_16ths !! i) as [k|] eqn:Hk; [|done].
  apply lookup_seqZ in Hk as [-> _]. simpl in Hi. simplify_eq.
  by rewrite SamplerFacts.sorted_notes_length in Hlen.
Qed.

(** [C9] On the MIDI path, when every subdivision has at least 3
  sounding pitches, the chord name of every tick is the name music21
  gives to the chord, never the initial "Rest", so the branch that
  removes the report is not taken.  music21 is taken to name no
  non-empty chord "Rest". *)
Theorem rest_branch_unreachable (inp : analysis_input) (sounding_notes : list (list Z))
  (total_16ths : Z) :
(∀ notes, notes ≠ [] → pitchedCommonName notes ≠ "Rest") →
file_type inp = MIDI →
Sampler._get_sounding_notes_per_16th (mid inp) = Some (sounding_notes, total_16ths) →
Forall (λ notes, (3 ≤ length notes)%nat) sounding_notes →
(∀ tick, 0 ≤ tick < total_16ths →
   ∃ notes, sounding_notes !! Z.to_nat tick = Some notes ∧
     midi_chord pitchedCommonName figure sounding_notes tick =
       Some (pitchedCommonName notes, figure notes) ∧
     pitchedCommonName notes ≠ "Rest") ∧
fs_remove ∉ (save_harmonic_analysis pitchedCommonName figure inp).2.
Proof.
intros Hname Htype Hrun Hgate.
assert (∀ tick, 0 ≤ tick < total_16ths →
   ∃ notes, sounding_notes !! Z.to_nat tick = Some notes ∧
     midi_chord pitchedCommonName figure sounding_notes tick =
       Some (pitchedCommonName notes, figure notes) ∧
     pitchedCommonName notes ≠ "Rest") as Hticks.
{ intros tick Htick.
  pose proof (SamplerFacts.sampler_length _ _ _ Hrun) as Hlen.
  destruct (lookup_lt_is_Some_2 sounding_notes (Z.to_nat tick)) as [notes Hnotes]; [lia|].
  exists notes. split; [done|].
  assert (notes ≠ []) as Hne.
  { rewrite Forall_forall in Hgate.
    pose proof (Hgate notes (list_elem_of_lookup_2 _ _ _ Hnotes)) as H3.
    intros ->. simpl in H3. lia. }
  unfold midi_chord. rewrite Hnotes. split; [by destruct notes|by apply Hname]. }
split; [exact Hticks|].
unfold save_harmonic_analysis. rewrite Htype, Hrun.
destruct (key_mode inp); [|apply not_elem_of_nil].
destruct (existsb too_thin sounding_notes); [apply not_elem_of_nil|].
apply write_rows_no_remove; [|apply header_no_remove].
intros tick name func Hin Hchord. unfold Py.range in Hin.
apply elem_of_seqZ in Hin.
destruct (Hticks tick ltac:(lia)) as (notes & _ & Hchord' & Hne).
rewrite Hchord in Hchord'. by simplify_eq.
Qed.

End AnalysisFacts.

(** The claim without the restriction to MIDI files fails on
    [Inputs.silent_score], a MusicXML score of two subdivisions whose
    second one has no sounding pitch: the validation only looks at the
    chord elements, so the file is accepted, the report is opened, the
    header and the row of tick 0 are written, then the file is removed
    and the function returns [None], not [False]. *)
Lemma silent_subdivision_counterexample :
  let inp := Inputs.silent_score in
  let run := save_harmonic_analysis Inputs.name_of Inputs.figure_of inp in
  let pitches_at tick := default [] (element_at inp tick) in
  run = (None, header ++ [fs_write (Row 0 "C-major triad" "I"); fs_remove]) ∧
  ¬ ((∃ tick, 0 ≤ tick < score_16ths inp ∧ (length (pitches_at tick) < 3)%nat) →
     run = (Some false, [])) ∧
  ¬ (accepted Inputs.name_of Inputs.figure_of inp →
     ∀ tick, 0 ≤ tick < score_16ths inp → (3 ≤ length (pitches_at tick))%nat).
Proof.
  intros inp run pitches_at. split; [reflexivity|]. split.
  - intros H. assert (run = (Some false, [])) as Hrun; [|discriminate Hrun].
    apply H. exists 1. split; [by vm_compute|]. simpl. lia.
  - intros H. assert (3 ≤ length (pitches_at 1%Z))%nat as Hlen; [|simpl in Hlen; lia].
    apply H; [|by vm_compute]. unfold accepted. vm_compute. left.
Qed.

End ReportFacts.

Module ReportWitnesses.
Import Mido Report.

Lemma polyphony_gate_witness :
  save_harmonic_analysis Inputs.name_of Inputs.figure_of Inputs.thin_input = (Some false, []) ∧
  ∀ (i : nat) (notes : list Z),
    [[60; 64; 67]; [60; 64; 67]; [60; 64; 67]; [60; 64; 67]] !! i = Some notes →
    (3 ≤ length notes)%nat ∧
    (3 ≤ size (Sampler.active_at (mid Inputs.triad_input) (Z.of_nat i)))%nat.
Proof.
  split.
  - apply (proj1 (ReportFacts.polyphony_gate Inputs.name_of Inputs.figure_of
                    Inputs.thin_input [[60; 64]; [60; 64]; [64; 67]; [64; 67]] 4
                    eq_refl ltac:(vm_compute; reflexivity))).
    exists [60; 64]. split; [left|simpl; lia].
  - apply (proj2 (ReportFacts.polyphony_gate Inputs.name_of Inputs.figure_of
                    Inputs.triad_input _ 4
                    eq_refl ltac:(vm_compute; reflexivity))).
    unfold accepted. vm_compute. left.
Defined.

Lemma rest_branch_witness :
  (∀ tick, 0 ≤ tick < 4 →
     ∃ notes, [[60; 64; 67]; [60; 64; 67]; [60; 64; 67]; [60; 64; 67]] !! Z.to_nat tick
                = Some notes ∧
       midi_chord Inputs.name_of Inputs.figure_of
         [[60; 64; 67]; [60; 64; 67]; [60; 64; 67]; [60; 64; 67]] tick =
         Some (Inputs.name_of notes, Inputs.figure_of notes) ∧
       Inputs.name_of notes ≠ "Rest") ∧
  fs_remove ∉ (save_harmonic_analysis Inputs.name_of Inputs.figure_of Inputs.triad_input).2.
Proof.
  apply (ReportFacts.rest_branch_unreachable Inputs.name_of Inputs.figure_of
           Inputs.triad_input _ 4).
  - intros notes _. discriminate.
  - reflexivity.
  - vm_compute. reflexivity.
  - repeat constructor.
Defined.

Example triad_report :
  save_harmonic_analysis Inputs.name_of Inputs.figure_of Inputs.triad_input =
    (None, header ++ [fs_write (Row 0 "C-major triad" "I"); fs_write (Row 1 "C-major triad" "I");
                      fs_write (Row 2 "C-major triad" "I"); fs_write (Row 3 "C-major triad" "I")]).
Proof. vm_compute. reflexivity. Qed.

End ReportWitnesses.

(** * Further properties of the code *)

(** ** The sampler *)

Module SamplerMore.
Import Mido Sampler Replay.

Lemma Zleb_total (x y : Z) : Z.leb x y = false → Z.leb y x = true.
Proof. rewrite Z.leb_gt, Z.leb_le. lia. Qed.

Lemma Zleb_trans (x y z : Z) : Z.leb x y = true → Z.leb y z = true → Z.leb x z = true.
Proof. rewrite !Z.leb_le. lia. Qed.

Lemma key_le_tick (e1 e2 : event) : Py.le key_leb e1 e2 → tick e1 ≤ tick e2.
Proof. unfold Py.le. rewrite SamplerFacts.key_leb_spec. lia. Qed.

(** The merged stream holds exactly the collected events, ordered by
    absolute tick. *)
Theorem merged_stream_complete_and_ordered (mid : MidiFile) :
  build_events mid ≡ₚ collect mid ∧
  ∀ (i j : nat) (e1 e2 : event),
    build_events mid !! i = Some e1 → build_events mid !! j = Some e2 →
    (i < j)%nat → tick e1 ≤ tick e2.
Proof.
  split; [apply PyFacts.sorted_perm|].
  intros i j e1 e2 Hi Hj Hij. apply key_le_tick.
  exact (PyFacts.StronglySorted_lookup _ _ _ _ _ _
           (SamplerFacts.build_events_sorted mid) Hij Hi Hj).
Qed.

Lemma up_to_none (target : Z) (events : list event) :
  Forall (λ e, target < tick e) events → up_to target events = [].
Proof.
  induction 1 as [|e events He _ IH]; [done|].
  unfold up_to in *. rewrite filter_cons, decide_False by lia. done.
Qed.

(** On a list ordered by tick, stopping at the first later event reads
    the same events as reading all those at or before the target. *)
Lemma sweep_sorted (events : list event) (target : Z) (active : gset Z) :
  StronglySorted (Py.le key_leb) events →
  sweep events target active = foldl apply_event active (up_to target events).
Proof.
  intros Hsorted. revert active.
  induction Hsorted as [|e rest Hrest IH He]; intros active; [done|].
  simpl. unfold up_to. rewrite filter_cons.
  destruct (target <? tick e) eqn:Hlt.
  - apply Z.ltb_lt in Hlt. rewrite decide_False by lia.
    fold (up_to target rest). rewrite up_to_none; [done|].
    eapply Forall_impl; [exact He|].
    intros e' Hle. apply key_le_tick in Hle. lia.
  - apply Z.ltb_ge in Hlt. rewrite decide_True by lia. simpl. apply IH.
Qed.

(** The active set of a subdivision is what replaying every event at
    or before its target tick gives: the early exit of the inner loop
    loses nothing. *)
Theorem sweep_replays_prefix (mid : MidiFile) (tick_16th : Z) :
  active_at mid tick_16th =
    replay (up_to (target_tick mid tick_16th) (build_events mid)).
Proof.
  unfold active_at, replay, target_tick.
  apply sweep_sorted, SamplerFacts.build_events_sorted.
Qed.

Lemma replay_snoc (events : list event) (e : event) :
  replay (events ++ [e]) = apply_event (replay events) e.
Proof. unfold replay. by rewrite foldl_app. Qed.

Lemma replay_last_on (n : Z) (events : list event) :
  n ∈ replay events ↔ ∃ e, last_of n events = Some e ∧ typ e = on.
Proof.
  induction events as [|e events IH] using rev_ind.
  - unfold replay, last_of. simpl. split; [by intros ?%not_elem_of_empty|].
    by intros (? & ? & ?).
  - rewrite replay_snoc. unfold last_of in *. rewrite filter_app, filter_cons, filter_nil.
    unfold apply_event. destruct (decide (note e = n)) as [Heq|Hne].
    + rewrite last_snoc. destruct (typ e) eqn:Htyp.
      * split; [intros _; by exists e|]. intros _. rewrite elem_of_union, elem_of_singleton.
        by right.
      * split; [|intros (e' & [= <-] & Hon); congruence].
        rewrite elem_of_difference, elem_of_singleton. intros [_ Hn]. done.
    + rewrite app_nil_r, <- IH.
      destruct (typ e).
      * rewrite elem_of_union, elem_of_singleton. intuition congruence.
      * rewrite elem_of_difference, elem_of_singleton. intuition congruence.
Qed.

(** A pitch sounds at a subdivision exactly when its most recent event
    at or before the target tick is a note-on. *)
Theorem sounding_iff_last_event_on (mid : MidiFile) (tick_16th n : Z) :
  n ∈ active_at mid tick_16th ↔
  ∃ e, last_of n (up_to (target_tick mid tick_16th) (build_events mid)) = Some e ∧
       typ e = on.
Proof.
  unfold active_at. rewrite sweep_sorted by apply SamplerFacts.build_events_sorted.
  apply replay_last_on.
Qed.

Lemma sorted_nodup_strict (l : list Z) :
  StronglySorted (Py.le Z.leb) l → NoDup l → StronglySorted Z.lt l.
Proof.
  induction 1 as [|x l Hl IH Hx]; intros Hnd; [constructor|].
  apply NoDup_cons in Hnd as [Hnotin Hnd]. constructor; [by apply IH|].
  apply Forall_forall. intros y Hy. rewrite Forall_forall in Hx.
  specialize (Hx y Hy). unfold Py.le in Hx. apply Z.leb_le in Hx.
  assert (x ≠ y) by (intros ->; done). lia.
Qed.

(** Every sample lists the sounding pitches once each, in ascending
    order. *)
Theorem samples_strictly_ascending (mid : MidiFile) (result : list (list Z))
    (total_16ths : Z) (i : nat) (notes : list Z) :
  _get_sounding_notes_per_16th mid = Some (result, total_16ths) →
  result !! i = Some notes →
  StronglySorted Z.lt notes ∧
  ∀ n, n ∈ notes ↔ n ∈ active_at mid (Z.of_nat i).
Proof.
  intros Hrun Hi. apply SamplerFacts.sampler_inv in Hrun as (_ & _ & ->).
  rewrite list_lookup_fmap in Hi. unfold Py.range in Hi.
  destruct (seqZ 0 total_16ths !! i) as [k|] eqn:Hk; [|done].
  apply lookup_seqZ in Hk as [-> _]. simpl in Hi. simplify_eq.
  rewrite Z.add_0_l. unfold sorted_notes. split.
  - apply sorted_nodup_strict.
    + apply PyFacts.sorted_sorted; [apply Zleb_total|apply Zleb_trans].
    + rewrite PyFacts.sorted_perm. apply NoDup_elements.
  - intros n. rewrite PyFacts.elem_of_sorted. apply elem_of_elements.
Qed.

Lemma collect_track_other (start : Z) (track : MidiTrack) :
  Forall is_other track → collect_track start track = [].
Proof.
  intros Hother. revert start. induction Hother as [|msg track Hmsg _ IH]; intros start.
  - done.
  - simpl. destruct msg; try done. simpl. apply IH.
Qed.

(** The sampler fails exactly on a file that declares zero ticks per
    beat, and a file without note messages has no subdivision at all. *)
Theorem sampler_edge_cases (mid : MidiFile) :
  (_get_sounding_notes_per_16th mid = None ↔ ticks_per_beat mid = 0) ∧
  (ticks_per_beat mid ≠ 0 → Forall (Forall is_other) (tracks mid) →
   _get_sounding_notes_per_16th mid = Some ([], 0)).
Proof.
  unfold _get_sounding_notes_per_16th. split.
  - destruct (ticks_per_beat mid =? 0) eqn:Htpb.
    + apply Z.eqb_eq in Htpb. done.
    + apply Z.eqb_neq in Htpb. done.
  - intros Htpb Hother. apply Z.eqb_neq in Htpb. rewrite Htpb.
    assert (build_events mid = []) as ->.
    { unfold build_events, collect.
      assert (concat (map (collect_track 0) (tracks mid)) = []) as ->; [|done].
      induction Hother as [|track tracks Htrack _ IH]; [done|].
      simpl. by rewrite collect_track_other, IH. }
    unfold last_tick, ticks_per_16th. simpl.
    assert (Py.round (inject_Z 0 / (inject_Z (ticks_per_beat mid) / 4))%Q = 0) as ->; [|done].
    unfold Py.round, Qdiv. destruct (/ _)%Q as [num den]. reflexivity.
Qed.

End SamplerMore.

(** ** The cadence detector *)

Module CadenceMore.
Import Cadence Runs.

Lemma no_repeat_snoc (l : list string) (x y : string) :
  no_repeat (l ++ [x]) → x ≠ y → no_repeat ((l ++ [x]) ++ [y]).
Proof.
  induction l as [|z l IH]; intros Hl Hxy; [by simpl|].
  destruct Hl as [Hz Hl]. split; [|by apply IH].
  destruct l; simpl in *; done.
Qed.

Lemma compress_loop_no_repeat (rest : list sample) (events events' : list chord_event)
    (current_func current_func' : string) (start start' : Z) :
  no_repeat ((ev_function <$> events) ++ [current_func]) →
  foldl compress_step (events, current_func, start) rest = (events', current_func', start') →
  no_repeat ((ev_function <$> events') ++ [current_func']).
Proof.
  revert events current_func start.
  induction rest as [|s rest IH]; intros events current_func start Hinv Hfold.
  - simpl in Hfold. by simplify_eq.
  - simpl in Hfold. destruct (String.eqb (function s) current_func) eqn:Heq; simpl in Hfold.
    + by eapply IH.
    + apply String.eqb_neq in Heq. eapply IH; [|exact Hfold].
      rewrite fmap_app. simpl. apply no_repeat_snoc; [done|congruence].
Qed.

(** Neighbouring chord events never carry the same label: every run is
    as long as it can be, whatever the ticks of the timeline are. *)
Theorem runs_are_maximal (timeline : list sample) :
  no_repeat (ev_function <$> get_chord_events timeline).
Proof.
  destruct timeline as [|first rest]; [done|]. unfold get_chord_events.
  destruct (foldl compress_step ([], function first, tick first) (first :: rest))
    as [[events current_func] start] eqn:Hfold.
  rewrite fmap_app. simpl.
  eapply compress_loop_no_repeat; [|exact Hfold]. by simpl.
Qed.

Lemma tiles_snoc (t0 start d : Z) (f : string) (events : list chord_event) :
  tiles t0 events start → 1 ≤ d →
  tiles t0 (events ++ [mkChordEvent f start d]) (start + d).
Proof.
  revert t0. induction events as [|e events IH]; intros t0 Htiles Hd; simpl in *.
  - by subst.
  - destruct Htiles as (Hs & He & Htiles). repeat split; [done..|]. by apply IH.
Qed.

Lemma tiles_sum (t t' : Z) (events : list chord_event) :
  tiles t events t' → foldr Z.add 0 (duration <$> events) = t' - t.
Proof.
  revert t. induction events as [|e events IH]; intros t Htiles; simpl in *; [lia|].
  destruct Htiles as (_ & _ & Htiles). specialize (IH _ Htiles).
  change (foldr Z.add 0 (duration <$> events)) with
    (foldr Z.add 0 (list_fmap _ _ duration events)) in IH.
  lia.
Qed.

Lemma compress_loop_tiles (rest : list sample) (events events' : list chord_event)
    (current_func current_func' : string) (t0 start start' t : Z) :
  consecutive_from t rest → tiles t0 events start → start < t →
  foldl compress_step (events, current_func, start) rest = (events', current_func', start') →
  tiles t0 events' start' ∧ start' < t + Z.of_nat (length rest).
Proof.
  revert events current_func start t.
  induction rest as [|s rest IH]; intros events current_func start t Hcons Htiles Hlt Hfold.
  - simpl in *. simplify_eq. split; [done|lia].
  - destruct Hcons as [Htick Hcons]. simpl in Hfold. rewrite Htick in Hfold.
    replace (t + Z.of_nat (length (s :: rest))) with (t + 1 + Z.of_nat (length rest))
      by (simpl; lia).
    destruct (String.eqb (function s) current_func); simpl in Hfold.
    + eapply IH; [exact Hcons|exact Htiles|lia|exact Hfold].
    + eapply (IH _ _ t); [exact Hcons| |lia|exact Hfold].
      replace t with (start + (t - start)) at 2 by lia.
      apply tiles_snoc; [done|lia].
Qed.

Lemma timeline_tiles (timeline : list sample) (first : sample) :
  consecutive timeline → head timeline = Some first →
  tiles (tick first) (get_chord_events timeline)
        (tick first + Z.of_nat (length timeline)).
Proof.
  intros Hcons Hhead. destruct timeline as [|first' rest]; [done|].
  simpl in Hhead. simplify_eq. unfold consecutive in Hcons.
  { unfold get_chord_events.
    destruct (foldl compress_step ([], function first, tick first) (first :: rest))
      as [[events current_func] start] eqn:Hfold.
    pose proof (CadenceFacts.consecutive_last _ _ first Hcons ltac:(done)) as Hlast.
    rewrite Hlast. destruct Hcons as [_ Hcons].
    simpl in Hfold. rewrite String.eqb_refl in Hfold. simpl in Hfold.
    destruct (compress_loop_tiles rest [] events (function first) current_func
                (tick first) (tick first) start (tick first + 1) Hcons eq_refl
                ltac:(lia) Hfold) as [Htiles Hstart].
    simpl length in *.
    pose proof (tiles_snoc (tick first) start
                  (tick first + Z.of_nat (S (length rest)) - 1 - start + 1)
                  current_func events Htiles ltac:(lia)) as Hall.
    replace (start + (tick first + Z.of_nat (S (length rest)) - 1 - start + 1))
      with (tick first + Z.of_nat (S (length rest))) in Hall by lia.
    exact Hall. }
Qed.

(** On a timeline sampled at consecutive ticks the chord events are
    back-to-back runs of at least one subdivision each, starting at the
    first tick and covering every sample; their durations add up to the
    number of samples. *)
Theorem runs_tile_timeline (timeline : list sample) (first : sample) :
  consecutive timeline → head timeline = Some first →
  tiles (tick first) (get_chord_events timeline)
        (tick first + Z.of_nat (length timeline)) ∧
  foldr Z.add 0 (duration <$> get_chord_events timeline) = Z.of_nat (length timeline).
Proof.
  intros Hcons Hhead. pose proof (timeline_tiles timeline first Hcons Hhead) as Htiles.
  split; [exact Htiles|]. rewrite (tiles_sum _ _ _ Htiles). lia.
Qed.

Lemma scan_from (prs : list (chord_event * chord_event)) (strong regular : list Z) :
  foldl cadence_step (strong, regular) prs =
    (strong ++ ticks_of Strong prs, regular ++ ticks_of Regular prs).
Proof.
  revert strong regular. induction prs as [|[prev curr] prs IH]; intros strong regular.
  - unfold ticks_of. simpl. by rewrite !app_nil_r.
  - cbn [foldl].
    destruct (cadence_step (strong, regular) (prev, curr)) as [strong' regular'] eqn:Hstep.
    rewrite IH. unfold ticks_of. rewrite !filter_cons. unfold cadence_step in Hstep.
    cbn [fst snd].
    destruct (classify_pair prev curr) as [[]|]; simplify_eq.
    + rewrite decide_True by done. rewrite decide_False by done.
      simpl. by rewrite <- app_assoc.
    + rewrite decide_False by done. rewrite decide_True by done.
      simpl. by rewrite <- app_assoc.
    + rewrite !decide_False by done. done.
Qed.

(** The two lists of [find_cadences] are the start ticks of the pairs
    classified Strong and Regular, in the order of the pairs. *)
Lemma scan_cadences_filter (chord_events : list chord_event) :
  scan_cadences chord_events =
    (ticks_of Strong (pairs chord_events), ticks_of Regular (pairs chord_events)).
Proof. unfold scan_cadences. by rewrite scan_from. Qed.

Lemma tiles_le (t t' : Z) (events : list chord_event) : tiles t events t' → t ≤ t'.
Proof.
  revert t. induction events as [|e events IH]; intros t Htiles; simpl in *; [lia|].
  destruct Htiles as (_ & Hd & Htiles). apply IH in Htiles. lia.
Qed.

Lemma tiles_starts (t t' : Z) (events : list chord_event) :
  tiles t events t' →
  StronglySorted Z.lt (start_tick <$> events) ∧
  Forall (λ e, t ≤ start_tick e < t') events.
Proof.
  revert t. induction events as [|e events IH]; intros t Htiles.
  - split; constructor.
  - cbn [tiles] in Htiles. destruct Htiles as (Hs & Hd & Htiles).
    pose proof (tiles_le _ _ _ Htiles) as Hle.
    destruct (IH _ Htiles) as [Hsorted Hbounds]. split.
    + rewrite fmap_cons. constructor; [done|]. apply Forall_fmap.
      eapply Forall_impl; [exact Hbounds|]. simpl. intros; lia.
    + constructor; [lia|]. eapply Forall_impl; [exact Hbounds|]. simpl. intros; lia.
Qed.

Lemma strict_filter_fmap {A : Type} (f : A → Z) (P : A → Prop) `{!∀ x, Decision (P x)}
    (l : list A) :
  StronglySorted Z.lt (f <$> l) → StronglySorted Z.lt (f <$> filter P l).
Proof.
  induction l as [|x l IH]; intros Hl; [constructor|].
  rewrite fmap_cons in Hl. apply StronglySorted_inv in Hl as [Hl Hx].
  rewrite filter_cons. destruct (decide (P x)); [|by apply IH].
  rewrite fmap_cons. constructor; [by apply IH|].
  rewrite Forall_fmap in Hx. apply Forall_fmap.
  rewrite Forall_forall in Hx. apply Forall_forall. intros y Hy.
  apply list_elem_of_filter in Hy as [_ Hy]. by apply Hx.
Qed.

Lemma strict_nodup (l : list Z) : StronglySorted Z.lt l → NoDup l.
Proof.
  induction 1 as [|x l Hl IH Hx]; constructor; [|done].
  intros Hin. rewrite Forall_forall in Hx. specialize (Hx x Hin). lia.
Qed.

Lemma elem_of_ticks_of (s : strength) (prs : list (chord_event * chord_event)) (t : Z) :
  t ∈ ticks_of s prs ↔
  ∃ p, p ∈ prs ∧ classify_pair p.1 p.2 = Some s ∧ t = start_tick p.2.
Proof.
  unfold ticks_of. rewrite list_elem_of_fmap. split.
  - intros (p & -> & Hp). apply list_elem_of_filter in Hp as [Hs Hp]. by exists p.
  - intros (p & Hp & Hs & ->). exists p. split; [done|]. by apply list_elem_of_filter.
Qed.

Lemma classify_pair_on_beat (prev curr : chord_event) (s : strength) :
  classify_pair prev curr = Some s → start_tick curr mod 4 = 0.
Proof.
  unfold classify_pair, is_perfect_cadence. intros H.
  destruct (negb (is_dominant _ && is_tonic _)); [done|].
  destruct (start_tick curr mod 4 =? 0) eqn:Hbeat; [by apply Z.eqb_eq|done].
Qed.

(** On a timeline sampled at consecutive ticks, every cadence tick
    reported is a multiple of 4 that lies after the first sample and
    within the timeline; both lists come out in strictly ascending
    order, and no tick is reported both as Strong and as Regular. *)
Theorem cadences_on_beats (timeline : list sample) (first : sample)
    (strong regular : list Z) :
  consecutive timeline → head timeline = Some first →
  find_cadences timeline = (strong, regular) →
  (∀ t, t ∈ strong ∨ t ∈ regular →
     t mod 4 = 0 ∧ tick first < t < tick first + Z.of_nat (length timeline)) ∧
  StronglySorted Z.lt strong ∧ StronglySorted Z.lt regular ∧
  (∀ t, t ∈ strong → t ∉ regular).
Proof.
  intros Hcons Hhead Hfind.
  pose proof (timeline_tiles timeline first Hcons Hhead) as Htiles.
  unfold find_cadences in Hfind. rewrite scan_cadences_filter in Hfind.
  destruct (get_chord_events timeline) as [|e0 rest] eqn:Hevents.
  { simpl in Htiles. destruct timeline; [done|]. simpl in Htiles. lia. }
  simpl in Htiles. destruct Htiles as (Hs0 & Hd0 & Htiles).
  destruct (tiles_starts _ _ _ Htiles) as [Hsorted Hbounds].
  set (prs := pairs (e0 :: rest)) in *.
  assert ((λ p : chord_event * chord_event, start_tick p.2) <$> prs = start_tick <$> rest)
    as Hstarts.
  { unfold prs, pairs. simpl tail.
    transitivity (start_tick <$> (zip (e0 :: rest) rest).*2).
    - by rewrite <- list_fmap_compose.
    - by rewrite snd_zip by (simpl; lia). }
  assert (∀ s t, t ∈ ticks_of s prs →
            t mod 4 = 0 ∧ tick first < t < tick first + Z.of_nat (length timeline)) as Hin.
  { intros s t Ht. apply elem_of_ticks_of in Ht as ([prev curr] & Hp & Hclass & ->).
    split; [by eapply classify_pair_on_beat|]. simpl.
    assert (start_tick curr ∈ start_tick <$> rest) as Hcurr.
    { rewrite <- Hstarts. apply list_elem_of_fmap. by exists (prev, curr). }
    apply list_elem_of_fmap in Hcurr as (e & -> & He).
    rewrite Forall_forall in Hbounds. specialize (Hbounds e He). simpl in Hbounds. lia. }
  assert (∀ s, StronglySorted Z.lt (ticks_of s prs)) as Hstrict.
  { intros s. unfold ticks_of. apply strict_filter_fmap. by rewrite Hstarts. }
  simplify_eq. split; [|split; [|split]]; [|done..|].
  - intros t [Ht|Ht]; by eapply Hin.
  - intros t Hstrong Hregular.
    apply elem_of_ticks_of in Hstrong as (p & Hp & Hclass & Ht).
    apply elem_of_ticks_of in Hregular as (p' & Hp' & Hclass' & Ht').
    apply list_elem_of_lookup in Hp as [i Hi]. apply list_elem_of_lookup in Hp' as [j Hj].
    assert (i = j) as ->.
    { apply (NoDup_lookup ((λ p : chord_event * chord_event, start_tick p.2) <$> prs) i j t).
      - rewrite Hstarts. by apply strict_nodup.
      - rewrite list_lookup_fmap, Hi. simpl. by rewrite Ht.
      - rewrite list_lookup_fmap, Hj. simpl. by rewrite Ht'. }
    congruence.
Qed.

End CadenceMore.

(** ** The cadence rule on the runs of a timeline *)

Module CadenceRule.
Import Cadence Runs.

Lemma pair_at (events : list chord_event) (i : nat) (prev curr : chord_event) :
  events !! i = Some prev → events !! S i = Some curr →
  pairs events !! i = Some (prev, curr).
Proof.
  intros Hprev Hcurr. unfold pairs.
  rewrite lookup_zip_with, Hprev, lookup_tail, Hcurr. done.
Qed.

(** On a timeline sampled at consecutive ticks no two runs start at
    the same tick. *)
Lemma pair_ticks_distinct (timeline : list sample) :
  consecutive timeline →
  NoDup ((λ p, start_tick p.2) <$> pairs (get_chord_events timeline)).
Proof.
  intros Hcons. destruct timeline as [|first timeline'] eqn:Htl; [constructor|].
  rewrite <- Htl in *.
  assert (head timeline = Some first) as Hhead by (by subst).
  pose proof (CadenceMore.timeline_tiles timeline first Hcons Hhead) as Htiles.
  destruct (get_chord_events timeline) as [|e0 rest]; [constructor|].
  simpl in Htiles. destruct Htiles as (_ & _ & Htiles).
  destruct (CadenceMore.tiles_starts _ _ _ Htiles) as [Hsorted _].
  assert ((λ p : chord_event * chord_event, start_tick p.2) <$> pairs (e0 :: rest) =
          start_tick <$> rest) as ->.
  { unfold pairs. simpl tail.
    transitivity (start_tick <$> (zip (e0 :: rest) rest).*2).
    - by rewrite <- list_fmap_compose.
    - by rewrite snd_zip by (simpl; lia). }
  by apply CadenceMore.strict_nodup.
Qed.

Lemma cadence_reported (prs : list (chord_event * chord_event)) (i : nat)
    (prev curr : chord_event) (s : strength) :
  prs !! i = Some (prev, curr) → classify_pair prev curr = Some s →
  start_tick curr ∈ ticks_of s prs.
Proof.
  intros Hi Hclass. apply CadenceMore.elem_of_ticks_of. exists (prev, curr).
  split; [by eapply list_elem_of_lookup_2|done].
Qed.

Lemma cadence_reported_iff (prs : list (chord_event * chord_event)) (i : nat)
    (prev curr : chord_event) (s : strength) :
  NoDup ((λ p, start_tick p.2) <$> prs) →
  prs !! i = Some (prev, curr) →
  start_tick curr ∈ ticks_of s prs ↔ classify_pair prev curr = Some s.
Proof.
  intros Hnodup Hi. split; [|by apply (cadence_reported _ i prev curr)].
  intros Hin. apply CadenceMore.elem_of_ticks_of in Hin as (p & Hp & Hclass & Htick).
  apply list_elem_of_lookup in Hp as [j Hj].
  assert (i = j) as <-.
  { apply (NoDup_lookup _ i j (start_tick curr) Hnodup).
    - by rewrite list_lookup_fmap, Hi.
    - rewrite list_lookup_fmap, Hj. simpl. by rewrite Htick. }
  by simplify_eq.
Qed.

(** [C3] In the list of runs the detector builds from a timeline, take
    any two neighbouring runs, a dominant one followed by a tonic one
    that starts on a beat.  The two lists returned hold the start
    ticks of exactly the pairs classified Strong and Regular.  With a
    dominant run of at least 2 subdivisions (exactly 2 included), a
    tonic run of at least 8 (exactly 8 included) puts the start tick of
    the tonic run in the Strong list, and one of 2 to 7 (7 included)
    puts it in the Regular list; a dominant run of duration 1 gives no
    cadence.  On a timeline sampled at consecutive ticks the start
    tick is then in no other list. *)
Theorem cadence_rule_boundary (timeline : list sample) (i : nat) (prev curr : chord_event)
    (strong regular : list Z) :
  get_chord_events timeline !! i = Some prev →
  get_chord_events timeline !! S i = Some curr →
  is_dominant (ev_function prev) = true →
  is_tonic (ev_function curr) = true →
  start_tick curr mod 4 = 0 →
  find_cadences timeline = (strong, regular) →
  (strong = ticks_of Strong (pairs (get_chord_events timeline)) ∧
   regular = ticks_of Regular (pairs (get_chord_events timeline)) ∧
   pairs (get_chord_events timeline) !! i = Some (prev, curr)) ∧
  (2 ≤ duration prev → 8 ≤ duration curr →
     classify_pair prev curr = Some Strong ∧ start_tick curr ∈ strong ∧
     (consecutive timeline → start_tick curr ∉ regular)) ∧
  (2 ≤ duration prev → 2 ≤ duration curr < 8 →
     classify_pair prev curr = Some Regular ∧ start_tick curr ∈ regular ∧
     (consecutive timeline → start_tick curr ∉ strong)) ∧
  (duration prev < 2 →
     classify_pair prev curr = None ∧
     (consecutive timeline → (start_tick curr ∉ strong) ∧ (start_tick curr ∉ regular))).
Proof.
  intros Hprev Hcurr Hdom Hton Hbeat Hfind.
  unfold find_cadences in Hfind. rewrite CadenceMore.scan_cadences_filter in Hfind.
  injection Hfind as <- <-.
  pose proof (pair_at _ _ _ _ Hprev Hcurr) as Hpair.
  destruct (CadenceFacts.cadence_rule_general prev curr Hdom Hton Hbeat)
    as (Hstrong & Hregular & Hnone).
  assert (∀ s s', consecutive timeline → classify_pair prev curr = s → s ≠ Some s' →
            start_tick curr ∉ ticks_of s' (pairs (get_chord_events timeline))) as Hout.
  { intros s s' Hcons Hclass Hne Hin.
    apply (cadence_reported_iff _ i prev curr s' (pair_ticks_distinct _ Hcons) Hpair) in Hin.
    congruence. }
  split; [done|]. split; [|split].
  - intros H2 H8. specialize (Hstrong H2 H8). split; [done|]. split.
    + by apply (cadence_reported _ i prev curr).
    + intros Hcons. by apply (Hout (Some Strong)).
  - intros H2 H8. specialize (Hregular H2 H8). split; [done|]. split.
    + by apply (cadence_reported _ i prev curr).
    + intros Hcons. by apply (Hout (Some Regular)).
  - intros H1. specialize (Hnone (or_introl H1)). split; [done|].
    intros Hcons. split; by apply (Hout None).
Qed.

End CadenceRule.

Module CadenceRuleWitnesses.
Import Cadence Runs.

Lemma cadence_rule_witness :
  (classify_pair (mkChordEvent "V" 2 2) (mkChordEvent "I" 4 8) = Some Strong ∧
   (4 ∈ [4]) ∧ (consecutive Inputs.three_cadences → 4 ∉ [16])) ∧
  (classify_pair (mkChordEvent "V7" 14 2) (mkChordEvent "I6" 16 7) = Some Regular ∧
   (16 ∈ [16]) ∧ (consecutive Inputs.three_cadences → 16 ∉ [4])) ∧
  (classify_pair (mkChordEvent "V" 23 1) (mkChordEvent "I" 24 4) = None ∧
   (consecutive Inputs.three_cadences → (24 ∉ [4]) ∧ (24 ∉ [16]))).
Proof.
  split; [|split].
  - apply (proj1 (proj2 (CadenceRule.cadence_rule_boundary Inputs.three_cadences 1
                   (mkChordEvent "V" 2 2) (mkChordEvent "I" 4 8) [4] [16]
                   eq_refl eq_refl eq_refl eq_refl eq_refl eq_refl))); simpl; lia.
  - apply (proj1 (proj2 (proj2 (CadenceRule.cadence_rule_boundary Inputs.three_cadences 4
                   (mkChordEvent "V7" 14 2) (mkChordEvent "I6" 16 7) [4] [16]
                   eq_refl eq_refl eq_refl eq_refl eq_refl eq_refl)))); simpl; lia.
  - apply (proj2 (proj2 (proj2 (CadenceRule.cadence_rule_boundary Inputs.three_cadences 6
                   (mkChordEvent "V" 23 1) (mkChordEvent "I" 24 4) [4] [16]
                   eq_refl eq_refl eq_refl eq_refl eq_refl eq_refl)))); simpl; lia.
Defined.

End CadenceRuleWitnesses.

(** ** The window extractor *)

Module CutterMore.
Import Mido Cutter Tracker.

Lemma timed_from_cons (start : Z) (msg : Message) (track : MidiTrack) :
  timed_from start (msg :: track) =
    (start + time msg, msg) :: timed_from (start + time msg) track.
Proof. done. Qed.

Lemma timed_from_app (start : Z) (l1 l2 : MidiTrack) :
  timed_from start (l1 ++ l2) = timed_from start l1 ++ timed_from (start + elapsed l1) l2.
Proof.
  revert start. induction l1 as [|msg l1 IH]; intros start.
  - unfold elapsed. simpl. by rewrite Z.add_0_r.
  - rewrite <- app_comm_cons, !timed_from_cons, IH. simpl.
    replace (elapsed (msg :: l1)) with (time msg + elapsed l1) by done.
    by rewrite Z.add_assoc.
Qed.

(** When no message lies after the cut, the loop never breaks: it
    copies everything except the note-ons on the cut. *)
Lemma cut_loop_no_break (cut : Z) (track : MidiTrack) (st : cut_state) :
  Forall (λ t, t ≤ cut) (abs_times (current_time st) track) →
  new_track (cut_loop cut track st) =
    new_track st ++ (filter (copied cut) (timed_from (current_time st) track)).*2.
Proof.
  revert st. induction track as [|msg track IH]; intros st Hle.
  - simpl. by rewrite app_nil_r.
  - apply Forall_cons in Hle as [Hmsg Hle]. rewrite timed_from_cons, filter_cons.
    cbn [cut_loop].
    destruct (current_time st + time msg <? cut) eqn:Hlt.
    { apply Z.ltb_lt in Hlt. rewrite decide_True by (by left).
      rewrite (IH (mkCutState _ (current_time st + time msg) _) Hle). simpl.
      by rewrite <- app_assoc. }
    apply Z.ltb_ge in Hlt.
    assert (current_time st + time msg = cut) as Heq by lia.
    rewrite Heq, Z.eqb_refl. rewrite Heq in Hle. destruct (is_on msg) eqn:Hon.
    + rewrite decide_False by (unfold copied; simpl; intros [?|?]; [lia|congruence]).
      by rewrite (IH (mkCutState _ cut _) Hle).
    + rewrite decide_True by (by right).
      rewrite (IH (mkCutState _ cut _) Hle). simpl. by rewrite <- app_assoc.
Qed.

Lemma filter_copied_all (cut start : Z) (track : MidiTrack) :
  Forall (λ t, t < cut) (abs_times start track) →
  (filter (copied cut) (timed_from start track)).*2 = track.
Proof.
  revert start. induction track as [|msg track IH]; intros start Hlt; [done|].
  simpl in Hlt. apply Forall_cons in Hlt as [Hmsg Hlt].
  rewrite timed_from_cons, filter_cons, decide_True by (by left).
  rewrite fmap_cons. simpl. by rewrite IH.
Qed.

(** A cut at or after the last message synthesizes nothing, even when
    notes are still held: the new track is the old one without the
    note-ons that fall on the cut, followed by the end-of-track marker;
    a cut after the last message copies the track unchanged. *)
Theorem cut_without_later_message (cut : Z) (track : MidiTrack) :
  Forall (λ t, t ≤ cut) (abs_times 0 track) →
  cut_track cut track = (filter (copied cut) (timed track)).*2 ++ [end_of_track] ∧
  (Forall (λ t, t < cut) (abs_times 0 track) →
   cut_track cut track = track ++ [end_of_track]).
Proof.
  intros Hle. unfold cut_track.
  rewrite (cut_loop_no_break cut track cut_init Hle). simpl. split; [done|].
  intros Hlt. by rewrite filter_copied_all.
Qed.

Lemma force_close_well_formed (remaining_delta : Z) (first : bool) (active : active_dict) :
  0 ≤ remaining_delta → well_formed_track (force_close remaining_delta first active).
Proof.
  intros Hdelta. revert first.
  induction active as [|[[channel note] velocity] active IH]; intros first; [constructor|].
  simpl. constructor; [|apply IH]. simpl. destruct first; lia.
Qed.

Lemma force_close_elapsed_le (remaining_delta : Z) (active : active_dict) :
  0 ≤ remaining_delta → elapsed (force_close remaining_delta true active) ≤ remaining_delta.
Proof.
  intros Hdelta. destruct active as [|kv active].
  - unfold elapsed. simpl. lia.
  - rewrite CutterFacts.force_close_elapsed by done. lia.
Qed.

Lemma cut_loop_bounded (cut : Z) (track : MidiTrack) (st : cut_state) :
  well_formed_track track →
  well_formed_track (new_track st) →
  elapsed (new_track st) ≤ current_time st ≤ cut →
  well_formed_track (new_track (cut_loop cut track st)) ∧
  elapsed (new_track (cut_loop cut track st)) ≤ cut.
Proof.
  intros Hwf. revert st. induction Hwf as [|msg track Hmsg _ IH]; intros st Hnew Hinv.
  - simpl. split; [done|lia].
  - simpl. destruct (current_time st + time msg <? cut) eqn:Hlt.
    { apply Z.ltb_lt in Hlt. apply IH; simpl.
      - apply Forall_app. split; [done|]. by constructor.
      - rewrite CutterFacts.elapsed_app. unfold elapsed at 2. simpl. lia. }
    destruct (current_time st + time msg =? cut) eqn:Heq.
    { apply Z.eqb_eq in Heq. destruct (is_on msg); apply IH; simpl; try done; try lia.
      - apply Forall_app. split; [done|]. by constructor.
      - rewrite CutterFacts.elapsed_app. unfold elapsed at 2. simpl. lia. }
    simpl. split.
    + apply Forall_app. split; [done|]. apply force_close_well_formed. lia.
    + rewrite CutterFacts.elapsed_app.
      pose proof (force_close_elapsed_le (cut - (current_time st + time msg - time msg))
                    (active_notes st) ltac:(lia)).
      lia.
Qed.

Lemma cut_track_wf_le (cut : Z) (track : MidiTrack) :
  0 ≤ cut → well_formed_track track →
  well_formed_track (cut_track cut track) ∧ elapsed (cut_track cut track) ≤ cut.
Proof.
  intros Hcut Hwf. unfold cut_track.
  destruct (cut_loop_bounded cut track cut_init Hwf) as [Hout Hle].
  - constructor.
  - unfold elapsed. simpl. lia.
  - split.
    + apply Forall_app. split; [done|]. constructor; [simpl; lia|constructor].
    + rewrite CutterFacts.elapsed_app. unfold elapsed at 2. simpl. lia.
Qed.

(** For a cut tick that is not negative, the track cut from a track
    with non-negative delta times again has non-negative delta times,
    and it never lasts longer than the cut tick. *)
Theorem cut_track_bounded (cut : Z) (track : MidiTrack) :
  0 ≤ cut → well_formed_track track →
  well_formed_track (cut_track cut track) ∧ elapsed (cut_track cut track) ≤ cut.
Proof. apply cut_track_wf_le. Qed.

Lemma cut_threshold_floor (mid : MidiFile) (cut_16th_index : Z) :
  0 ≤ cut_16th_index → 0 ≤ ticks_per_beat mid →
  cut_threshold mid cut_16th_index = cut_16th_index * ticks_per_beat mid / 4.
Proof.
  intros Hidx Htpb.
  unfold cut_threshold, Py.int, Qle_bool, Qfloor, Qdiv, Qmult, Qinv, inject_Z. simpl.
  rewrite ?Z.mul_1_r. change (1 * (1 * 4))%positive with 4%positive.
  rewrite Z.mul_0_l.
  assert ((0 <=? cut_16th_index * ticks_per_beat mid) = true) as ->
    by (apply Z.leb_le; nia).
  reflexivity.
Qed.

(** Cutting a file at sixteenth [k] cuts every track at tick
    [k * ticks_per_beat / 4] rounded down: the new file keeps the
    resolution and the number of tracks, and each new track has
    non-negative delta times, ends with an end-of-track marker and
    lasts no longer than that tick. *)
Theorem cut_file_bounded (mid : MidiFile) (cut_16th_index : Z) :
  0 ≤ cut_16th_index → 0 ≤ ticks_per_beat mid →
  Forall well_formed_track (tracks mid) →
  let new_mid := cut_midi_at_16th mid cut_16th_index in
  ticks_per_beat new_mid = ticks_per_beat mid ∧
  length (tracks new_mid) = length (tracks mid) ∧
  Forall (λ track,
            well_formed_track track ∧ last track = Some end_of_track ∧
            elapsed track ≤ cut_16th_index * ticks_per_beat mid / 4)
         (tracks new_mid).
Proof.
  intros Hidx Htpb Hwf. simpl. split; [done|]. split; [by rewrite length_fmap|].
  apply Forall_fmap. eapply Forall_impl; [exact Hwf|]. intros track Htrack. simpl.
  rewrite (cut_threshold_floor mid cut_16th_index Hidx Htpb).
  destruct (cut_track_wf_le (cut_16th_index * ticks_per_beat mid / 4) track) as [Hout Hle];
    [apply Z.div_pos; nia|done|].
  split; [done|]. split; [|done]. unfold cut_track. apply last_snoc.
Qed.

Lemma dropped_time_zero (cut start : Z) (track : MidiTrack) :
  Forall (λ p, p.1 = cut → is_on p.2 = true → time p.2 = 0) (timed_from start track) →
  dropped_time cut track start = 0.
Proof.
  revert start. induction track as [|msg track IH]; intros start Hno; [done|].
  rewrite timed_from_cons in Hno. apply Forall_cons in Hno as [Hmsg Hno]. simpl in *.
  destruct (start + time msg <? cut); [by apply IH|].
  destruct (start + time msg =? cut) eqn:Heq; [|done].
  apply Z.eqb_eq in Heq. rewrite (IH _ Hno).
  destruct (is_on msg); [|done]. rewrite Hmsg by done. done.
Qed.

(** When the loop reaches a message after the cut while notes are
    active, the new track lasts the cut tick minus the delta times of
    the note-ons left out on the cut; so it lasts exactly the cut tick
    whenever every note-on that falls on the cut has delta time 0. *)
Theorem cut_track_duration (cut : Z) (track : MidiTrack) :
  crosses cut track 0 = true →
  active_notes (cut_loop cut track cut_init) ≠ [] →
  elapsed (cut_track cut track) = cut - dropped_time cut track 0 ∧
  (Forall (λ p, p.1 = cut → is_on p.2 = true → time p.2 = 0) (timed track) →
   elapsed (cut_track cut track) = cut).
Proof.
  intros Hcross Hactive.
  pose proof (CutterFacts.cut_track_lands_on_cut cut track Hcross Hactive) as Hlen.
  split; [done|]. intros Hno. rewrite Hlen, (dropped_time_zero cut 0 track Hno). lia.
Qed.

Lemma timed_from_snoc (start : Z) (track : MidiTrack) (msg : Message) :
  timed_from start (track ++ [msg]) =
    timed_from start track ++ [(start + elapsed track + time msg, msg)].
Proof. by rewrite timed_from_app. Qed.

Lemma force_close_not_on (remaining_delta : Z) (first : bool) (active : active_dict) :
  Forall (λ msg, is_on msg = false) (force_close remaining_delta first active).
Proof.
  revert first. induction active as [|[[channel note] velocity] active IH]; intros first.
  - constructor.
  - simpl. constructor; [done|apply IH].
Qed.

Lemma timed_from_not_on (start cut : Z) (track : MidiTrack) :
  Forall (λ msg, is_on msg = false) track →
  Forall (λ p, is_on p.2 = true → p.1 < cut) (timed_from start track).
Proof.
  intros Hoff. revert start. induction Hoff as [|msg track Hmsg _ IH]; intros start.
  - constructor.
  - rewrite timed_from_cons. constructor; [|apply IH]. simpl. congruence.
Qed.

Lemma cut_loop_no_late_on (cut : Z) (track : MidiTrack) (st : cut_state) :
  well_formed_track track →
  elapsed (new_track st) ≤ current_time st →
  Forall (λ p, is_on p.2 = true → p.1 < cut) (timed_from 0 (new_track st)) →
  Forall (λ p, is_on p.2 = true → p.1 < cut)
         (timed_from 0 (new_track (cut_loop cut track st))).
Proof.
  intros Hwf. revert st. induction Hwf as [|msg track Hmsg _ IH]; intros st Hinv Hnew.
  - done.
  - simpl. destruct (current_time st + time msg <? cut) eqn:Hlt.
    { apply Z.ltb_lt in Hlt. apply IH; simpl.
      - rewrite CutterFacts.elapsed_app. unfold elapsed at 2. simpl. lia.
      - rewrite timed_from_snoc. apply Forall_app. split; [done|].
        constructor; [|constructor]. simpl. lia. }
    destruct (current_time st + time msg =? cut) eqn:Heq.
    { destruct (is_on msg) eqn:Hon; apply IH; simpl; try done; try lia.
      - rewrite CutterFacts.elapsed_app. unfold elapsed at 2. simpl. lia.
      - rewrite timed_from_snoc. apply Forall_app. split; [done|].
        constructor; [|constructor]. simpl. congruence. }
    simpl. rewrite timed_from_app. apply Forall_app. split; [done|].
    apply timed_from_not_on, force_close_not_on.
Qed.

(** No note begins at or after the cut: every note-on of the new track
    sits, on the clock of the new track, strictly before the cut tick. *)
Theorem no_note_on_from_cut (cut : Z) (track : MidiTrack) (t : Z) (msg : Message) :
  well_formed_track track →
  (t, msg) ∈ timed (cut_track cut track) →
  is_on msg = true → t < cut.
Proof.
  intros Hwf Hin Hon.
  assert (Forall (λ p, is_on p.2 = true → p.1 < cut) (timed (cut_track cut track))) as Hall.
  { unfold cut_track. change timed with (timed_from 0). rewrite timed_from_app.
    apply Forall_app. split.
    - apply cut_loop_no_late_on; [done|unfold elapsed; simpl; lia|constructor].
    - apply timed_from_not_on. by repeat constructor. }
  rewrite Forall_forall in Hall. by apply (Hall (t, msg)).
Qed.

Lemma held_notes_snoc (track : MidiTrack) (msg : Message) :
  held_notes (track ++ [msg]) = track_active msg (held_notes track).
Proof. unfold held_notes. by rewrite foldl_app. Qed.

Lemma close_all (remaining_delta : Z) (first : bool) (active held : active_dict) :
  (∀ kv, kv ∈ held → kv.1 ∈ active.*1) →
  foldl (λ a msg, track_active msg a) held (force_close remaining_delta first active) = [].
Proof.
  revert first held.
  induction active as [|[[channel note] velocity] active IH]; intros first held Hkeys.
  - simpl. destruct held as [|kv held]; [done|].
    specialize (Hkeys kv ltac:(left)). by apply elem_of_nil in Hkeys.
  - simpl. apply IH. intros kv Hkv. unfold track_active in Hkv. simpl in Hkv.
    unfold dict_del in Hkv. apply list_elem_of_filter in Hkv as [Hne Hkv].
    specialize (Hkeys kv Hkv). rewrite fmap_cons in Hkeys. simpl in Hkeys.
    apply elem_of_cons in Hkeys as [Heq|Hin]; [done|done].
Qed.

Lemma cut_loop_closes (cut : Z) (track : MidiTrack) (st : cut_state) :
  crosses cut track (current_time st) = true →
  active_notes st = held_notes (new_track st) →
  held_notes (new_track (cut_loop cut track st)) = [].
Proof.
  revert st. induction track as [|msg track IH]; intros st Hcross Hinv; [done|].
  simpl in *. destruct (current_time st + time msg <? cut) eqn:Hlt.
  { apply Z.ltb_lt in Hlt.
    assert ((cut <? current_time st + time msg) = false) as Hn by (apply Z.ltb_ge; lia).
    rewrite Hn in Hcross. apply (IH (mkCutState _ (current_time st + time msg) _) Hcross).
    simpl. by rewrite held_notes_snoc, Hinv. }
  destruct (current_time st + time msg =? cut) eqn:Heq.
  { apply Z.eqb_eq in Heq.
    assert ((cut <? current_time st + time msg) = false) as Hn by (apply Z.ltb_ge; lia).
    rewrite Hn in Hcross. destruct (is_on msg) eqn:Hon.
    - by apply (IH (mkCutState _ (current_time st + time msg) _) Hcross).
    - apply (IH (mkCutState _ (current_time st + time msg) _) Hcross).
      simpl. rewrite held_notes_snoc, Hinv. unfold close_active, track_active.
      by rewrite Hon. }
  simpl. unfold held_notes. rewrite foldl_app. fold (held_notes (new_track st)).
  rewrite <- Hinv. apply close_all. intros kv Hkv.
  apply list_elem_of_fmap. by exists kv.
Qed.

(** When some message lies after the cut, the new track leaves no note
    hanging: a player that follows it holds no note at its end. *)
Theorem no_stuck_note_after_cut (cut : Z) (track : MidiTrack) :
  crosses cut track 0 = true →
  held_notes (cut_track cut track) = [].
Proof.
  intros Hcross. unfold cut_track. rewrite held_notes_snoc.
  rewrite (cut_loop_closes cut track cut_init Hcross eq_refl). done.
Qed.

End CutterMore.

(** ** The report writer *)

Module ReportMore.
Import Mido Report ReportShape.

Section ReportMoreFacts.
Variable pitchedCommonName : list Z → string.
Variable figure : list Z → string.

Lemma write_rows_shape (chord_at : Z → option (string * string)) (ticks : list Z)
    (trace : list fs_op) :
  ∃ rows tail,
    write_rows chord_at ticks trace = (None, trace ++ rows ++ tail) ∧
    Forall named_row rows ∧ (tail = [] ∨ tail = [fs_remove]).
Proof.
  revert trace. induction ticks as [|tick ticks IH]; intros trace.
  - exists [], []. simpl. rewrite app_nil_r. by auto.
  - simpl. destruct (chord_at tick) as [[name func]|].
    + destruct (String.eqb name "Rest") eqn:Hname.
      * exists [], [fs_remove]. by auto.
      * apply String.eqb_neq in Hname.
        destruct (IH (trace ++ [fs_write (Row tick name func)])) as (rows & tail & -> & Hrows & Htail).
        exists (fs_write (Row tick name func) :: rows), tail.
        rewrite <- !app_assoc. simpl. split; [done|]. split; [|done].
        by constructor.
    + exists [], []. rewrite app_nil_r. by auto.
Qed.

(** Whatever the input, the function either touches no file or opens
    the report, writes the header and then rows none of which is named
    "Rest", possibly removing the file as its very last action; when it
    returns [False] it has touched nothing. *)
Theorem report_shape (inp : analysis_input) :
  let run := save_harmonic_analysis pitchedCommonName figure inp in
  (run.2 = [] ∨
   ∃ rows tail, run = (None, header ++ rows ++ tail) ∧
     Forall named_row rows ∧ (tail = [] ∨ tail = [fs_remove])) ∧
  (run.1 = Some false → run.2 = []).
Proof.
  unfold save_harmonic_analysis.
  destruct (key_mode inp); [|by split; [left|]].
  destruct (file_type inp).
  - destruct (Sampler._get_sounding_notes_per_16th (mid inp)) as [[sounding_notes total]|];
      [|by split; [left|]].
    destruct (existsb too_thin sounding_notes); [by split; [left|]|].
    destruct (write_rows_shape (midi_chord pitchedCommonName figure sounding_notes)
                (Py.range total) header) as (rows & tail & Hrun & Hrows & Htail).
    rewrite Hrun. simpl. split; [right; by exists rows, tail|done].
  - destruct (existsb too_thin (chords_stream inp)); [by split; [left|]|].
    destruct (write_rows_shape (xml_chord pitchedCommonName figure inp)
                (Py.range (score_16ths inp)) header) as (rows & tail & Hrun & Hrows & Htail).
    rewrite Hrun. simpl. split; [right; by exists rows, tail|done].
  - destruct (existsb too_thin (chords_stream inp)); [by split; [left|]|].
    destruct (write_rows_shape (xml_chord pitchedCommonName figure inp)
                (Py.range (score_16ths inp)) header) as (rows & tail & Hrun & Hrows & Htail).
    rewrite Hrun. simpl. split; [right; by exists rows, tail|done].
Qed.

Lemma write_rows_complete (sounding_notes l : list (list Z)) (k : Z) (trace : list fs_op) :
  (∀ (i : nat) notes, l !! i = Some notes →
     midi_chord pitchedCommonName figure sounding_notes (k + Z.of_nat i) =
       Some (pitchedCommonName notes, figure notes) ∧
     pitchedCommonName notes ≠ "Rest") →
  write_rows (midi_chord pitchedCommonName figure sounding_notes)
             (seqZ k (Z.of_nat (length l))) trace =
    (None, trace ++ midi_rows pitchedCommonName figure k l).
Proof.
  revert k trace. induction l as [|notes l IH]; intros k trace Hl.
  - simpl. by rewrite app_nil_r.
  - rewrite seqZ_cons by (simpl; lia). simpl.
    destruct (Hl 0%nat notes eq_refl) as [Hchord Hname].
    rewrite Z.add_0_r in Hchord. rewrite Hchord.
    apply String.eqb_neq in Hname. rewrite Hname.
    replace (Z.pred (Z.of_nat (S (length l)))) with (Z.of_nat (length l)) by lia.
    rewrite IH.
    + unfold midi_rows. rewrite <- app_assoc. simpl. rewrite Z.add_0_r.
      do 3 f_equal. apply imap_ext. intros i x _. simpl. do 2 f_equal. lia.
    + intros i notes' Hi. specialize (Hl (S i) notes' Hi).
      replace (Z.succ k + Z.of_nat i) with (k + Z.of_nat (S i)) by lia. done.
Qed.

Lemma midi_report_trace (inp : analysis_input)
    (sounding_notes : list (list Z)) (total_16ths : Z) :
  (∀ notes, notes ≠ [] → pitchedCommonName notes ≠ "Rest") →
  file_type inp = MIDI → key_mode inp = major →
  Sampler._get_sounding_notes_per_16th (mid inp) = Some (sounding_notes, total_16ths) →
  Forall (λ notes, (3 ≤ length notes)%nat) sounding_notes →
  save_harmonic_analysis pitchedCommonName figure inp =
    (None, header ++ midi_rows pitchedCommonName figure 0 sounding_notes).
Proof.
  intros Hname Htype Hkey Hrun Hgate.
  pose proof (SamplerFacts.sampler_length _ _ _ Hrun) as Hlen.
  assert (0 ≤ total_16ths ∨ sounding_notes = []) as Htotal.
  { destruct sounding_notes; [by right|]. simpl in Hlen. lia. }
  unfold save_harmonic_analysis. rewrite Hkey, Htype, Hrun.
  assert (existsb too_thin sounding_notes = false) as ->.
  { destruct (existsb too_thin sounding_notes) eqn:Hex; [|done].
    apply ReportFacts.too_thin_exists in Hex as (notes & Hin & Hthin).
    rewrite Forall_forall in Hgate. specialize (Hgate notes Hin). lia. }
  unfold Py.range.
  assert (seqZ 0 total_16ths = seqZ 0 (Z.of_nat (length sounding_notes))) as ->.
  { rewrite Hlen. destruct (decide (0 ≤ total_16ths)).
    - by rewrite Z2Nat.id.
    - rewrite !seqZ_nil; [done|lia..]. }
  apply write_rows_complete. intros i notes Hi.
  rewrite Forall_forall in Hgate.
  pose proof (Hgate notes (list_elem_of_lookup_2 _ _ _ Hi)) as H3.
  assert (notes ≠ []) as Hne by (intros ->; simpl in H3; lia).
  split; [|by apply Hname].
  unfold midi_chord. rewrite Z.add_0_l, Nat2Z.id, Hi. by destruct notes.
Qed.

(** A MIDI file in a major key whose every subdivision has at least 3
    sounding pitches gets a complete report: the header, then one row
    per subdivision, in order, numbered from 0; nothing is removed and
    the function falls off its end.  music21 is taken to name no
    non-empty chord "Rest". *)
Theorem accepted_midi_report_complete (inp : analysis_input)
    (sounding_notes : list (list Z)) (total_16ths : Z) :
  (∀ notes, notes ≠ [] → pitchedCommonName notes ≠ "Rest") →
  file_type inp = MIDI → key_mode inp = major →
  Sampler._get_sounding_notes_per_16th (mid inp) = Some (sounding_notes, total_16ths) →
  Forall (λ notes, (3 ≤ length notes)%nat) sounding_notes →
  save_harmonic_analysis pitchedCommonName figure inp =
    (None, header ++ midi_rows pitchedCommonName figure 0 sounding_notes).
Proof. apply midi_report_trace. Qed.

Lemma write_rows_removes (chord_at : Z → option (string * string)) (ticks : list Z)
    (trace : list fs_op) (tick : Z) (func : string) :
  tick ∈ ticks → chord_at tick = Some ("Rest", func) →
  (∀ t, t ∈ ticks → chord_at t ≠ None) →
  last (write_rows chord_at ticks trace).2 = Some fs_remove.
Proof.
  revert trace. induction ticks as [|t ticks IH]; intros trace Hin Hrest Hsome.
  - by apply elem_of_nil in Hin.
  - simpl. destruct (chord_at t) as [[name f]|] eqn:Hchord.
    + destruct (String.eqb name "Rest") eqn:Hname.
      * simpl. by rewrite last_snoc.
      * apply IH; [|done|intros t' Ht'; apply Hsome; by right].
        apply elem_of_cons in Hin as [->|Hin]; [|done].
        rewrite Hchord in Hrest. by simplify_eq.
    + exfalso. by apply (Hsome t); [left|].
Qed.

(** On the path taken by every file that is not MIDI, one tick of the
    score without a sounding chord makes the function remove the
    report it was writing: removing it is the last thing it does. *)
Theorem silence_discards_report (inp : analysis_input) (tick : Z) :
  file_type inp ≠ MIDI → key_mode inp = major →
  Forall (λ element, (3 ≤ length element)%nat) (chords_stream inp) →
  0 ≤ tick < score_16ths inp → element_at inp tick = None →
  last (save_harmonic_analysis pitchedCommonName figure inp).2 = Some fs_remove.
Proof.
  intros Htype Hkey Hgate Htick Hnone. unfold save_harmonic_analysis. rewrite Hkey.
  assert (existsb too_thin (chords_stream inp) = false) as Hthin.
  { destruct (existsb too_thin (chords_stream inp)) eqn:Hex; [|done].
    apply ReportFacts.too_thin_exists in Hex as (notes & Hin & Hthin).
    rewrite Forall_forall in Hgate. specialize (Hgate notes Hin). lia. }
  assert (last (write_rows (xml_chord pitchedCommonName figure inp)
                  (Py.range (score_16ths inp)) header).2 = Some fs_remove) as Hlast.
  { apply (write_rows_removes _ _ _ tick "-").
    - unfold Py.range. apply elem_of_seqZ. lia.
    - unfold xml_chord. by rewrite Hnone.
    - intros t _. unfold xml_chord. by destruct (element_at inp t). }
  destruct (file_type inp); [done|by rewrite Hthin..].
Qed.

End ReportMoreFacts.

End ReportMore.

(** ** The chord classifier *)

Module ChordMore.
Import Chords Triads.

Lemma foldl_min_spec (l : list Z) (x : Z) :
  foldl Z.min x l ∈ x :: l ∧ Forall (λ y, foldl Z.min x l ≤ y) (x :: l).
Proof.
  revert x. induction l as [|y l IH]; intros x; simpl.
  - split; [left|]. constructor; [lia|constructor].
  - destruct (IH (Z.min x y)) as [Hin Hle].
    apply Forall_cons in Hle as [Hxy Hle]. split.
    + apply elem_of_cons in Hin as [Heq|Hin]; [|by do 2 right].
      rewrite Heq. destruct (Z.min_spec x y) as [[_ ->]|[_ ->]]; [left|right; left].
    + constructor; [lia|]. constructor; [lia|done].
Qed.

(** [min(notes)] is the least member of a non-empty set. *)
Lemma min_spec (notes : gset Z) (m : Z) :
  Py.min notes = Some m ↔ m ∈ notes ∧ ∀ x, x ∈ notes → m ≤ x.
Proof.
  unfold Py.min. destruct (elements notes) as [|x l] eqn:Hel.
  - apply elements_empty_inv in Hel. apply leibniz_equiv in Hel. subst.
    split; [done|]. intros [Hm _]. by apply not_elem_of_empty in Hm.
  - destruct (foldl_min_spec l x) as [Hin Hle]. rewrite <- Hel in Hin, Hle.
    rewrite elem_of_elements in Hin. rewrite Forall_forall in Hle.
    assert (∀ y, y ∈ notes → foldl Z.min x l ≤ y) as Hle'.
    { intros y Hy. apply Hle. by apply elem_of_elements. }
    split.
    + intros [= <-]. done.
    + intros [Hm Hleast]. f_equal.
      specialize (Hleast _ Hin). specialize (Hle' _ Hm). lia.
Qed.

Lemma min_is_Some (notes : gset Z) : notes ≠ ∅ → ∃ m, Py.min notes = Some m.
Proof.
  intros Hne. unfold Py.min. destruct (elements notes) as [|x l] eqn:Hel; [|by eexists].
  apply elements_empty_inv in Hel. apply leibniz_equiv in Hel. done.
Qed.

(** The label of a set of 1 to 4 notes only depends on its pitch
    classes and on the pitch class of its lowest note. *)
Lemma notes_to_chord_classes (notes : gset Z) (m : Z) :
  (size notes ≤ 4)%nat → Py.min notes = Some m →
  _notes_to_chord notes =
    Some (default (NOTES_at (m mod 12))
            (first_root (Py.sorted Z.leb (elements (pitch_classes notes)))
                        (pitch_classes notes) (m mod 12))).
Proof.
  intros Hsize Hmin. unfold _notes_to_chord.
  assert (notes ≠ ∅) as Hne.
  { intros ->. by vm_compute in Hmin. }
  rewrite bool_decide_eq_false_2 by done.
  assert ((4 <? size notes)%nat = false) as -> by (apply Nat.ltb_ge; lia).
  simpl. rewrite Hmin. by destruct (first_root _ _ _).
Qed.

Lemma label_some_iff (notes : gset Z) :
  is_Some (_notes_to_chord notes) ↔ (1 ≤ size notes ≤ 4)%nat.
Proof.
  split.
  - intros [label Hlabel]. unfold _notes_to_chord in Hlabel.
    destruct (bool_decide (notes = ∅)) eqn:Hempty; [done|].
    destruct (4 <? size notes)%nat eqn:Hsize; [done|].
    apply bool_decide_eq_false in Hempty. apply Nat.ltb_ge in Hsize.
    split; [|done]. destruct (size notes) eqn:Hs; [|lia].
    apply size_empty_inv in Hs. apply leibniz_equiv in Hs. done.
  - intros [Hone Hfour].
    assert (notes ≠ ∅) as Hne.
    { intros ->. rewrite size_empty in Hone. lia. }
    destruct (min_is_Some notes Hne) as [m Hmin].
    rewrite (notes_to_chord_classes notes m Hfour Hmin). by eexists.
Qed.

(** The classifier gives a label exactly to the sets of 1 to 4 notes. *)
Theorem label_iff_one_to_four (notes : gset Z) :
  is_Some (_notes_to_chord notes) ↔ (1 ≤ size notes ≤ 4)%nat.
Proof. apply label_some_iff. Qed.

Lemma semitones_range (k : interval) : 1 ≤ semitones k ≤ 11.
Proof. destruct k; simpl; lia. Qed.

Lemma find_chord_type_single (r : Z) : 0 ≤ r < 12 → _find_chord_type r {[ r ]} = None.
Proof.
  intros Hr.
  assert (∀ k, mem (_get_intervals r k) {[ r ]} = false) as Hmem.
  { intros k. apply bool_decide_eq_false. rewrite elem_of_singleton.
    unfold _get_intervals. pose proof (semitones_range k).
    intros Heq.
    destruct (decide (r + semitones k < 12)).
    - rewrite Z.mod_small in Heq by lia. lia.
    - assert ((r + semitones k) mod 12 = r + semitones k - 12) as Hmod.
      { symmetry. apply (Z.mod_unique _ _ 1); lia. }
      lia. }
  unfold _find_chord_type, _check_sus_chord, first_check, _check_major_chord,
    _check_minor_chord, _check_dim_chord, _check_aug_chord.
  rewrite !Hmem. done.
Qed.

(** A single note is labelled with the bare name of its pitch class. *)
Theorem single_note_label (n : Z) :
  _notes_to_chord {[ n ]} = Some (NOTES_at (n mod 12)).
Proof.
  assert (Py.min ({[ n ]} : gset Z) = Some n) as Hmin.
  { apply min_spec. split; [by apply elem_of_singleton|].
    intros x Hx. apply elem_of_singleton in Hx. lia. }
  rewrite (notes_to_chord_classes _ n); [|by rewrite size_singleton; lia|done].
  unfold pitch_classes. rewrite set_map_singleton_L, elements_singleton. simpl.
  rewrite find_chord_type_single by (apply Z.mod_pos_bound; lia). done.
Qed.

Lemma transpose_size (k : Z) (notes : gset Z) :
  size (transpose_octaves k notes) = size notes.
Proof.
  unfold transpose_octaves, set_map, size, set_size. simpl.
  rewrite elements_list_to_set.
  - by rewrite length_fmap.
  - apply NoDup_fmap_2; [|apply NoDup_elements]. intros x y. lia.
Qed.

Lemma transpose_classes (k : Z) (notes : gset Z) :
  pitch_classes (transpose_octaves k notes) = pitch_classes notes.
Proof.
  unfold pitch_classes, transpose_octaves. apply set_eq. intros x.
  rewrite !elem_of_map. split.
  - intros (y & -> & Hy). apply elem_of_map in Hy as (n & -> & Hn).
    exists n. split; [|done]. rewrite (Z.mul_comm 12). apply Z_mod_plus_full.
  - intros (n & -> & Hn). exists (n + 12 * k). split.
    + rewrite (Z.mul_comm 12). symmetry. apply Z_mod_plus_full.
    + apply elem_of_map. by exists n.
Qed.

Lemma transpose_min (k : Z) (notes : gset Z) (m : Z) :
  Py.min notes = Some m → Py.min (transpose_octaves k notes) = Some (m + 12 * k).
Proof.
  rewrite !min_spec. intros [Hm Hleast]. unfold transpose_octaves. split.
  - apply elem_of_map. by exists m.
  - intros x Hx. apply elem_of_map in Hx as (n & -> & Hn). specialize (Hleast n Hn). lia.
Qed.

(** Moving every note of a set by whole octaves does not change its
    label. *)
Theorem octave_invariance (k : Z) (notes : gset Z) :
  _notes_to_chord (transpose_octaves k notes) = _notes_to_chord notes.
Proof.
  destruct (decide (notes = ∅)) as [->|Hne].
  { unfold transpose_octaves. by rewrite set_map_empty. }
  destruct (decide (size notes ≤ 4)%nat) as [Hsize|Hsize].
  - destruct (min_is_Some notes Hne) as [m Hmin].
    rewrite (notes_to_chord_classes notes m Hsize Hmin).
    rewrite (notes_to_chord_classes _ (m + 12 * k));
      [|by rewrite transpose_size|by apply transpose_min].
    rewrite transpose_classes.
    by rewrite (Z.mul_comm 12), Z_mod_plus_full.
  - unfold _notes_to_chord. rewrite transpose_size.
    assert ((4 <? size notes)%nat = true) as -> by (apply Nat.ltb_lt; lia).
    by rewrite !orb_true_r.
Qed.

End ChordMore.

Module ChordMore2.
Import Chords Triads ChordReports.

(** A major, minor or diminished triad is recognised on its root in
    every inversion, octave and doubling that fits in four notes: the
    label is the root name with the quality suffix, followed by a slash
    and the bass name when the lowest note is not the root. *)
Theorem triads_in_every_inversion (q : triad) (r m : Z) (notes : gset Z) :
  0 ≤ r < 12 → (size notes ≤ 4)%nat →
  pitch_classes notes = triad_classes q r →
  Py.min notes = Some m →
  _notes_to_chord notes =
    Some (if bool_decide (m mod 12 ≠ r)
          then (NOTES_at r +:+ suffix q) +:+ "/" +:+ NOTES_at (m mod 12)
          else NOTES_at r +:+ suffix q).
Proof.
  intros Hr Hsize Hpc Hmin.
  rewrite (ChordMore.notes_to_chord_classes notes m Hsize Hmin), Hpc.
  assert (m mod 12 ∈ triad_classes q r) as Hb.
  { rewrite <- Hpc. unfold pitch_classes. apply elem_of_map. exists m.
    split; [done|]. by apply ChordMore.min_spec in Hmin as [? _]. }
  remember (m mod 12) as b eqn:Hbdef. clear Hbdef Hpc Hmin Hsize notes m.
  unfold triad_classes in Hb. rewrite !elem_of_union, !elem_of_singleton in Hb.
  assert (r = 0 ∨ r = 1 ∨ r = 2 ∨ r = 3 ∨ r = 4 ∨ r = 5 ∨ r = 6 ∨ r = 7 ∨ r = 8 ∨
          r = 9 ∨ r = 10 ∨ r = 11) as Hcases by lia.
  destruct_or!; subst; destruct q; vm_compute; reflexivity.
Qed.

Lemma bars_of_nil {A : Type} : bars_of (@nil A) = [].
Proof. done. Qed.

(** The comprehension of [get_chords_per_16th_by_bar] peels off 16
    labels at a time. *)
Lemma bars_of_cons {A : Type} (chords : list A) :
  chords ≠ [] → bars_of chords = take 16 chords :: bars_of (drop 16 chords).
Proof.
  intros Hne. unfold bars_of, range_step.
  assert (0 < length chords)%nat as Hlen by (destruct chords; [done|simpl; lia]).
  rewrite !Z.sub_0_r.
  assert ((Z.of_nat (length chords) + 16 - 1) / 16 =
          1 + (Z.of_nat (length (drop 16 chords)) + 16 - 1) / 16) as ->.
  { rewrite length_drop. destruct (decide (16 ≤ length chords)%nat).
    - replace (Z.of_nat (length chords) + 16 - 1)
        with (Z.of_nat (length chords - 16) + 16 - 1 + 1 * 16) by lia.
      rewrite Z.div_add by lia. lia.
    - replace (length chords - 16)%nat with 0%nat by lia.
      change ((Z.of_nat 0 + 16 - 1) / 16) with 0.
      symmetry. apply Z.div_unique with (r := Z.of_nat (length chords) - 1); lia. }
  rewrite seqZ_cons by (pose proof (Z.div_pos (Z.of_nat (length (drop 16 chords)) + 16 - 1) 16);
                        lia).
  rewrite !fmap_cons. f_equal.
  replace (Z.pred (1 + (Z.of_nat (length (drop 16 chords)) + 16 - 1) / 16))
    with ((Z.of_nat (length (drop 16 chords)) + 16 - 1) / 16) by lia.
  change (Z.succ 0) with (1 + 0). rewrite <- fmap_add_seqZ, <- !list_fmap_compose.
  apply list_fmap_ext. intros i k Hk. apply lookup_seqZ in Hk as [-> Hk]. simpl.
  unfold slice.
  replace (0 + (1 + (0 + Z.of_nat _)) * 16 + 16 - (0 + (1 + (0 + Z.of_nat _)) * 16))
    with 16 by lia.
  replace (0 + (0 + Z.of_nat _) * 16 + 16 - (0 + (0 + Z.of_nat _) * 16)) with 16 by lia.
  rewrite drop_drop. do 2 f_equal. lia.
Qed.

Lemma bars_shape {A : Type} (chords : list A) :
  concat (bars_of chords) = chords ∧
  Forall (λ bar, (1 ≤ length bar ≤ 16)%nat) (bars_of chords) ∧
  ∀ (i : nat) (bar : list A),
    bars_of chords !! i = Some bar → (S i < length (bars_of chords))%nat →
    length bar = 16%nat.
Proof.
  remember (length chords) as n eqn:Hn. revert chords Hn.
  induction n as [n IH] using lt_wf_ind. intros chords Hn.
  destruct (decide (chords = [])) as [->|Hne].
  { rewrite bars_of_nil. repeat split; [constructor|]. intros i bar Hi. done. }
  rewrite (bars_of_cons chords Hne).
  assert (0 < length chords)%nat as Hpos by (destruct chords; [done|simpl; lia]).
  destruct (IH (length (drop 16 chords)) ltac:(rewrite length_drop; lia)
              (drop 16 chords) eq_refl) as (Hconcat & Hlens & Hfull).
  split; [|split].
  - simpl. rewrite Hconcat. apply take_drop.
  - constructor; [|done]. rewrite length_take. lia.
  - intros [|i] bar Hi Hlast; simpl in Hi, Hlast.
    + simplify_eq. rewrite length_take.
      destruct (decide (drop 16 chords = [])) as [Hnil|Hnn].
      * rewrite Hnil, bars_of_nil in Hlast. simpl in Hlast. lia.
      * assert (0 < length (drop 16 chords))%nat as Hd
          by (destruct (drop 16 chords); [done|simpl; lia]).
        rewrite length_drop in Hd. lia.
    + apply (Hfull i bar Hi). lia.
Qed.

(** The bars returned by [get_chords_per_16th_by_bar] split the labels
    without losing or reordering any: their concatenation is the list
    of labels, no bar is empty or longer than 16, and every bar but the
    last holds exactly 16 labels. *)
Theorem bars_partition {A : Type} (chords : list A) :
  concat (bars_of chords) = chords ∧
  Forall (λ bar, (1 ≤ length bar ≤ 16)%nat) (bars_of chords) ∧
  ∀ (i : nat) (bar : list A),
    bars_of chords !! i = Some bar → (S i < length (bars_of chords))%nat →
    length bar = 16%nat.
Proof. apply bars_shape. Qed.

End ChordMore2.

Module MoreWitnesses.
Import Mido.

Lemma merged_stream_witness :
  Sampler.tick (Sampler.mkEvent Sampler.on 0 60) ≤ Sampler.tick (Sampler.mkEvent Sampler.on 2 67).
Proof.
  apply (proj2 (SamplerMore.merged_stream_complete_and_ordered Inputs.demo) 0%nat 3%nat);
    [reflexivity|reflexivity|lia].
Defined.

Lemma samples_ascending_witness :
  StronglySorted Z.lt [64; 67] ∧
  ∀ n, n ∈ [64; 67] ↔ n ∈ Sampler.active_at Inputs.demo (Z.of_nat 2).
Proof.
  apply (SamplerMore.samples_strictly_ascending Inputs.demo
           [[60; 64]; [60; 64]; [64; 67]; [64; 67]] 4 2%nat [64; 67]).
  - vm_compute. reflexivity.
  - reflexivity.
Defined.

Lemma sampler_edge_witness :
  Sampler._get_sounding_notes_per_16th Inputs.meta_only = Some ([], 0).
Proof.
  apply (proj2 (SamplerMore.sampler_edge_cases Inputs.meta_only)).
  - discriminate.
  - repeat constructor.
Defined.

Lemma runs_tile_witness :
  Runs.tiles 0 (Cadence.get_chord_events Inputs.scenario) (0 + Z.of_nat 12) ∧
  foldr Z.add 0 (Cadence.duration <$> Cadence.get_chord_events Inputs.scenario) = Z.of_nat 12.
Proof.
  apply (CadenceMore.runs_tile_timeline Inputs.scenario (Cadence.mkSample 0 "V")).
  - vm_compute. repeat split.
  - reflexivity.
Defined.

Lemma cadences_on_beats_witness :
  (∀ t, t ∈ [4] ∨ t ∈ [] → t mod 4 = 0 ∧ 0 < t < 0 + Z.of_nat 12) ∧
  StronglySorted Z.lt [4] ∧ StronglySorted Z.lt [] ∧ (∀ t, t ∈ [4] → t ∉ []).
Proof.
  apply (CadenceMore.cadences_on_beats Inputs.scenario (Cadence.mkSample 0 "V") [4] []).
  - vm_compute. repeat split.
  - reflexivity.
  - vm_compute. reflexivity.
Defined.

Lemma cut_after_end_witness :
  Cutter.cut_track 30 Inputs.held_note = Inputs.held_note ++ [Cutter.end_of_track].
Proof.
  apply (proj2 (CutterMore.cut_without_later_message 30 Inputs.held_note
                  ltac:(repeat constructor; simpl; lia))).
  repeat constructor; simpl; lia.
Defined.

Lemma cut_track_bounded_witness :
  well_formed_track (Cutter.cut_track 10 Inputs.tied_over) ∧
  elapsed (Cutter.cut_track 10 Inputs.tied_over) ≤ 10.
Proof.
  apply (CutterMore.cut_track_bounded 10 Inputs.tied_over); [lia|].
  repeat constructor; simpl; lia.
Defined.

Lemma cut_track_duration_witness :
  elapsed (Cutter.cut_track 10 Inputs.held_note) = 10.
Proof.
  apply (proj2 (CutterMore.cut_track_duration 10 Inputs.held_note eq_refl
                  ltac:(discriminate))).
  repeat constructor; simpl; lia.
Defined.

Lemma no_note_on_witness : 0 < 10.
Proof.
  apply (CutterMore.no_note_on_from_cut 10 Inputs.tied_over 0 (NoteOn 0 60 64 0)).
  - repeat constructor; simpl; lia.
  - apply (list_elem_of_lookup_2 _ 0%nat). reflexivity.
  - reflexivity.
Defined.

Lemma no_stuck_note_witness :
  Tracker.held_notes (Cutter.cut_track 10 Inputs.tied_over) = [].
Proof. apply (CutterMore.no_stuck_note_after_cut 10 Inputs.tied_over). reflexivity. Defined.

Lemma report_shape_witness :
  (Report.save_harmonic_analysis Inputs.name_of Inputs.figure_of Inputs.thin_input).2 = [].
Proof.
  apply (proj2 (ReportMore.report_shape Inputs.name_of Inputs.figure_of Inputs.thin_input)).
  vm_compute. reflexivity.
Defined.

Lemma complete_report_witness :
  Report.save_harmonic_analysis Inputs.name_of Inputs.figure_of Inputs.triad_input =
    (None, Report.header ++
           ReportShape.midi_rows Inputs.name_of Inputs.figure_of 0
             [[60; 64; 67]; [60; 64; 67]; [60; 64; 67]; [60; 64; 67]]).
Proof.
  apply (ReportMore.accepted_midi_report_complete Inputs.name_of Inputs.figure_of
           Inputs.triad_input _ 4).
  - intros notes _. discriminate.
  - reflexivity.
  - reflexivity.
  - vm_compute. reflexivity.
  - repeat constructor.
Defined.

Lemma silence_witness :
  last (Report.save_harmonic_analysis Inputs.name_of Inputs.figure_of Inputs.silent_score).2
    = Some Report.fs_remove.
Proof.
  apply (ReportMore.silence_discards_report Inputs.name_of Inputs.figure_of
           Inputs.silent_score 1).
  - discriminate.
  - reflexivity.
  - repeat constructor.
  - simpl. lia.
  - reflexivity.
Defined.

Lemma triad_witness :
  Chords._notes_to_chord Inputs.six_four = Some "C/G".
Proof.
  apply (ChordMore2.triads_in_every_inversion Triads.Major 0 55 Inputs.six_four).
  - lia.
  - vm_compute. lia.
  - vm_compute. reflexivity.
  - vm_compute. reflexivity.
Defined.

Lemma bars_witness :
  length (seqZ 0 16) = 16%nat.
Proof.
  apply (proj2 (proj2 (ChordMore2.bars_partition Inputs.twenty)) 0%nat (seqZ 0 16)).
  - reflexivity.
  - vm_compute. lia.
Defined.

End MoreWitnesses.

Module ChordMore3.
Import Chords Triads Sevenths.

(** With candidate roots tried in ascending pitch-class order, a
    dominant seventh chord is labelled as such only on the roots C to
    G; on G#, A, A# and B the diminished triad on its third comes first
    and the chord is labelled with that triad. *)
Theorem dominant_seventh_labels (r m : Z) (notes : gset Z) :
  0 ≤ r < 12 → (size notes ≤ 4)%nat →
  pitch_classes notes = dominant_seventh r →
  Py.min notes = Some m →
  _notes_to_chord notes =
    Some (if r <? 8 then slash (NOTES_at r +:+ "7") r (m mod 12)
          else slash (NOTES_at ((r + 4) mod 12) +:+ "dim") ((r + 4) mod 12) (m mod 12)).
Proof.
  intros Hr Hsize Hpc Hmin.
  rewrite (ChordMore.notes_to_chord_classes notes m Hsize Hmin), Hpc.
  assert (m mod 12 ∈ dominant_seventh r) as Hb.
  { rewrite <- Hpc. unfold pitch_classes. apply elem_of_map. exists m.
    split; [done|]. by apply ChordMore.min_spec in Hmin as [? _]. }
  remember (m mod 12) as b eqn:Hbdef. clear Hbdef Hpc Hmin Hsize notes m.
  unfold dominant_seventh in Hb. rewrite !elem_of_union, !elem_of_singleton in Hb.
  assert (r = 0 ∨ r = 1 ∨ r = 2 ∨ r = 3 ∨ r = 4 ∨ r = 5 ∨ r = 6 ∨ r = 7 ∨ r = 8 ∨
          r = 9 ∨ r = 10 ∨ r = 11) as Hcases by lia.
  destruct_or!; subst; vm_compute; reflexivity.
Qed.

Lemma NOTES_at_first (r : Z) :
  0 ≤ r < 12 → ∃ c s, NOTES_at r = String c s ∧ c ∈ ["A"; "B"; "C"; "D"; "E"; "F"; "G"]%char.
Proof.
  intros Hr.
  assert (r = 0 ∨ r = 1 ∨ r = 2 ∨ r = 3 ∨ r = 4 ∨ r = 5 ∨ r = 6 ∨ r = 7 ∨ r = 8 ∨
          r = 9 ∨ r = 10 ∨ r = 11) as Hcases by lia.
  destruct_or!; subst; eexists _, _; (split; [reflexivity|]);
    rewrite !elem_of_cons; tauto.
Qed.

Lemma first_char_app (s1 s2 : string) (c : ascii) :
  first_char s1 = Some c → first_char (s1 +:+ s2) = Some c.
Proof. by destruct s1. Qed.

Lemma with_tensions_first (base : string) (tensions : list string) (c : ascii) :
  first_char base = Some c → first_char (with_tensions base tensions) = Some c.
Proof. intros Hc. destruct tensions; [done|]. by apply first_char_app. Qed.

(** Every name [_find_chord_type] builds starts with the name of the
    candidate root. *)
Lemma find_chord_type_first (r : Z) (pc : gset Z) (label : string) :
  _find_chord_type r pc = Some label →
  first_char label = first_char (NOTES_at r) ∨ first_char (NOTES_at r) = None.
Proof.
  intros Hfind. destruct (first_char (NOTES_at r)) as [c|] eqn:Hc; [|by right]. left.
  revert Hfind. unfold _find_chord_type, _check_sus_chord, first_check, _check_major_chord,
    _check_minor_chord, _check_dim_chord, _check_aug_chord.
  repeat (case_match; simpl; try done); intros [= <-];
    repeat (first [apply with_tensions_first | apply first_char_app]); done.
Qed.

Lemma label_facts (notes : gset Z) (label : string) :
  _notes_to_chord notes = Some label →
  (∃ r c, r ∈ pitch_classes notes ∧ first_char (NOTES_at r) = Some c ∧
          first_char label = Some c ∧
          c ∈ ["A"; "B"; "C"; "D"; "E"; "F"; "G"]%char) ∧
  or_rest (Some label) = label ∧ label ≠ "rest".
Proof.
  intros Hlabel.
  assert (∃ r c, r ∈ pitch_classes notes ∧ first_char (NOTES_at r) = Some c ∧
          first_char label = Some c ∧
          c ∈ ["A"; "B"; "C"; "D"; "E"; "F"; "G"]%char) as Hfirst.
  { assert (∀ r, r ∈ pitch_classes notes → 0 ≤ r < 12) as Hrange.
    { intros r Hr. unfold pitch_classes in Hr. apply elem_of_map in Hr as (n & -> & _).
      apply Z.mod_pos_bound. lia. }
    unfold _notes_to_chord in Hlabel.
    destruct (bool_decide (notes = ∅) || (4 <? size notes)%nat); [done|].
    destruct (Py.min notes) as [m|] eqn:Hmin; [|done].
    assert (m mod 12 ∈ pitch_classes notes) as Hbass.
    { unfold pitch_classes. apply elem_of_map. exists m. split; [done|].
      by apply ChordMore.min_spec in Hmin as [? _]. }
    destruct (first_root _ _ _) as [found|] eqn:Hroot.
    - simplify_eq.
      assert (∀ roots, (∀ r, r ∈ roots → r ∈ pitch_classes notes) →
                first_root roots (pitch_classes notes) (m mod 12) = Some label →
                ∃ r c, r ∈ pitch_classes notes ∧ first_char (NOTES_at r) = Some c ∧
                       first_char label = Some c ∧
                       c ∈ ["A"; "B"; "C"; "D"; "E"; "F"; "G"]%char) as Hloop.
      { clear Hroot. induction roots as [|r roots IH]; intros Hroots Hfound; [done|].
        simpl in Hfound.
        destruct (truthy (_find_chord_type r (pitch_classes notes))) eqn:Htruthy.
        - destruct (_find_chord_type r (pitch_classes notes)) as [c0|] eqn:Hfind; [|done].
          assert (r ∈ pitch_classes notes) as Hr by (apply Hroots; left).
          destruct (NOTES_at_first r (Hrange r Hr)) as (c & s & Hname & Hc).
          exists r, c. split; [done|]. split; [by rewrite Hname|]. split; [|done].
          destruct (find_chord_type_first _ _ _ Hfind) as [Hf|Hf];
            [|by rewrite Hname in Hf].
          rewrite Hname in Hf. simpl in Hf.
          simplify_eq. destruct (bool_decide (m mod 12 ≠ r)); [|done].
          by apply first_char_app.
        - apply IH; [|done]. intros r' Hr'. apply Hroots. by right. }
      apply (Hloop (Py.sorted Z.leb (elements (pitch_classes notes)))); [|done].
      intros r Hr.
      by apply PyFacts.elem_of_sorted, elem_of_elements in Hr.
    - simplify_eq.
      destruct (NOTES_at_first (m mod 12) (Hrange _ Hbass)) as (c & s & Hname & Hc).
      exists (m mod 12), c. by rewrite Hname. }
  split; [exact Hfirst|].
  destruct Hfirst as (r & c & _ & _ & Hc & Hletter).
  destruct label as [|c' label]; [done|]. simpl in Hc. simplify_eq.
  split.
  - done.
  - intros [= -> _]. rewrite !elem_of_cons in Hletter.
    destruct_or!; try discriminate. by apply elem_of_nil in Hletter.
Qed.

(** A label always starts with a letter from A to G, the first letter
    of the name of a pitch class that occurs in the note set; so it is
    never empty and never the word the writers print for [None]. *)
Theorem label_starts_with_note_name (notes : gset Z) (label : string) :
  _notes_to_chord notes = Some label →
  (∃ r c, r ∈ pitch_classes notes ∧ first_char (NOTES_at r) = Some c ∧
          first_char label = Some c ∧
          c ∈ ["A"; "B"; "C"; "D"; "E"; "F"; "G"]%char) ∧
  or_rest (Some label) = label ∧ label ≠ "rest".
Proof. apply label_facts. Qed.

(** In the output of [_extract_chords], entry [i] is the label of
    the piano-range pitches sounding at the instant the code computes
    for step [i], [i * step_ms] in its own arithmetic, and it is
    printed as "rest" exactly when no such pitch sounds there or more
    than four different ones do. *)
Theorem rest_iff_silent_or_crowded {num : Type} {arithmetic : Arithmetic num}
    (tick_to_ms : Z → num) (md : MidiDict) (tempo : option num)
    (chords : list (option string)) (i : nat) (label : option string) :
  _extract_chords tick_to_ms md tempo = Some chords →
  chords !! i = Some label →
  ∃ tempo' step_ms, effective_tempo md tempo = Some tempo' ∧
    step_of tempo' = Some step_ms ∧
    let sounding :=
      notes_at tick_to_ms (note_msgs md) (num_mul (of_int (Z.of_nat i)) step_ms) in
    label = _notes_to_chord sounding ∧
    (∀ n, n ∈ sounding ↔
       ∃ msg, msg ∈ note_msgs md ∧ pitch msg = n ∧ 21 ≤ n ≤ 108 ∧
              num_le (tick_to_ms (start msg)) (num_mul (of_int (Z.of_nat i)) step_ms) = true ∧
              num_lt (num_mul (of_int (Z.of_nat i)) step_ms) (tick_to_ms (end_ msg)) = true) ∧
    (or_rest label = "rest" ↔ sounding = ∅ ∨ (4 < size sounding)%nat).
Proof.
  intros Hrun Hi.
  destruct (ChordFacts.extract_chords_inv tick_to_ms md tempo chords i label Hrun Hi)
    as (tempo' & step_ms & Htempo & Hstep & Hlabel).
  exists tempo', step_ms. split; [done|]. split; [done|]. simpl. split; [done|].
  split.
  { intros n. unfold notes_at, sounding, in_piano_range.
    rewrite elem_of_list_to_set, list_elem_of_fmap. split.
    - intros (msg & -> & Hmsg). apply list_elem_of_filter in Hmsg as [Hmsg Hin].
      apply andb_prop_elim in Hmsg as [Hs Hr].
      apply andb_prop_elim in Hs as [Hs1 Hs2]. apply andb_prop_elim in Hr as [Hr1 Hr2].
      apply Is_true_true in Hs1, Hs2, Hr1, Hr2.
      exists msg. split_and!; [done|done|lia|lia|done|done].
    - intros (msg & Hin & <- & Hr & Hs1 & Hs2). exists msg. split; [done|].
      apply list_elem_of_filter. split; [|done].
      rewrite Hs1, Hs2. simpl. apply Is_true_true. apply andb_true_intro. split; lia. }
  set (sounding := notes_at _ _ _) in *.
  pose proof (ChordMore.label_some_iff sounding) as Hsome.
  assert (sounding = ∅ ↔ size sounding = 0%nat) as Hempty.
  { split; [intros ->; apply size_empty|].
    intros H0. apply size_empty_inv in H0. by apply leibniz_equiv in H0. }
  destruct label as [l|].
  - symmetry in Hlabel. destruct (label_facts sounding l Hlabel) as (_ & Hprint & Hne).
    rewrite Hprint. split; [done|].
    assert (is_Some (_notes_to_chord sounding)) as Hs by (by rewrite Hlabel).
    apply Hsome in Hs. rewrite Hempty. lia.
  - split; [|done]. intros _.
    destruct (decide (1 ≤ size sounding ≤ 4)%nat) as [Hin|Hout].
    + apply Hsome in Hin as [l Hl]. congruence.
    + rewrite Hempty. lia.
Qed.

End ChordMore3.

Module WriterFacts.
Import Chords ChordReports Printed.

Lemma printed_labels_app (l1 l2 : list out_line) :
  printed_labels (l1 ++ l2) = printed_labels l1 ++ printed_labels l2.
Proof. unfold printed_labels. apply omap_app. Qed.

Lemma headings_app (l1 l2 : list out_line) :
  headings (l1 ++ l2) = headings l1 ++ headings l2.
Proof. unfold headings. apply omap_app. Qed.

Lemma printed_labels_cons (x : out_line) (l : list out_line) :
  printed_labels (x :: l) =
    match x with
    | Numbered _ label | In_bar _ label => label :: printed_labels l
    | Bar_heading _ => printed_labels l
    end.
Proof. by destruct x. Qed.

Lemma headings_cons (x : out_line) (l : list out_line) :
  headings (x :: l) =
    match x with
    | Bar_heading bar => bar :: headings l
    | _ => headings l
    end.
Proof. by destruct x. Qed.

Lemma printed_numbered (f : nat → option string → out_line) (chords : list (option string)) :
  (∀ i c, ∃ k, f i c = Numbered k (or_rest c) ∨ f i c = In_bar k (or_rest c)) →
  printed_labels (imap f chords) = or_rest <$> chords ∧ headings (imap f chords) = [].
Proof.
  revert f. induction chords as [|c chords IH]; intros f Hf; [done|].
  rewrite imap_cons, printed_labels_cons, headings_cons, fmap_cons.
  destruct (IH (f ∘ S)) as [-> ->]; [intros i c'; apply Hf|].
  destruct (Hf 0%nat c) as [k [-> | ->]]; done.
Qed.

Lemma printed_bars (f : nat → list (option string) → list out_line) (g : nat → Z)
    (bars : list (list (option string))) :
  (∀ i bar, printed_labels (f i bar) = or_rest <$> bar ∧ headings (f i bar) = [g i]) →
  printed_labels (concat (imap f bars)) = or_rest <$> concat bars ∧
  headings (concat (imap f bars)) = imap (λ i _, g i) bars.
Proof.
  revert f g. induction bars as [|bar bars IH]; intros f g Hf; [done|].
  rewrite !imap_cons. simpl concat.
  rewrite printed_labels_app, headings_app, fmap_app.
  destruct (Hf 0%nat bar) as [-> ->].
  destruct (IH (f ∘ S) (g ∘ S)) as [-> Hh]; [intros i b; apply Hf|].
  split; [done|]. rewrite Hh. done.
Qed.

Lemma numbers_from (b : Z) (chords : list (option string)) :
  numbers (imap (λ i c, Numbered (b + Z.of_nat i + 1) (or_rest c)) chords) =
  seqZ (b + 1) (Z.of_nat (length chords)).
Proof.
  revert b. induction chords as [|c chords IH]; intros b; [done|].
  rewrite imap_cons.
  assert (imap ((λ i c, Numbered (b + Z.of_nat i + 1) (or_rest c)) ∘ S) chords =
          imap (λ i c, Numbered (b + 1 + Z.of_nat i + 1) (or_rest c)) chords) as ->.
  { apply imap_ext. intros i x _. simpl. f_equal. lia. }
  cbn [numbers omap list_omap]. change (list_omap ?f ?l) with (omap f l).
  fold (numbers (imap (λ i c, Numbered (b + 1 + Z.of_nat i + 1) (or_rest c)) chords)).
  rewrite IH. rewrite (seqZ_cons (b + 1)) by (simpl; lia).
  f_equal; [lia|]. f_equal; simpl; lia.
Qed.

Lemma located_in_bar (cur o : Z) (bar : list (option string)) (rest : list out_line) :
  located cur (imap (λ j c, In_bar (o + Z.of_nat j + 1) (or_rest c)) bar ++ rest) =
  ((λ j, (cur, j + 1)) <$> seqZ o (Z.of_nat (length bar))) ++ located cur rest.
Proof.
  revert o. induction bar as [|c bar IH]; intros o; [done|].
  rewrite imap_cons.
  assert (imap ((λ j c, In_bar (o + Z.of_nat j + 1) (or_rest c)) ∘ S) bar =
          imap (λ j c, In_bar (o + 1 + Z.of_nat j + 1) (or_rest c)) bar) as ->.
  { apply imap_ext. intros i x _. simpl. f_equal. lia. }
  cbn [app located]. rewrite IH. rewrite (seqZ_cons o) by (simpl; lia).
  rewrite fmap_cons. cbn [app]. f_equal; [f_equal; lia|].
  do 3 f_equal; simpl; lia.
Qed.

Lemma located_bars (n : nat) (chords : list (option string)) (b cur : Z) :
  length chords = n →
  located cur
    (concat (imap (λ i bar, Bar_heading (b + Z.of_nat i + 1) ::
                            imap (λ j c, In_bar (Z.of_nat j + 1) (or_rest c)) bar)
                  (bars_of chords))) =
  (λ k, (b + k / 16 + 1, k mod 16 + 1)) <$> seqZ 0 (Z.of_nat (length chords)).
Proof.
  revert chords b cur. induction n as [n IH] using lt_wf_ind. intros chords b cur Hn.
  destruct (decide (chords = [])) as [->|Hne]; [done|].
  rewrite (ChordMore2.bars_of_cons chords Hne), imap_cons.
  assert (0 < length chords)%nat as Hpos by (destruct chords; [done|simpl; lia]).
  assert (imap ((λ i bar, Bar_heading (b + Z.of_nat i + 1) ::
                          imap (λ j c, In_bar (Z.of_nat j + 1) (or_rest c)) bar) ∘ S)
               (bars_of (drop 16 chords)) =
          imap (λ i bar, Bar_heading (b + 1 + Z.of_nat i + 1) ::
                         imap (λ j c, In_bar (Z.of_nat j + 1) (or_rest c)) bar)
               (bars_of (drop 16 chords))) as ->.
  { apply imap_ext. intros i x _. simpl. do 2 f_equal. lia. }
  cbn [concat app located].
  assert (imap (λ j c, In_bar (Z.of_nat j + 1) (or_rest c)) (take 16 chords) =
          imap (λ j c, In_bar (0 + Z.of_nat j + 1) (or_rest c)) (take 16 chords)) as ->.
  { apply imap_ext. intros i x _. simpl. f_equal. }
  rewrite located_in_bar.
  rewrite (IH (length (drop 16 chords)) ltac:(rewrite length_drop; lia)
              (drop 16 chords) (b + 1) _ eq_refl).
  rewrite length_take, length_drop.
  replace (Z.of_nat (length chords))
    with (Z.of_nat (16 `min` length chords) + Z.of_nat (length chords - 16)) by lia.
  rewrite seqZ_app, fmap_app by lia. f_equal.
  - apply list_fmap_ext. intros i k Hk. apply lookup_seqZ in Hk as [-> Hk].
    rewrite Z.div_small, Z.mod_small by lia. f_equal; lia.
  - destruct (decide (length chords ≤ 16)%nat) as [Hle|Hgt].
    { by replace (length chords - 16)%nat with 0%nat by lia. }
    replace (16 `min` length chords)%nat with 16%nat by lia.
    change (Z.of_nat 16) with 16. replace (0 + 16) with (16 + 0) by lia.
    rewrite <- fmap_add_seqZ, <- list_fmap_compose.
    apply list_fmap_ext. intros i k Hk. apply lookup_seqZ in Hk as [-> Hk].
    unfold compose.
    replace (16 + (0 + Z.of_nat i)) with (0 + Z.of_nat i + 1 * 16) by lia.
    rewrite Z.div_add, Z_mod_plus_full by lia. f_equal. lia.
Qed.

(** Both writers print the same labels in the same order, "rest"
    standing for a missing label, and both fail on the same inputs.
    The flat writer numbers its lines 1, 2, 3, ...; the by-bar writer
    adds one heading per bar, numbered from 1, and prints the label the
    flat writer numbers [k + 1] under heading [k / 16 + 1] as its
    sixteenth number [k mod 16 + 1]. *)
Theorem writers_agree {num : Type} {arithmetic : Arithmetic num}
    (tick_to_ms : Z → num) (md : MidiDict) (tempo : option num) :
  match get_chords_per_16th tick_to_ms md tempo,
        get_chords_per_16th_by_bar tick_to_ms md tempo with
  | Some (lines, chords), Some (bar_lines, bars) =>
      printed_labels lines = or_rest <$> chords ∧
      printed_labels bar_lines = printed_labels lines ∧
      concat bars = chords ∧
      headings bar_lines = imap (λ i _, Z.of_nat i + 1) bars ∧
      numbers lines = seqZ 1 (Z.of_nat (length chords)) ∧
      located 0 bar_lines =
        (λ k, (k / 16 + 1, k mod 16 + 1)) <$> seqZ 0 (Z.of_nat (length chords))
  | None, None => _extract_chords tick_to_ms md tempo = None
  | _, _ => False
  end.
Proof.
  unfold get_chords_per_16th, get_chords_per_16th_by_bar.
  destruct (_extract_chords tick_to_ms md tempo) as [chords|]; [|done].
  assert ((λ p : Z * option string, Numbered (p.1 + 1) (or_rest p.2)) <$> enumerate chords =
          imap (λ i c, Numbered (Z.of_nat i + 1) (or_rest c)) chords) as ->.
  { unfold enumerate. by rewrite fmap_imap. }
  assert (∀ bar : list (option string),
            (λ q : Z * option string, In_bar (q.1 + 1) (or_rest q.2)) <$> enumerate bar =
            imap (λ j c, In_bar (Z.of_nat j + 1) (or_rest c)) bar) as Hbar.
  { intros bar. unfold enumerate. by rewrite fmap_imap. }
  assert ((λ p : Z * list (option string),
             Bar_heading (p.1 + 1) ::
             ((λ q : Z * option string, In_bar (q.1 + 1) (or_rest q.2)) <$> enumerate p.2))
            <$> enumerate (bars_of chords) =
          imap (λ i bar, Bar_heading (Z.of_nat i + 1) ::
                         imap (λ j c, In_bar (Z.of_nat j + 1) (or_rest c)) bar)
               (bars_of chords)) as ->.
  { unfold enumerate at 2. rewrite fmap_imap. apply imap_ext. intros i bar _. simpl.
    by rewrite Hbar. }
  destruct (printed_numbered (λ i c, Numbered (Z.of_nat i + 1) (or_rest c)) chords)
    as [Hplain _]; [intros i c; eexists; by left|].
  destruct (printed_bars
              (λ i bar, Bar_heading (Z.of_nat i + 1) ::
                        imap (λ j c, In_bar (Z.of_nat j + 1) (or_rest c)) bar)
              (λ i, Z.of_nat i + 1) (bars_of chords)) as [Hbars Hheadings].
  { intros i bar.
    destruct (printed_numbered (λ j c, In_bar (Z.of_nat j + 1) (or_rest c)) bar)
      as [Hl Hh]; [intros j c; eexists; by right|].
    by rewrite printed_labels_cons, headings_cons, Hl, Hh. }
  destruct (ChordMore2.bars_shape chords) as (Hconcat & _ & _).
  split; [exact Hplain|]. split; [|split; [exact Hconcat|split; [exact Hheadings|]]].
  { rewrite Hbars, Hconcat. symmetry. exact Hplain. }
  split.
  - exact (numbers_from 0 chords).
  - exact (located_bars (length chords) chords 0 0 eq_refl).
Qed.

End WriterFacts.

(** * Reading a report back *)

Module TextFacts.
Import Report Text Readable.

Lemma lstrip_app_nonspace (a : text) (c : ascii) (b : text) :
  isspace c = false → lstrip (a ++ c :: b) = lstrip a ++ c :: b.
Proof.
  intros Hc. induction a as [|x a IH]; simpl.
  - by rewrite Hc.
  - destruct (isspace x); [exact IH | reflexivity].
Qed.

Lemma rstrip_app_nonspace (x : text) (c : ascii) (g : text) :
  isspace c = false → rstrip (x ++ c :: g) = x ++ c :: rstrip g.
Proof.
  intros Hc. unfold rstrip.
  rewrite reverse_app, reverse_cons, <- (assoc_L (++)). simpl.
  rewrite lstrip_app_nonspace by done.
  rewrite reverse_app, reverse_cons, reverse_involutive.
  by rewrite <- (assoc_L (++)).
Qed.

Lemma rstrip_cons_nonspace (c : ascii) (g : text) :
  isspace c = false → rstrip (c :: g) = c :: rstrip g.
Proof. apply (rstrip_app_nonspace []). Qed.

Lemma rstrip_snoc_space (g : text) (c : ascii) :
  isspace c = true → rstrip (g ++ [c]) = rstrip g.
Proof. intros Hc. unfold rstrip. rewrite reverse_snoc. simpl. by rewrite Hc. Qed.

Lemma lstrip_id (s : text) :
  (∀ c, c ∈ s → isspace c = false) → lstrip s = s.
Proof.
  destruct s as [|c s]; [done|]. intros Hs. simpl.
  by rewrite (Hs c) by left.
Qed.

Lemma lstrip_id_head (c : ascii) (s : text) :
  isspace c = false → lstrip (c :: s) = c :: s.
Proof. intros Hc. simpl. by rewrite Hc. Qed.

Lemma rstrip_id (s : text) :
  (∀ c, c ∈ s → isspace c = false) → rstrip s = s.
Proof.
  intros Hs. unfold rstrip. rewrite lstrip_id, reverse_involutive; [done|].
  intros c Hc. apply Hs. by apply elem_of_reverse.
Qed.

Lemma lstrip_spec (s : text) :
  ∃ sp, s = sp ++ lstrip s ∧ lstrip sp = [] ∧
        match lstrip s with c :: _ => isspace c = false | [] => True end.
Proof.
  induction s as [|c s (sp & Hs & Hsp & Hhd)]; simpl.
  - by exists [].
  - destruct (isspace c) eqn:Hc.
    + exists (c :: sp). simpl. rewrite Hc. split_and!; [by f_equal | done | done].
    + by exists [].
Qed.

Lemma lstrip_idemp (s : text) : lstrip (lstrip s) = lstrip s.
Proof.
  induction s as [|c s IH]; simpl; [done|].
  destruct (isspace c) eqn:Hc; [done|]. simpl. by rewrite Hc.
Qed.

Lemma rstrip_idemp (s : text) : rstrip (rstrip s) = rstrip s.
Proof. unfold rstrip. by rewrite reverse_involutive, lstrip_idemp. Qed.

Lemma rstrip_prefix (g : text) : ∃ w, g = rstrip g ++ w.
Proof.
  destruct (lstrip_spec (reverse g)) as (sp & Hg & _).
  exists (reverse sp). unfold rstrip.
  rewrite <- reverse_app, <- Hg. by rewrite reverse_involutive.
Qed.

Lemma rstrip_spaces (sp : text) : lstrip sp = [] → rstrip sp = [].
Proof.
  intros Hsp. unfold rstrip.
  assert (∀ s : text, lstrip s = [] → ∀ c, c ∈ s → isspace c = true) as Hall.
  { clear. induction s as [|x s IH]; simpl; intros Hs c Hc.
    - by apply elem_of_nil in Hc.
    - destruct (isspace x) eqn:Hx; [|done].
      apply elem_of_cons in Hc as [->|Hc]; [done | by apply IH]. }
  assert (∀ s : text, (∀ c, c ∈ s → isspace c = true) → lstrip s = []) as Hnil.
  { clear. induction s as [|x s IH]; simpl; intros Hs; [done|].
    rewrite (Hs x) by left. apply IH. intros c Hc. apply Hs. by right. }
  rewrite Hnil; [done|].
  intros c Hc. apply (Hall sp Hsp). by apply elem_of_reverse.
Qed.

Lemma strip_rstrip (g : text) : strip (rstrip g) = strip g.
Proof.
  unfold strip.
  destruct (lstrip_spec g) as (sp & Hg & Hsp & Hhd).
  destruct (lstrip g) as [|c r] eqn:Hl.
  - rewrite app_nil_r in Hg. subst sp.
    by rewrite (rstrip_spaces g Hsp).
  - rewrite Hg at 1.
    rewrite rstrip_app_nonspace, lstrip_app_nonspace, Hsp by done. simpl.
    rewrite !rstrip_cons_nonspace by done.
    by rewrite rstrip_idemp.
Qed.

Lemma strip_space_cons (c : ascii) (g : text) :
  isspace c = true → strip (c :: g) = strip g.
Proof. intros Hc. unfold strip. simpl. by rewrite Hc. Qed.

Lemma split_app_sep (sep : ascii) (a b : text) :
  sep ∉ a → split sep (a ++ sep :: b) = a :: split sep b.
Proof.
  induction a as [|x a IH]; intros Ha; simpl.
  - by rewrite Ascii.eqb_refl.
  - apply not_elem_of_cons in Ha as [Hx Ha].
    destruct (Ascii.eqb_spec x sep) as [->|_]; [done|].
    by rewrite IH.
Qed.

Lemma split_none (sep : ascii) (a : text) : sep ∉ a → split sep a = [a].
Proof.
  induction a as [|x a IH]; intros Ha; simpl; [done|].
  apply not_elem_of_cons in Ha as [Hx Ha].
  destruct (Ascii.eqb_spec x sep) as [->|_]; [done|].
  by rewrite IH.
Qed.

Lemma split_lines (init : list text) (lastl : text) :
  Forall (λ l, newline ∉ l) init → newline ∉ lastl →
  split newline (concat ((λ l, l ++ [newline]) <$> init) ++ lastl) = init ++ [lastl].
Proof.
  intros Hinit Hlast. induction Hinit as [|l init Hl _ IH].
  - by apply split_none.
  - transitivity (split newline
                    (l ++ newline :: (concat ((λ l, l ++ [newline]) <$> init) ++ lastl))).
    { f_equal. rewrite fmap_cons. simpl. by rewrite <- !(assoc_L (++)). }
    rewrite split_app_sep by done. by rewrite IH.
Qed.

Lemma strip_lines (init : list text) (x : text) (c : ascii) (g : text)
    (ch : ascii) (rest : text) :
  concat ((λ l, l ++ [newline]) <$> init) ++ x = ch :: rest →
  isspace ch = false → isspace c = false →
  strip (concat ((λ l, l ++ [newline]) <$> (init ++ [x ++ c :: g]))) =
  concat ((λ l, l ++ [newline]) <$> init) ++ x ++ c :: rstrip g.
Proof.
  intros Hhead Hch Hc.
  transitivity (strip ((ch :: rest) ++ c :: (g ++ [newline]))).
  { f_equal. rewrite <- Hhead, fmap_app, concat_app. simpl.
    rewrite app_nil_r. by rewrite <- !(assoc_L (++)). }
  unfold strip.
  assert (lstrip ((ch :: rest) ++ c :: (g ++ [newline])) =
          (ch :: rest) ++ c :: (g ++ [newline])) as -> by by apply lstrip_id_head.
  rewrite (rstrip_app_nonspace (ch :: rest) c) by done.
  rewrite rstrip_snoc_space by done. rewrite <- Hhead.
  by rewrite <- !(assoc_L (++)).
Qed.

(** *** Numbers as text *)

Lemma int_acc (d : Decimal.uint) (acc : positive) :
  foldl (λ acc c, 10 * acc + (Z.of_nat (nat_of_ascii c) - 48)) (Z.pos acc) (digits d) =
  Z.pos (Pos.of_uint_acc d acc).
Proof.
  revert acc. induction d as [|d IH|d IH|d IH|d IH|d IH|d IH|d IH|d IH|d IH|d IH];
    intros acc; [reflexivity|..];
    cbn [digits foldl Pos.of_uint_acc]; rewrite <- IH; f_equal; vm_compute (nat_of_ascii _); lia.
Qed.

Lemma int_digits (d : Decimal.uint) : int (digits d) = Z.of_N (Pos.of_uint d).
Proof.
  unfold int.
  induction d as [|d IH|d IH|d IH|d IH|d IH|d IH|d IH|d IH|d IH|d IH];
    [reflexivity | exact IH |..]; exact (int_acc d _).
Qed.

Lemma digits_all (d : Decimal.uint) : forallb is_digit (digits d) = true.
Proof. induction d; simpl; done. Qed.

Lemma str_digits (tick : Z) :
  0 ≤ tick → str tick ≠ [] ∧ forallb is_digit (str tick) = true ∧ int (str tick) = tick.
Proof.
  intros Htick. unfold str.
  destruct (Z.ltb_spec tick 0) as [?|_]; [lia|].
  split_and!.
  - destruct (Z.to_N tick) as [|p] eqn:Hn; simpl; [done|].
    pose proof (DecimalPos.Unsigned.to_uint_nonnil p) as Hnil.
    by destruct (Pos.to_uint p).
  - apply digits_all.
  - rewrite int_digits.
    change (Pos.of_uint (N.to_uint (Z.to_N tick))) with (N.of_uint (N.to_uint (Z.to_N tick))).
    rewrite DecimalN.Unsigned.of_to. lia.
Qed.

Lemma digit_facts (s : text) (c : ascii) :
  forallb is_digit s = true → c ∈ s →
  isspace c = false ∧ c ≠ vbar ∧ c ≠ newline.
Proof.
  intros Hs Hc. rewrite forallb_forall in Hs.
  assert (is_digit c = true) as Hd by (apply Hs; by apply list_elem_of_In).
  split_and!; [| by intros -> | by intros ->].
  unfold is_digit, isspace in *.
  destruct (Nat.leb_spec 48 (nat_of_ascii c)), (Nat.leb_spec (nat_of_ascii c) 57);
    try discriminate.
  destruct (Nat.leb_spec 9 (nat_of_ascii c)), (Nat.leb_spec (nat_of_ascii c) 13),
    (Nat.leb_spec 28 (nat_of_ascii c)), (Nat.leb_spec (nat_of_ascii c) 32);
    simpl; try reflexivity; lia.
Qed.

Lemma strip_padded (d : text) (k : nat) :
  d ≠ [] → forallb is_digit d = true → strip (d ++ replicate k space) = d.
Proof.
  intros Hne Hd. unfold strip.
  assert (lstrip (d ++ replicate k space) = d ++ replicate k space) as ->.
  { destruct d as [|c d]; [done|]. apply lstrip_id_head.
    apply (digit_facts (c :: d) c Hd). by left. }
  induction k as [|k IH].
  - simpl. rewrite app_nil_r. apply rstrip_id.
    intros c Hc. by apply (digit_facts d c Hd).
  - rewrite replicate_S_end, (assoc_L (++)), rstrip_snoc_space; done.
Qed.

(** *** One line of a report *)

(** A line that does not start with a digit, a blank or a bar adds
    nothing to the timeline. *)
Lemma parse_line_heading (c : ascii) (rest : text) :
  isspace c = false → is_digit c = false → c ≠ vbar →
  parse_line (c :: rest) = None.
Proof.
  intros Hsp Hd Hbar. unfold parse_line.
  assert (∃ part parts, split vbar (c :: rest) = (c :: part) :: parts) as (part & parts & ->).
  { cbn [split]. destruct (Ascii.eqb_spec c vbar) as [Heq|_]; [by destruct Hbar|].
    destruct (split vbar rest); eauto. }
  cbv zeta.
  match goal with |- context [(3 <=? ?n)%nat] => destruct (3 <=? n)%nat end; [|done].
  cbn [nth]. unfold strip.
  rewrite lstrip_id_head, rstrip_cons_nonspace by done.
  simpl. by rewrite Hd.
Qed.

Lemma parse_line_row (tick : Z) (chord_name g : text) :
  0 ≤ tick → vbar ∉ chord_name → vbar ∉ g →
  parse_line (row_body tick chord_name g) =
  Some (Cadence.mkSample tick (string_of_list_ascii (strip g))).
Proof.
  intros Htick Hname Hg.
  destruct (str_digits tick Htick) as (Hne & Hd & Hint).
  unfold parse_line, row_body.
  assert (∀ k c, c ∈ replicate k space → c ≠ vbar) as Hpad.
  { intros k c [-> _]%elem_of_replicate. done. }
  rewrite split_app_sep, split_app_sep, split_none; [|done|..].
  - cbn [length Nat.leb nth]. unfold ljust.
    rewrite <- (assoc_L (++)), <- replicate_S_end.
    rewrite strip_padded by done.
    unfold isdigit. destruct (str tick) eqn:Hs; [done|].
    by rewrite Hd, Hint.
  - unfold ljust. intros Hin.
    apply elem_of_cons in Hin as [?|Hin]; [done|].
    rewrite !elem_of_app in Hin. destruct Hin as [[?|Hin]|Hin]; [done|..].
    + by apply (Hpad _ _ Hin).
    + by apply list_elem_of_singleton in Hin.
  - unfold ljust. intros Hin.
    rewrite !elem_of_app in Hin. destruct Hin as [[Hin|Hin]|Hin].
    + by destruct (digit_facts _ _ Hd Hin) as (_ & ? & _).
    + by apply (Hpad _ _ Hin).
    + by apply list_elem_of_singleton in Hin.
Qed.

Lemma row_body_newline (tick : Z) (chord_name g : text) :
  0 ≤ tick → newline ∉ chord_name → newline ∉ g →
  newline ∉ row_body tick chord_name g.
Proof.
  intros Htick Hname Hg.
  destruct (str_digits tick Htick) as (Hne & Hd & Hint).
  assert (∀ k c, c ∈ replicate k space → c ≠ newline) as Hpad.
  { intros k c [-> _]%elem_of_replicate. done. }
  unfold row_body, ljust. intros Hin.
  repeat (rewrite elem_of_app in Hin || rewrite elem_of_cons in Hin).
  destruct_or!; try done;
    try (by destruct (digit_facts _ _ Hd Hin) as (_ & _ & ?));
    try (by apply (Hpad _ _ Hin));
    by apply elem_of_nil in Hin.
Qed.

(** *** The whole report *)

Lemma render_line_body (input_path file_type key : text) (l : line) :
  render_line input_path file_type key l = line_body input_path file_type key l ++ [newline].
Proof.
  destruct l; simpl; rewrite <- ?(assoc_L (++)); try reflexivity.
  unfold render_row, row_body.
  change (of_string " | ") with ([space] ++ vbar :: [space]).
  rewrite <- !(assoc_L (++)). cbn [app]. rewrite <- !(assoc_L (++)). reflexivity.
Qed.

Lemma report_text_lines (input_path file_type key : text) (trace : list fs_op) :
  report_text input_path file_type key trace =
  concat ((λ l, l ++ [newline]) <$> (line_body input_path file_type key <$> written trace)).
Proof.
  unfold report_text, written. induction trace as [|[|l|] trace IH]; simpl; [done|exact IH| |exact IH].
  rewrite render_line_body. f_equal. exact IH.
Qed.

Lemma heading_lines_skipped (input_path file_type key : text) (l : line) :
  l ∈ [File_line; Type_line; Key_line; Rule_line; Columns_line] →
  parse_line (line_body input_path file_type key l) = None.
Proof.
  intros Hl. repeat (rewrite elem_of_cons in Hl).
  destruct_or!; try (by apply elem_of_nil in Hl); subst l;
    by apply parse_line_heading.
Qed.

Lemma data_line_read (input_path file_type key : text) (op : fs_op) :
  plain_row op →
  ∃ l, op = fs_write l ∧ (newline ∉ line_body input_path file_type key l) ∧
       parse_line (line_body input_path file_type key l) = row_sample op.
Proof.
  destruct op as [|[| | | | |tick chord_name func]|]; try done.
  intros (Htick & [Hbar Hnl] & [Hbar' Hnl']). eexists. split; [done|]. split.
  - apply row_body_newline; [done..|]. by apply not_elem_of_cons.
  - simpl. rewrite parse_line_row; [|done..|by apply not_elem_of_cons].
    by rewrite strip_space_cons.
Qed.

Lemma data_lines_read (input_path file_type key : text) (rows : list fs_op) :
  Forall plain_row rows →
  Forall (λ l, newline ∉ l) (line_body input_path file_type key <$> written rows) ∧
  omap parse_line (line_body input_path file_type key <$> written rows) = omap row_sample rows.
Proof.
  intros Hrows.
  induction Hrows as [|op rows Hop _ [IH1 IH2]]; [by split|].
  destruct (data_line_read input_path file_type key op Hop) as (l & -> & Hnl & Hparse).
  unfold written in *. cbn [omap list_omap fmap list_fmap]. split.
  - by constructor.
  - change (list_fmap _ _ ?f ?l) with (f <$> l).
    change (list_omap ?f ?l) with (omap f l) in *.
    rewrite Hparse. cbn [row_sample]. by rewrite IH2.
Qed.

Lemma heading_lines_plain (input_path file_type key : text) (l : line) :
  newline ∉ input_path → newline ∉ file_type → newline ∉ key →
  l ∈ [File_line; Type_line; Key_line; Rule_line; Columns_line] →
  newline ∉ line_body input_path file_type key l.
Proof.
  intros Hpath Htype Hkey Hl. repeat (rewrite elem_of_cons in Hl).
  destruct_or!; try (by apply elem_of_nil in Hl); subst l; intros Hin; simpl in Hin;
    repeat (rewrite elem_of_app in Hin || rewrite elem_of_cons in Hin);
    destruct_or!; try done; by apply elem_of_nil in Hin.
Qed.

Lemma rstrip_plain (c : ascii) (g : text) : c ∉ g → c ∉ rstrip g.
Proof.
  intros Hg Hin. destruct (rstrip_prefix g) as [w Hw].
  apply Hg. rewrite Hw. apply elem_of_app. by left.
Qed.

Lemma report_parsed (input_path file_type key : text) (rows : list fs_op) :
  newline ∉ input_path → newline ∉ file_type → newline ∉ key →
  Forall plain_row rows →
  parse_harmonic_output (report_text input_path file_type key (header ++ rows)) =
  omap row_sample rows.
Proof.
  intros Hpath Htype Hkey Hrows.
  rewrite report_text_lines. unfold parse_harmonic_output.
  set (lb := line_body input_path file_type key).
  set (init := lb <$> [File_line; Type_line; Key_line; Rule_line; Columns_line]).
  assert (Forall (λ l, newline ∉ l) init) as Hinit.
  { apply Forall_fmap, Forall_forall. intros l Hl. by apply heading_lines_plain. }
  assert (omap parse_line init = []) as Hskip.
  { subst init lb. cbn [fmap list_fmap omap list_omap].
    by rewrite !heading_lines_skipped by (repeat constructor). }
  assert (parse_line (lb Rule_line) = None) as Hrule.
  { apply heading_lines_skipped. repeat constructor. }
  assert (∀ more x, ∃ rest,
            concat ((λ l, l ++ [newline]) <$> (init ++ more)) ++ x = "F"%char :: rest)
    as Hhead by (intros; eexists; reflexivity).
  assert (lb <$> written (header ++ rows) =
          init ++ lb Rule_line :: (lb <$> written rows)) as -> by reflexivity.
  destruct rows as [|r rows _] using rev_ind.
  - destruct (Hhead [] (replicate 59 "-"%char)) as [rest Hrest].
    rewrite app_nil_r in Hrest.
    change (lb Rule_line :: (lb <$> written []))
      with [replicate 59 "-"%char ++ "-"%char :: []].
    rewrite (strip_lines _ _ _ _ _ _ Hrest) by done.
    change (replicate 59 "-"%char ++ "-"%char :: rstrip []) with (lb Rule_line).
    rewrite split_lines; [|done|by apply heading_lines_plain; repeat constructor].
    rewrite omap_app, Hskip. cbn [omap list_omap app].
    by rewrite Hrule.
  - apply Forall_app in Hrows as [Hrows Hr]. apply Forall_inv in Hr.
    destruct r as [|[| | | | |tick chord_name func]|]; try done.
    destruct Hr as (Htick & [Hbar Hnl] & [Hbar' Hnl']).
    destruct (data_lines_read input_path file_type key rows Hrows) as [Hplain Hread].
    fold lb in Hplain, Hread.
    assert (written (rows ++ [fs_write (Row tick chord_name func)]) =
            written rows ++ [Row tick chord_name func]) as ->.
    { unfold written. by rewrite omap_app. }
    set (x := (ljust 6 (str tick) ++ [space]) ++
              vbar :: (space :: ljust 30 (of_string chord_name) ++ [space])).
    set (g := space :: of_string func).
    assert (∀ g', row_body tick (of_string chord_name) g' = x ++ vbar :: g') as Hbody.
    { intros g'. unfold row_body, x.
      by rewrite <- (assoc_L (++) (ljust 6 (str tick) ++ [space])). }
    destruct (Hhead (lb Rule_line :: (lb <$> written rows)) x) as [rest Hrest].
    assert (init ++ lb Rule_line :: (lb <$> written rows ++ [Row tick chord_name func]) =
            (init ++ lb Rule_line :: (lb <$> written rows)) ++ [x ++ vbar :: g]) as ->.
    { by rewrite fmap_app, <- (assoc_L (++)), <- Hbody. }
    rewrite (strip_lines _ _ _ _ _ _ Hrest) by done.
    rewrite <- Hbody.
    assert ((vbar ∉ g) ∧ (newline ∉ g)) as [Hg Hg'].
    { split; by apply not_elem_of_cons. }
    rewrite split_lines.
    + rewrite !omap_app, Hskip. cbn [omap list_omap app].
      rewrite Hrule.
      change (list_omap ?f ?l) with (omap f l).
      rewrite Hread. f_equal. cbn [row_sample].
      rewrite parse_line_row by (try done; by apply rstrip_plain).
      rewrite strip_rstrip. unfold g. by rewrite strip_space_cons.
    + apply Forall_app. split; [done|]. constructor; [|done].
      by apply heading_lines_plain; repeat constructor.
    + apply row_body_newline; [done..|]. by apply rstrip_plain.
Qed.

Lemma midi_rows_read (pitchedCommonName figure : list Z → string)
    (k : Z) (sounding_notes : list (list Z)) :
  0 ≤ k →
  (∀ notes, plain (of_string (pitchedCommonName notes)) ∧ plain (of_string (figure notes))) →
  Forall plain_row (ReportShape.midi_rows pitchedCommonName figure k sounding_notes) ∧
  omap row_sample (ReportShape.midi_rows pitchedCommonName figure k sounding_notes) =
  imap (λ i notes, Cadence.mkSample (k + Z.of_nat i)
                     (string_of_list_ascii (strip (of_string (figure notes)))))
       sounding_notes.
Proof.
  intros Hk Hplain. revert k Hk.
  induction sounding_notes as [|notes l IH]; intros k Hk; [by split|].
  unfold ReportShape.midi_rows in *. rewrite !imap_cons.
  destruct (IH (k + 1) ltac:(lia)) as [IH1 IH2].
  assert (imap ((λ i midi_notes, fs_write (Row (k + Z.of_nat i) (pitchedCommonName midi_notes)
                                              (figure midi_notes))) ∘ S) l =
          imap (λ i midi_notes, fs_write (Row (k + 1 + Z.of_nat i) (pitchedCommonName midi_notes)
                                              (figure midi_notes))) l) as ->.
  { apply imap_ext. intros i x _. simpl. do 2 f_equal. lia. }
  split.
  - constructor; [|done]. simpl. destruct (Hplain notes). split; [lia|done].
  - cbn [omap list_omap row_sample].
    change (list_omap ?f ?l) with (omap f l). rewrite IH2. f_equal.
    apply imap_ext. intros i x _. simpl. f_equal. lia.
Qed.

Lemma plain_rows_all_read (rows : list fs_op) :
  Forall plain_row rows → length (omap row_sample rows) = length rows.
Proof.
  induction 1 as [|op rows Hop _ IH]; [done|].
  destruct op as [|[| | | | |tick chord_name func]|]; try done.
  simpl. by f_equal.
Qed.

(** The text of a report, read back by [parse_harmonic_output], gives
    one timeline entry per data row, in order, with the tick of the row
    and its function stripped of surrounding blanks; the six header
    lines add nothing.  The row fields hold no bar and no line feed, the
    header fields no line feed. *)
Theorem report_reads_back (input_path file_type key : text) (rows : list fs_op) :
  newline ∉ input_path → newline ∉ file_type → newline ∉ key →
  Forall plain_row rows →
  let timeline :=
    parse_harmonic_output (report_text input_path file_type key (header ++ rows)) in
  timeline = omap row_sample rows ∧ length timeline = length rows.
Proof.
  intros Hpath Htype Hkey Hrows. cbv zeta.
  rewrite report_parsed by done. split; [done|]. by apply plain_rows_all_read.
Qed.

Section ReadBack.
Variable pitchedCommonName : list Z → string.
Variable figure : list Z → string.

(** The report of an accepted MIDI file, read back by
    [parse_harmonic_output], is the timeline of the sampler: entry [i]
    has tick [i] and the figure music21 gives to the notes sounding at
    subdivision [i]; [find_cadences] therefore works on exactly these
    samples. *)
Theorem midi_timeline_read_back (inp : analysis_input)
    (sounding_notes : list (list Z)) (total_16ths : Z) (input_path kind key : text) :
  (∀ notes, notes ≠ [] → pitchedCommonName notes ≠ "Rest") →
  (∀ notes, plain (of_string (pitchedCommonName notes)) ∧ plain (of_string (figure notes))) →
  newline ∉ input_path → newline ∉ kind → newline ∉ key →
  Report.file_type inp = MIDI → key_mode inp = major →
  Sampler._get_sounding_notes_per_16th (mid inp) = Some (sounding_notes, total_16ths) →
  Forall (λ notes, (3 ≤ length notes)%nat) sounding_notes →
  let report :=
    report_text input_path kind key (save_harmonic_analysis pitchedCommonName figure inp).2 in
  let timeline :=
    imap (λ i notes, Cadence.mkSample (Z.of_nat i)
                       (string_of_list_ascii (strip (of_string (figure notes)))))
         sounding_notes in
  parse_harmonic_output report = timeline ∧
  find_cadences report = Cadence.find_cadences timeline.
Proof.
  intros Hname Hplain Hpath Hkind Hkey Htype Hmode Hrun Hgate. cbv zeta.
  rewrite (ReportMore.midi_report_trace pitchedCommonName figure inp sounding_notes total_16ths)
    by done.
  cbn [snd].
  destruct (midi_rows_read pitchedCommonName figure 0 sounding_notes) as [Hrows Hread];
    [lia|done|].
  assert (parse_harmonic_output
            (report_text input_path kind key
               (header ++ ReportShape.midi_rows pitchedCommonName figure 0 sounding_notes)) =
          imap (λ i notes, Cadence.mkSample (Z.of_nat i)
                             (string_of_list_ascii (strip (of_string (figure notes)))))
               sounding_notes) as Hparse.
  { rewrite report_parsed by done. rewrite Hread.
    apply imap_ext. intros i x _. simpl. f_equal. }
  split; [done|]. unfold find_cadences. by rewrite Hparse.
Qed.
End ReadBack.

End TextFacts.

Module ReadBackWitnesses.

Lemma dominant_seventh_witness :
  Chords._notes_to_chord Inputs.seventh_on_a = Some "C#dim/A".
Proof.
  apply (ChordMore3.dominant_seventh_labels 9 57 Inputs.seventh_on_a).
  - lia.
  - vm_compute. lia.
  - vm_compute. reflexivity.
  - vm_compute. reflexivity.
Defined.

Lemma label_witness :
  Chords.or_rest (Some "C/G") = "C/G".
Proof.
  apply (ChordMore3.label_starts_with_note_name Inputs.six_four "C/G").
  vm_compute. reflexivity.
Defined.

Lemma rest_iff_witness :
  ∃ tempo' step_ms,
    Chords.effective_tempo Inputs.with_low_note (Some 120%Q) = Some tempo' ∧
    Chords.step_of tempo' = Some step_ms ∧
    let sounding :=
      Chords.notes_at inject_Z (Chords.note_msgs Inputs.with_low_note)
        (Chords.num_mul (Chords.of_int (Z.of_nat 0)) step_ms) in
    Some "C" = Chords._notes_to_chord sounding ∧
    (∀ n, n ∈ sounding ↔
       ∃ msg, msg ∈ Chords.note_msgs Inputs.with_low_note ∧ Chords.pitch msg = n ∧
              21 ≤ n ≤ 108 ∧
              Chords.num_le (inject_Z (Chords.start msg))
                (Chords.num_mul (Chords.of_int (Z.of_nat 0)) step_ms) = true ∧
              Chords.num_lt (Chords.num_mul (Chords.of_int (Z.of_nat 0)) step_ms)
                (inject_Z (Chords.end_ msg)) = true) ∧
    (Chords.or_rest (Some "C") = "rest" ↔ sounding = ∅ ∨ (4 < size sounding)%nat).
Proof.
  eapply (ChordMore3.rest_iff_silent_or_crowded inject_Z Inputs.with_low_note (Some 120%Q)
            _ 0%nat (Some "C")).
  - vm_compute. reflexivity.
  - reflexivity.
Defined.

Lemma cut_file_witness :
  let new_mid := Cutter.cut_midi_at_16th Inputs.two_tracks 10 in
  Mido.ticks_per_beat new_mid = 4 ∧
  length (Mido.tracks new_mid) = 2%nat ∧
  Forall (λ track,
            Mido.well_formed_track track ∧ last track = Some Cutter.end_of_track ∧
            Mido.elapsed track ≤ 10)
         (Mido.tracks new_mid).
Proof.
  apply (CutterMore.cut_file_bounded Inputs.two_tracks 10); [lia | simpl; lia |].
  repeat constructor; simpl; lia.
Defined.

Lemma report_reads_back_witness :
  Text.parse_harmonic_output
    (Text.report_text Inputs.report_path Inputs.report_kind Inputs.report_key
       (Report.header ++ Inputs.two_rows)) =
  [Cadence.mkSample 0 "V7"; Cadence.mkSample 1 "I"].
Proof.
  apply (TextFacts.report_reads_back Inputs.report_path Inputs.report_kind Inputs.report_key
           Inputs.two_rows).
  - apply (bool_decide_unpack _). vm_compute. exact I.
  - apply (bool_decide_unpack _). vm_compute. exact I.
  - apply (bool_decide_unpack _). vm_compute. exact I.
  - repeat constructor; try (simpl; lia); apply (bool_decide_unpack _); vm_compute; exact I.
Defined.

Lemma midi_timeline_witness :
  Text.parse_harmonic_output
    (Text.report_text Inputs.report_path Inputs.report_kind Inputs.report_key
       (Report.save_harmonic_analysis Inputs.name_of Inputs.figure_of Inputs.triad_input).2) =
  [Cadence.mkSample 0 "I"; Cadence.mkSample 1 "I"; Cadence.mkSample 2 "I";
   Cadence.mkSample 3 "I"].
Proof.
  apply (TextFacts.midi_timeline_read_back Inputs.name_of Inputs.figure_of Inputs.triad_input
           [[60; 64; 67]; [60; 64; 67]; [60; 64; 67]; [60; 64; 67]] 4
           Inputs.report_path Inputs.report_kind Inputs.report_key).
  - intros notes _. discriminate.
  - intros notes. repeat split; apply (bool_decide_unpack _); vm_compute; exact I.
  - apply (bool_decide_unpack _). vm_compute. exact I.
  - apply (bool_decide_unpack _). vm_compute. exact I.
  - apply (bool_decide_unpack _). vm_compute. exact I.
  - reflexivity.
  - reflexivity.
  - vm_compute. reflexivity.
  - repeat constructor.
Defined.

End ReadBackWitnesses.
